(** * SM-Vault: the client-side cryptographic core ([frontend/src/lib/crypto.ts])

    A shallow embedding of the password generator, the strength estimator,
    the record cipher and the bulk export/import of the vault, together with
    the platform functions they call (UTF-8 text codec, base64, JSON), and
    of their callers: the validation of the master password and the sign-up
    form, the session of the client, the guard and the handlers of the
    server, and the vault page. *)

From Stdlib Require Import ZArith NArith List Bool Lia String Ascii.
From Stdlib Require Import Strings.Byte.
From Stdlib Require Import Floats Uint63.
Import ListNotations.

Local Open Scope Z_scope.

(* The decimal literal 0.001 of the source denotes the nearest double. *)
Set Warnings "-inexact-float,-register-all".

(** ** JavaScript strings

    A JavaScript string is a sequence of 16-bit code units. *)

Definition jsstring := list Z.

(** The code units of an ASCII literal of the source. *)
Definition str (s : string) : jsstring :=
  map (fun a => Z.of_N (N_of_ascii a)) (list_ascii_of_string s).

Definition code_unit (c : Z) : Prop := 0 <= c < 65536.

Definition jsstring_ok (s : jsstring) : Prop := Forall code_unit s.

Definition jsstring_okb (s : jsstring) : bool :=
  forallb (fun c => (0 <=? c) && (c <? 65536)) s.

Fixpoint jsstring_eqb (a b : jsstring) : bool :=
  match a, b with
  | [], [] => true
  | x :: a', y :: b' => (x =? y) && jsstring_eqb a' b'
  | _, _ => false
  end.

(** [String.prototype.includes] for a one-character needle. *)
Definition includes (s : jsstring) (c : Z) : bool := existsb (Z.eqb c) s.

(** A boolean test that a string has no repeated character. *)
Fixpoint nodupb (l : list Z) : bool :=
  match l with
  | [] => true
  | x :: r => negb (includes r x) && nodupb r
  end.

(** ** Exceptions

    A call either returns a value or throws; a rejected promise is a
    throw at the [await]. *)

Inductive exn :=
| SyntaxError
| TypeError
| InvalidCharacterError
| OperationError
| QuotaExceededError
| RangeError
| Error (message : jsstring).

Inductive completion (A : Type) :=
| Return (a : A)
| Throw (e : exn).

Arguments Return {A} a.
Arguments Throw {A} e.

Definition bind {A B : Type} (c : completion A) (k : A -> completion B)
  : completion B :=
  match c with
  | Return a => k a
  | Throw e => Throw e
  end.

Notation "x <- c ;; k" := (bind c (fun x => k))
  (at level 61, c at next level, right associativity).

(** Apply [f] to every element, in order, until a call throws.  This is
    also [await Promise.all(l.map(f))]: the results in the order of [l], or
    a throw when some call fails. *)
Fixpoint map_all {A B : Type} (f : A -> completion B) (l : list A)
  : completion (list B) :=
  match l with
  | [] => Return []
  | a :: rest =>
      b <- f a ;;
      bs <- map_all f rest ;;
      Return (b :: bs)
  end.

(** ** Password generator ([generateSecurePassword]) *)

Module Generator.

Record PasswordOptions := {
  length : nat;
  includeNumbers : bool;
  includeSymbols : bool;
  excludeAmbiguous : bool
}.

Definition lowercase : jsstring := str "abcdefghijklmnopqrstuvwxyz".
Definition uppercase : jsstring := str "ABCDEFGHIJKLMNOPQRSTUVWXYZ".
Definition numbers : jsstring := str "0123456789".
Definition symbols : jsstring := str "!@#$%^&*()_+-=[]{}|;:,.<>?".
Definition ambiguous : jsstring := str "il1Lo0O".

(** The character set built by the first half of [generateSecurePassword]. *)
Definition charset_of (options : PasswordOptions) : jsstring :=
  let charset := lowercase ++ uppercase in
  let charset := if includeNumbers options then charset ++ numbers else charset in
  let charset := if includeSymbols options then charset ++ symbols else charset in
  if excludeAmbiguous options
  then filter (fun c => negb (includes ambiguous c)) charset
  else charset.

Definition UINT32 : Z := 4294967296.

(** [new Uint32Array(n)] followed by [crypto.getRandomValues]: cell [i]
    receives the [i]-th word of the random source, reduced to 32 bits.  A
    buffer of more than 2^53 - 1 bytes is refused by the constructor with
    a [RangeError], and an array of more than 65536 bytes (16384 cells) is
    refused by [crypto.getRandomValues] with a [QuotaExceededError].  (An
    engine may also fail to allocate a large array, with a [RangeError]:
    the call throws in that case too.) *)
Definition getRandomValues32 (source : nat -> Z) (n : nat)
  : completion (list Z) :=
  if 2 ^ 53 - 1 <? 4 * Z.of_nat n then Throw RangeError
  else if 65536 <? 4 * Z.of_nat n then Throw QuotaExceededError
  else Return (map (fun i => source i mod UINT32) (seq 0 n)).

(** [u % n] on non-negative numbers; [None] is NaN (the divisor is 0). *)
Definition js_rem (u n : Z) : option Z :=
  if n =? 0 then None else Some (u mod n).

(** [charset[k]] converted to a string by [+=]: an index outside the string
    (or NaN) reads [undefined]. *)
Definition char_at (charset : jsstring) (k : option Z) : jsstring :=
  match k with
  | Some k =>
      match nth_error charset (Z.to_nat k) with
      | Some c => [c]
      | None => str "undefined"
      end
  | None => str "undefined"
  end.

(** The selection step: [charset[randomValues[i] % charset.length]]. *)
Definition select (charset : jsstring) (u : Z) : jsstring :=
  char_at charset (js_rem u (Z.of_nat (List.length charset))).

(** The [for] loop, one iteration per cell of [randomValues]. *)
Fixpoint generate_loop (charset : jsstring) (randomValues : list Z)
                       (password : jsstring) : jsstring :=
  match randomValues with
  | [] => password
  | u :: rest => generate_loop charset rest (password ++ select charset u)
  end.

Definition generateSecurePassword (options : PasswordOptions)
                                  (source : nat -> Z) : completion jsstring :=
  let charset := charset_of options in
  randomValues <- getRandomValues32 source (length options) ;;
  Return (generate_loop charset randomValues []).

(** *** Counting the random words that select a character *)

(** The number of words [u] in [[0, n)] that satisfy [P]. *)
Definition count_step (P : Z -> bool) (st : Z * Z) : Z * Z :=
  (fst st + 1, if P (fst st) then snd st + 1 else snd st).

Definition count_words (P : Z -> bool) (n : N) : Z :=
  snd (N.iter n (count_step P) (0, 0)).

(** The word [u] makes the selection step append exactly the character [c]. *)
Definition selects (charset : jsstring) (c : Z) (u : Z) : bool :=
  jsstring_eqb (select charset u) [c].

Definition selecting_words (charset : jsstring) (c : Z) : Z :=
  count_words (selects charset c) (Z.to_N UINT32).

Definition is_letter (c : Z) : Prop := In c lowercase \/ In c uppercase.

End Generator.

(** ** Strength estimator ([calculatePasswordEntropy], [estimateTimeToCrack])

    JavaScript numbers are IEEE-754 doubles: they are modelled by the
    primitive binary64 floats, whose comparisons and products are exact.
    [Math.pow], [Math.log2] and [Math.round] are functions of the platform
    and are parameters of the estimator. *)

Module Strength.

Inductive StrengthTier := VeryWeak | Weak | Moderate | Strong | VeryStrong.

(** The text of [timeToCrack]; the number is the one the template literal
    prints before the unit. *)
Inductive TimeText :=
| Instantly
| Days (n : float)
| Years (n : float)
| KYears (n : float)
| MYears (n : float).

Record Estimate := {
  entropy : float;
  timeToCrack : TimeText;
  strength : StrengthTier
}.

Definition in_range (lo hi : Z) (c : Z) : bool := (lo <=? c) && (c <=? hi).

(** [/[a-z]/.test], [/[A-Z]/.test], [/[0-9]/.test], [/[^a-zA-Z0-9]/.test]. *)
Definition test_lower (password : jsstring) : bool :=
  existsb (in_range 97 122) password.
Definition test_upper (password : jsstring) : bool :=
  existsb (in_range 65 90) password.
Definition test_digit (password : jsstring) : bool :=
  existsb (in_range 48 57) password.
Definition test_other (password : jsstring) : bool :=
  existsb (fun c => negb (in_range 97 122 c || in_range 65 90 c || in_range 48 57 c))
          password.

(** The value of [charsetSize] after the four tests. *)
Definition charsetSize_of (password : jsstring) : Z :=
  let charsetSize := 0 in
  let charsetSize := if test_lower password then charsetSize + 26 else charsetSize in
  let charsetSize := if test_upper password then charsetSize + 26 else charsetSize in
  let charsetSize := if test_digit password then charsetSize + 10 else charsetSize in
  let charsetSize := if test_other password then charsetSize + 32 else charsetSize in
  charsetSize.

(** The double that holds a small non-negative integer. *)
Definition number_of_Z (z : Z) : float := PrimFloat.of_uint63 (Uint63.of_Z z).

Section Estimator.

Variable Math_pow : float -> float -> float.
Variable Math_log2 : float -> float.
Variable Math_round : float -> float.

Definition calculatePasswordEntropy (password : jsstring) : float :=
  Math_log2 (Math_pow (number_of_Z (charsetSize_of password))
                      (number_of_Z (Z.of_nat (List.length password)))).

Definition yearsToCrack_of (password : jsstring) : float :=
  let entropy := calculatePasswordEntropy password in
  let guessesPerSecond := 1e9%float in
  let secondsToCrack := (Math_pow 2 entropy / guessesPerSecond)%float in
  (secondsToCrack / (365.25 * 24 * 60 * 60))%float.

(** The [if] chain over [yearsToCrack]. *)
Definition classify (yearsToCrack : float) : TimeText * StrengthTier :=
  if (yearsToCrack <? 0.001)%float then (Instantly, VeryWeak)
  else if (yearsToCrack <? 1)%float
       then (Days (Math_round (yearsToCrack * 365)%float), Weak)
  else if (yearsToCrack <? 1000)%float
       then (Years (Math_round yearsToCrack), Moderate)
  else if (yearsToCrack <? 1000000)%float
       then (KYears (Math_round (yearsToCrack / 1000)%float), Strong)
  else (MYears (Math_round (yearsToCrack / 1000000)%float), VeryStrong).

(** The tier the chain selects. *)
Definition tier_of (yearsToCrack : float) : StrengthTier :=
  snd (classify yearsToCrack).

Definition estimateTimeToCrack (password : jsstring) : Estimate :=
  let yearsToCrack := yearsToCrack_of password in
  {| entropy := Math_round (calculatePasswordEntropy password);
     timeToCrack := fst (classify yearsToCrack);
     strength := snd (classify yearsToCrack) |}.

End Estimator.

(** A power function that always answers the number of guesses tried in
    one year at the modelled rate; with it every password takes exactly
    one year to crack. *)
Definition one_year_pow (base exponent : float) : float := 31557600e9%float.

(** A password of 157 characters that has all four classes. *)
Definition long_password : jsstring :=
  List.concat (repeat (str "aA1!") 39) ++ str "a".

End Strength.

(** ** Bytes *)

Definition byte_to_Z (b : byte) : Z := Z.of_N (Byte.to_N b).

(** Storing a number in a cell of a [Uint8Array] keeps its low 8 bits. *)
Definition byte_of_Z (z : Z) : byte :=
  match Byte.of_N (Z.to_N (z mod 256)) with
  | Some b => b
  | None => x00
  end.

(** ** Text codec ([TextEncoder], [TextDecoder]) *)

Module Utf8.

Definition is_high_surrogate (c : Z) : bool := (0xD800 <=? c) && (c <=? 0xDBFF).
Definition is_low_surrogate (c : Z) : bool := (0xDC00 <=? c) && (c <=? 0xDFFF).
Definition is_surrogate (c : Z) : bool := (0xD800 <=? c) && (c <=? 0xDFFF).

(** The code points of a string: a high surrogate followed by a low one
    is one supplementary code point, any other code unit stands for
    itself. *)
Fixpoint StringToCodePoints (s : jsstring) : list Z :=
  match s with
  | [] => []
  | c :: rest =>
      if is_high_surrogate c then
        match rest with
        | d :: rest' =>
            if is_low_surrogate d
            then (0x10000 + (c - 0xD800) * 0x400 + (d - 0xDC00))
                   :: StringToCodePoints rest'
            else c :: StringToCodePoints rest
        | [] => [c]
        end
      else c :: StringToCodePoints rest
  end.

Definition UTF16EncodeCodePoint (cp : Z) : jsstring :=
  if cp <? 0x10000 then [cp]
  else [0xD800 + (cp - 0x10000) / 0x400; 0xDC00 + (cp - 0x10000) mod 0x400].

Definition CodePointsToString (cps : list Z) : jsstring :=
  flat_map UTF16EncodeCodePoint cps.

(** A lone surrogate is replaced by U+FFFD before encoding. *)
Definition to_scalar_value (cp : Z) : Z :=
  if is_surrogate cp then 0xFFFD else cp.

Definition utf8_encode_code_point (cp : Z) : list byte :=
  if cp <? 0x80 then [byte_of_Z cp]
  else if cp <? 0x800 then
    [byte_of_Z (0xC0 + cp / 64); byte_of_Z (0x80 + cp mod 64)]
  else if cp <? 0x10000 then
    [byte_of_Z (0xE0 + cp / 4096); byte_of_Z (0x80 + (cp / 64) mod 64);
     byte_of_Z (0x80 + cp mod 64)]
  else
    [byte_of_Z (0xF0 + cp / 262144); byte_of_Z (0x80 + (cp / 4096) mod 64);
     byte_of_Z (0x80 + (cp / 64) mod 64); byte_of_Z (0x80 + cp mod 64)].

(** [new TextEncoder().encode(s)] *)
Definition encode (s : jsstring) : list byte :=
  flat_map (fun cp => utf8_encode_code_point (to_scalar_value cp))
           (StringToCodePoints s).

(** The state of the UTF-8 decoder of the Encoding standard. *)
Record decoder := {
  code_point : Z;
  bytes_seen : Z;
  bytes_needed : Z;
  lower_boundary : Z;
  upper_boundary : Z
}.

Definition decoder_start : decoder :=
  {| code_point := 0; bytes_seen := 0; bytes_needed := 0;
     lower_boundary := 0x80; upper_boundary := 0xBF |}.

Definition expect_more (cp needed lo hi : Z) : decoder :=
  {| code_point := cp; bytes_seen := 0; bytes_needed := needed;
     lower_boundary := lo; upper_boundary := hi |}.

(** A byte read when no continuation byte is expected. *)
Definition lead_byte (b : Z) : list Z * decoder :=
  if b <=? 0x7F then ([b], decoder_start)
  else if (0xC2 <=? b) && (b <=? 0xDF) then
    ([], expect_more (b mod 32) 1 0x80 0xBF)
  else if (0xE0 <=? b) && (b <=? 0xEF) then
    ([], expect_more (b mod 16) 2
           (if b =? 0xE0 then 0xA0 else 0x80)
           (if b =? 0xED then 0x9F else 0xBF))
  else if (0xF0 <=? b) && (b <=? 0xF4) then
    ([], expect_more (b mod 8) 3
           (if b =? 0xF0 then 0x90 else 0x80)
           (if b =? 0xF4 then 0x8F else 0xBF))
  else ([0xFFFD], decoder_start).

(** One byte of input: the code points emitted and the next state.  A byte
    that cannot continue the current sequence emits U+FFFD and is read
    again as a lead byte. *)
Definition handle_byte (st : decoder) (b : Z) : list Z * decoder :=
  if bytes_needed st =? 0 then lead_byte b
  else if (b <? lower_boundary st) || (upper_boundary st <? b) then
    (0xFFFD :: fst (lead_byte b), snd (lead_byte b))
  else
    let cp := code_point st * 64 + b mod 64 in
    if bytes_seen st + 1 =? bytes_needed st then ([cp], decoder_start)
    else ([], {| code_point := cp; bytes_seen := bytes_seen st + 1;
                 bytes_needed := bytes_needed st;
                 lower_boundary := 0x80; upper_boundary := 0xBF |}).

Fixpoint utf8_decode (st : decoder) (bs : list byte) : list Z :=
  match bs with
  | [] => if bytes_needed st =? 0 then [] else [0xFFFD]
  | b :: rest =>
      fst (handle_byte st (byte_to_Z b))
        ++ utf8_decode (snd (handle_byte st (byte_to_Z b))) rest
  end.

Definition strip_BOM (cps : list Z) : list Z :=
  match cps with
  | c :: rest => if c =? 0xFEFF then rest else cps
  | [] => []
  end.

(** [new TextDecoder().decode(bytes)]: never throws, drops a leading byte
    order mark. *)
Definition decode (bs : list byte) : jsstring :=
  CodePointsToString (strip_BOM (utf8_decode decoder_start bs)).

End Utf8.

(** ** Base64 ([btoa], [atob]) *)

Module Base64.

Definition alphabet_char (i : Z) : Z :=
  if i <? 26 then 65 + i
  else if i <? 52 then 97 + (i - 26)
  else if i <? 62 then 48 + (i - 52)
  else if i =? 62 then 43
  else 47.

Definition alphabet_index (c : Z) : option Z :=
  if (65 <=? c) && (c <=? 90) then Some (c - 65)
  else if (97 <=? c) && (c <=? 122) then Some (c - 97 + 26)
  else if (48 <=? c) && (c <=? 57) then Some (c - 48 + 52)
  else if c =? 43 then Some 62
  else if c =? 47 then Some 63
  else None.

Definition pad : Z := 61.

(** Three bytes become four characters; a last group of one or two bytes
    is padded with [=]. *)
Fixpoint encode_bytes (bs : list Z) : jsstring :=
  match bs with
  | [] => []
  | [a] =>
      [alphabet_char (a / 4); alphabet_char ((a mod 4) * 16); pad; pad]
  | [a; b] =>
      [alphabet_char (a / 4); alphabet_char ((a mod 4) * 16 + b / 16);
       alphabet_char ((b mod 16) * 4); pad]
  | a :: b :: c :: rest =>
      alphabet_char (a / 4) :: alphabet_char ((a mod 4) * 16 + b / 16)
        :: alphabet_char ((b mod 16) * 4 + c / 64) :: alphabet_char (c mod 64)
        :: encode_bytes rest
  end.

(** [btoa(binary)]: throws when a character is above U+00FF. *)
Definition btoa (binary : jsstring) : completion jsstring :=
  if forallb (fun c => c <=? 255) binary
  then Return (encode_bytes binary)
  else Throw InvalidCharacterError.

Definition is_ascii_whitespace (c : Z) : bool :=
  (c =? 9) || (c =? 10) || (c =? 12) || (c =? 13) || (c =? 32).

Definition remove_whitespace (s : jsstring) : jsstring :=
  filter (fun c => negb (is_ascii_whitespace c)) s.

(** When the length is a multiple of four, one or two final [=] are
    removed. *)
Definition strip_padding (s : jsstring) : jsstring :=
  if Z.of_nat (List.length s) mod 4 =? 0 then
    match rev s with
    | p :: q :: r =>
        if p =? pad then (if q =? pad then rev r else rev (q :: r)) else s
    | [p] => if p =? pad then [] else s
    | [] => s
    end
  else s.

Fixpoint sextets (s : jsstring) : option (list Z) :=
  match s with
  | [] => Some []
  | c :: rest =>
      match alphabet_index c, sextets rest with
      | Some v, Some vs => Some (v :: vs)
      | _, _ => None
      end
  end.

(** Four sextets give three bytes; two final sextets give one byte and
    three give two, the spare bits being dropped. *)
Fixpoint decode_sextets (vs : list Z) : list Z :=
  match vs with
  | a :: b :: c :: d :: rest =>
      (a * 4 + b / 16) :: ((b mod 16) * 16 + c / 4) :: ((c mod 4) * 64 + d)
        :: decode_sextets rest
  | [a; b; c] => [a * 4 + b / 16; (b mod 16) * 16 + c / 4]
  | [a; b] => [a * 4 + b / 16]
  | _ => []
  end.

(** [atob(data)], the forgiving base64 decoding of the HTML standard. *)
Definition atob (data : jsstring) : completion jsstring :=
  let data := strip_padding (remove_whitespace data) in
  if Z.of_nat (List.length data) mod 4 =? 1 then Throw InvalidCharacterError
  else match sextets data with
       | Some vs => Return (decode_sextets vs)
       | None => Throw InvalidCharacterError
       end.

End Base64.

(** ** Functions of the browser that are taken as given

    The key derivation and the cipher of Web Crypto, and the rendering of
    the numbers that are not integers. *)

Class Platform := {
  CryptoKey : Type;
  (** PBKDF2 with the given hash iterated [iterations] times, producing a
      256-bit AES-GCM key. *)
  PBKDF2_SHA256 : forall (password salt : list byte) (iterations : Z), CryptoKey;
  AES_GCM_encrypt : forall (key : CryptoKey) (iv plaintext : list byte), list byte;
  (** [None] is the [OperationError] of a failed tag check. *)
  AES_GCM_decrypt : forall (key : CryptoKey) (iv ciphertext : list byte),
      option (list byte);
  (** [Number::toString] of the double nearest to [m * 10^e], for the
      values that are not integers below 2^53. *)
  Number_toString_general : forall (m e : Z), jsstring
}.

(** The cipher is correct: decrypting under the key and the nonce used to
    encrypt returns the plaintext. *)
Class PlatformLaws (P : Platform) : Prop := {
  AES_GCM_decrypt_encrypt :
    forall (key : CryptoKey) (iv plaintext : list byte),
      AES_GCM_decrypt key iv (AES_GCM_encrypt key iv plaintext) = Some plaintext
}.

(** ** JSON ([JSON.parse], [JSON.stringify]) *)

Module JSON.

(** The values [JSON.parse] produces.  [JNumber m e] is the number written
    with the decimal digits [m] and the exponent [e], that is the double
    nearest to [m * 10^e].  [JObject] lists the members in the order of the
    text, a repeated key included; reading a property takes the last
    member of that name. *)
Inductive JSValue :=
| JNull
| JBool (b : bool)
| JNumber (m e : Z)
| JString (s : jsstring)
| JArray (elements : list JSValue)
| JObject (members : list (jsstring * JSValue)).

(** *** Parsing *)

Definition is_whitespace (c : Z) : bool :=
  (c =? 32) || (c =? 9) || (c =? 10) || (c =? 13).

Fixpoint skip_whitespace (s : jsstring) : jsstring :=
  match s with
  | [] => []
  | c :: rest => if is_whitespace c then skip_whitespace rest else s
  end.

Definition hex_digit_value (c : Z) : option Z :=
  if (48 <=? c) && (c <=? 57) then Some (c - 48)
  else if (97 <=? c) && (c <=? 102) then Some (c - 87)
  else if (65 <=? c) && (c <=? 70) then Some (c - 55)
  else None.

(** The character denoted by a one-letter escape. *)
Definition unescape (e : Z) : option Z :=
  if e =? 34 then Some 34
  else if e =? 92 then Some 92
  else if e =? 47 then Some 47
  else if e =? 98 then Some 8
  else if e =? 102 then Some 12
  else if e =? 110 then Some 10
  else if e =? 114 then Some 13
  else if e =? 116 then Some 9
  else None.

Definition cons_char (c : Z) (r : option (jsstring * jsstring))
  : option (jsstring * jsstring) :=
  match r with
  | Some (s, rest) => Some (c :: s, rest)
  | None => None
  end.

(** The characters of a string literal after its opening quote, up to the
    closing quote, and the text that follows. *)
Fixpoint parse_string_chars (s : jsstring) : option (jsstring * jsstring) :=
  match s with
  | [] => None
  | c :: rest =>
      if c =? 34 then Some ([], rest)
      else if c =? 92 then
        match rest with
        | [] => None
        | e :: rest1 =>
            if e =? 117 then
              match rest1 with
              | h1 :: h2 :: h3 :: h4 :: rest2 =>
                  match hex_digit_value h1, hex_digit_value h2,
                        hex_digit_value h3, hex_digit_value h4 with
                  | Some a, Some b, Some c', Some d =>
                      cons_char (((a * 16 + b) * 16 + c') * 16 + d)
                                (parse_string_chars rest2)
                  | _, _, _, _ => None
                  end
              | _ => None
              end
            else
              match unescape e with
              | Some c' => cons_char c' (parse_string_chars rest1)
              | None => None
              end
        end
      else if c <? 32 then None
      else cons_char c (parse_string_chars rest)
  end.

Definition is_digit (c : Z) : bool := (48 <=? c) && (c <=? 57).

(** The leading digits of a text, as numbers, and the text after them. *)
Fixpoint span_digits (s : jsstring) : list Z * jsstring :=
  match s with
  | [] => ([], [])
  | c :: rest =>
      if is_digit c
      then ((c - 48) :: fst (span_digits rest), snd (span_digits rest))
      else ([], s)
  end.

Definition digits_value (ds : list Z) : Z :=
  fold_left (fun acc d => acc * 10 + d) ds 0.

Definition nonempty_digits (p : list Z * jsstring) : option (list Z * jsstring) :=
  match fst p with
  | [] => None
  | _ => Some p
  end.

(** The integer part: a single 0, or a non-empty run of digits. *)
Definition parse_int_part (s : jsstring) : option (list Z * jsstring) :=
  match s with
  | c :: rest => if c =? 48 then Some ([0], rest) else nonempty_digits (span_digits s)
  | [] => None
  end.

(** The optional fraction: a point and a non-empty run of digits. *)
Definition parse_fraction (s : jsstring) : option (list Z * jsstring) :=
  match s with
  | c :: rest =>
      if c =? 46 then nonempty_digits (span_digits rest) else Some ([], s)
  | [] => Some ([], s)
  end.

(** The optional exponent: e or E, an optional sign, a non-empty run of
    digits. *)
Definition parse_exponent (s : jsstring) : option (Z * jsstring) :=
  match s with
  | c :: rest =>
      if (c =? 101) || (c =? 69) then
        let '(negative, rest) :=
          match rest with
          | sg :: rest' =>
              if sg =? 45 then (true, rest')
              else if sg =? 43 then (false, rest')
              else (false, rest)
          | [] => (false, rest)
          end in
        match nonempty_digits (span_digits rest) with
        | Some (ds, rest) =>
            Some (if negative then - digits_value ds else digits_value ds, rest)
        | None => None
        end
      else Some (0, s)
  | [] => Some (0, s)
  end.

Definition parse_number (s : jsstring) : option (JSValue * jsstring) :=
  let '(negative, s) :=
    match s with
    | c :: rest => if c =? 45 then (true, rest) else (false, s)
    | [] => (false, s)
    end in
  match parse_int_part s with
  | None => None
  | Some (int_part, s) =>
      match parse_fraction s with
      | None => None
      | Some (fraction, s) =>
          match parse_exponent s with
          | None => None
          | Some (exponent, s) =>
              let digits := digits_value (int_part ++ fraction) in
              Some (JNumber (if negative then - digits else digits)
                            (exponent - Z.of_nat (List.length fraction)), s)
          end
      end
  end.

(** The text after the prefix [p], when the text starts with [p]. *)
Fixpoint strip_prefix (p s : jsstring) : option jsstring :=
  match p, s with
  | [], _ => Some s
  | x :: p', y :: s' => if x =? y then strip_prefix p' s' else None
  | _ :: _, [] => None
  end.

Definition parse_literal (s : jsstring) : option (JSValue * jsstring) :=
  match strip_prefix (str "true") s with
  | Some rest => Some (JBool true, rest)
  | None =>
      match strip_prefix (str "false") s with
      | Some rest => Some (JBool false, rest)
      | None =>
          match strip_prefix (str "null") s with
          | Some rest => Some (JNull, rest)
          | None => parse_number s
          end
      end
  end.

(** Recursive descent; a character is consumed before every recursive
    call, so a fuel above the length of the text is never exhausted.
    [parse_value] and [parse_members] are given a text that starts at a
    token; [parse_more_elements] reads what follows an element of an
    array. *)
Fixpoint parse_value (fuel : nat) (s : jsstring) : option (JSValue * jsstring) :=
  match fuel with
  | O => None
  | S fuel =>
      match s with
      | [] => None
      | c :: rest =>
          if c =? 34 then
            match parse_string_chars rest with
            | Some (chars, rest) => Some (JString chars, rest)
            | None => None
            end
          else if c =? 123 then
            match skip_whitespace rest with
            | d :: rest' =>
                if d =? 125 then Some (JObject [], rest')
                else match parse_members fuel (d :: rest') with
                     | Some (members, rest) => Some (JObject members, rest)
                     | None => None
                     end
            | [] => None
            end
          else if c =? 91 then
            match skip_whitespace rest with
            | d :: rest' =>
                if d =? 93 then Some (JArray [], rest')
                else match parse_value fuel (d :: rest') with
                     | Some (first, rest) =>
                         match parse_more_elements fuel rest with
                         | Some (more, rest) => Some (JArray (first :: more), rest)
                         | None => None
                         end
                     | None => None
                     end
            | [] => None
            end
          else parse_literal s
      end
  end

with parse_members (fuel : nat) (s : jsstring)
  : option (list (jsstring * JSValue) * jsstring) :=
  match fuel with
  | O => None
  | S fuel =>
      match s with
      | [] => None
      | c :: rest =>
          if c =? 34 then
            match parse_string_chars rest with
            | None => None
            | Some (key, rest) =>
                match skip_whitespace rest with
                | [] => None
                | colon :: rest =>
                    if colon =? 58 then
                      match parse_value fuel (skip_whitespace rest) with
                      | None => None
                      | Some (value, rest) =>
                          match skip_whitespace rest with
                          | [] => None
                          | d :: rest =>
                              if d =? 125 then Some ([(key, value)], rest)
                              else if d =? 44 then
                                match parse_members fuel (skip_whitespace rest) with
                                | Some (members, rest) =>
                                    Some ((key, value) :: members, rest)
                                | None => None
                                end
                              else None
                          end
                      end
                    else None
                end
            end
          else None
      end
  end

with parse_more_elements (fuel : nat) (s : jsstring)
  : option (list JSValue * jsstring) :=
  match fuel with
  | O => None
  | S fuel =>
      match skip_whitespace s with
      | [] => None
      | d :: rest =>
          if d =? 93 then Some ([], rest)
          else if d =? 44 then
            match parse_value fuel (skip_whitespace rest) with
            | None => None
            | Some (value, rest) =>
                match parse_more_elements fuel rest with
                | Some (elements, rest) => Some (value :: elements, rest)
                | None => None
                end
            end
          else None
      end
  end.

(** [JSON.parse(text)] *)
Definition parse (text : jsstring) : completion JSValue :=
  match parse_value (S (List.length text)) (skip_whitespace text) with
  | Some (value, rest) =>
      match skip_whitespace rest with
      | [] => Return value
      | _ :: _ => Throw SyntaxError
      end
  | None => Throw SyntaxError
  end.

(** *** Serialising *)

Definition hex_digit (v : Z) : Z := if v <? 10 then 48 + v else 87 + v.

(** [\uXXXX], with lower-case digits. *)
Definition UnicodeEscape (c : Z) : jsstring :=
  [92; 117; hex_digit (c / 4096); hex_digit ((c / 256) mod 16);
   hex_digit ((c / 16) mod 16); hex_digit (c mod 16)].

(** The text that stands for one code point inside a string literal
    (ECMAScript 2019: a lone surrogate is written as an escape). *)
Definition quote_code_point (cp : Z) : jsstring :=
  if cp =? 8 then [92; 98]
  else if cp =? 9 then [92; 116]
  else if cp =? 10 then [92; 110]
  else if cp =? 12 then [92; 102]
  else if cp =? 13 then [92; 114]
  else if cp =? 34 then [92; 34]
  else if cp =? 92 then [92; 92]
  else if (cp <? 32) || Utf8.is_surrogate cp then UnicodeEscape cp
  else Utf8.UTF16EncodeCodePoint cp.

Definition QuoteJSONString (s : jsstring) : jsstring :=
  [34] ++ flat_map quote_code_point (Utf8.StringToCodePoints s) ++ [34].

(** The decimal digits of a non-negative integer. *)
Fixpoint decimal_digits (fuel : nat) (n : Z) (acc : jsstring) : jsstring :=
  match fuel with
  | O => acc
  | S fuel =>
      if n <? 10 then (48 + n) :: acc
      else decimal_digits fuel (n / 10) ((48 + n mod 10) :: acc)
  end.

Definition decimal (n : Z) : jsstring :=
  decimal_digits (S (Z.to_nat (Z.log2 n))) n [].

(** The integer [m * 10^e], when it is one. *)
Definition integer_value (m e : Z) : option Z :=
  if 0 <=? e then Some (m * 10 ^ e)
  else if m mod 10 ^ (- e) =? 0 then Some (m / 10 ^ (- e))
  else None.

(** The double nearest to [m * 10^e] is an infinity. *)
Definition rounds_to_infinity (m e : Z) : bool :=
  if 0 <=? e then 2 ^ 1024 - 2 ^ 970 <=? Z.abs m * 10 ^ e
  else (2 ^ 1024 - 2 ^ 970) * 10 ^ (- e) <=? Z.abs m.

(** The double nearest to [m * 10^e] is a zero. *)
Definition rounds_to_zero (m e : Z) : bool :=
  if 0 <=? e then m =? 0
  else Z.abs m * 2 ^ 1075 <=? 10 ^ (- e).

Section Serialise.
Context {P : Platform}.

(** [Number::toString]: integers below 2^53 are written with their decimal
    digits. *)
Definition Number_toString (m e : Z) : jsstring :=
  if rounds_to_infinity m e
  then (if m <? 0 then str "-Infinity" else str "Infinity")
  else match integer_value m e with
       | Some v =>
           if Z.abs v <? 2 ^ 53
           then (if v <? 0 then [45] else []) ++ decimal (Z.abs v)
           else Number_toString_general m e
       | None => Number_toString_general m e
       end.

Fixpoint join (separator : jsstring) (parts : list jsstring) : jsstring :=
  match parts with
  | [] => []
  | [p] => p
  | p :: rest => p ++ separator ++ join separator rest
  end.

Definition newline : jsstring := [10].

(** [SerializeJSONProperty] with the gap [gap] at the indentation
    [indent]. *)
Fixpoint serialize (gap indent : jsstring) (value : JSValue) : jsstring :=
  match value with
  | JNull => str "null"
  | JBool true => str "true"
  | JBool false => str "false"
  | JNumber m e =>
      if rounds_to_infinity m e then str "null" else Number_toString m e
  | JString s => QuoteJSONString s
  | JArray elements =>
      let stepback := indent in
      let indent := indent ++ gap in
      let partial := map (serialize gap indent) elements in
      match partial with
      | [] => str "[]"
      | _ =>
          match gap with
          | [] => [91] ++ join [44] partial ++ [93]
          | _ =>
              [91] ++ newline ++ indent
                ++ join ([44] ++ newline ++ indent) partial
                ++ newline ++ stepback ++ [93]
          end
      end
  | JObject members =>
      let stepback := indent in
      let indent := indent ++ gap in
      let partial :=
        map (fun kv => QuoteJSONString (fst kv) ++ [58]
                         ++ match gap with [] => [] | _ => [32] end
                         ++ serialize gap indent (snd kv))
            members in
      match partial with
      | [] => str "{}"
      | _ =>
          match gap with
          | [] => [123] ++ join [44] partial ++ [125]
          | _ =>
              [123] ++ newline ++ indent
                ++ join ([44] ++ newline ++ indent) partial
                ++ newline ++ stepback ++ [125]
          end
      end
  end.

(** [JSON.stringify(value)] *)
Definition stringify (value : JSValue) : jsstring := serialize [] [] value.

(** [JSON.stringify(value, null, 2)] *)
Definition stringify_indented (value : JSValue) : jsstring :=
  serialize (str "  ") [] value.

(** *** Reading the parsed values *)

(** [ToBoolean]: [None] is [undefined]. *)
Definition ToBoolean (v : option JSValue) : bool :=
  match v with
  | None => false
  | Some JNull => false
  | Some (JBool b) => b
  | Some (JNumber m e) => negb (rounds_to_zero m e)
  | Some (JString s) => match s with [] => false | _ => true end
  | Some (JArray _) => true
  | Some (JObject _) => true
  end.

(** The value of the last member named [key]. *)
Fixpoint lookup (key : jsstring) (members : list (jsstring * JSValue))
  : option JSValue :=
  match members with
  | [] => None
  | (k, v) :: rest =>
      match lookup key rest with
      | Some v' => Some v'
      | None => if jsstring_eqb k key then Some v else None
      end
  end.

(** [value.key] for the keys this program reads ([version], [items],
    [encrypted], [salt], [iv]), none of which is inherited or is a property
    of strings and arrays: a member of an object, [undefined] on the other
    values, a [TypeError] on [null]. *)
Definition property (value : JSValue) (key : jsstring) : option JSValue :=
  match value with
  | JObject members => lookup key members
  | _ => None
  end.

Definition Get (value : JSValue) (key : jsstring) : completion (option JSValue) :=
  match value with
  | JNull => Throw TypeError
  | _ => Return (property value key)
  end.

(** [ToString], the conversion [atob] applies to its argument.  An array
    is the join of its elements, [null] elements being empty; an object is
    [[object Object]] unless a member hides [toString], in which case the
    conversion throws. *)
Fixpoint ToString_value (v : JSValue) : completion jsstring :=
  match v with
  | JNull => Return (str "null")
  | JBool true => Return (str "true")
  | JBool false => Return (str "false")
  | JNumber m e => Return (Number_toString m e)
  | JString s => Return s
  | JArray elements =>
      parts <- map_all (fun x => match x with
                                   | JNull => Return []
                                   | _ => ToString_value x
                                   end) elements ;;
      Return (join [44] parts)
  | JObject members =>
      match lookup (str "toString") members with
      | Some _ => Throw TypeError
      | None => Return (str "[object Object]")
      end
  end.

Definition ToString (v : option JSValue) : completion jsstring :=
  match v with
  | None => Return (str "undefined")
  | Some v => ToString_value v
  end.

End Serialise.

End JSON.


(** ** The vault ([encryptVaultItem], [decryptVaultItem], [exportVaultData],
    [importVaultData]) *)

Module Vault.
Import JSON.

Record EncryptedData := {
  encrypted : jsstring;
  salt : jsstring;
  iv : jsstring
}.

Record VaultItem := {
  title : jsstring;
  username : jsstring;
  password : jsstring;
  url : jsstring;
  notes : jsstring
}.

(** The JavaScript objects that the two interfaces describe. *)
Definition VaultItem_object (data : VaultItem) : JSValue :=
  JObject [(str "title", JString (title data));
           (str "username", JString (username data));
           (str "password", JString (password data));
           (str "url", JString (url data));
           (str "notes", JString (notes data))].

Definition EncryptedData_object (data : EncryptedData) : JSValue :=
  JObject [(str "encrypted", JString (encrypted data));
           (str "salt", JString (salt data));
           (str "iv", JString (iv data))].

(** The secure random source: an unbounded supply of bytes, consumed from
    the front. *)
Definition RandomSource := nat -> byte.

(** [crypto.getRandomValues(new Uint8Array(n))] for an array within the
    quota of 65536 bytes, as the arrays of the cipher are (16 and 12
    bytes). *)
Definition getRandomValues (n : nat) (rng : RandomSource)
  : list byte * RandomSource :=
  (map rng (seq 0 n), fun i => rng (n + i)%nat).

(** The loop of [arrayBufferToBase64]: [binary] receives the characters of
    the bytes, one chunk at a time. *)
Fixpoint binary_loop (fuel chunkSize : nat) (bytes : list byte) (i : nat)
                     (binary : jsstring) : jsstring :=
  match fuel with
  | O => binary
  | S fuel =>
      if (i <? List.length bytes)%nat then
        let chunk := firstn chunkSize (skipn i bytes) in
        binary_loop fuel chunkSize bytes (i + chunkSize)
                    (binary ++ map byte_to_Z chunk)
      else binary
  end.

Definition arrayBufferToBase64 (buffer : list byte) : completion jsstring :=
  let bytes := buffer in
  let chunkSize := Z.to_nat 0x8000 in
  let binary := binary_loop (List.length bytes) chunkSize bytes 0 [] in
  Base64.btoa binary.

Definition base64ToArrayBuffer (base64 : jsstring) : completion (list byte) :=
  binary <- Base64.atob base64 ;;
  Return (map byte_of_Z binary).

Section WithPlatform.
Context {P : Platform}.

Definition deriveKey (masterPassword : jsstring) (salt : list byte) : CryptoKey :=
  PBKDF2_SHA256 (Utf8.encode masterPassword) salt 100000.

(** The plaintext codec of a record: [encoder.encode(JSON.stringify(data))]
    in [encryptVaultItem] and [JSON.parse(decoder.decode(decrypted))] in
    [decryptVaultItem]. *)
Definition serializeRecord (data : VaultItem) : list byte :=
  Utf8.encode (stringify (VaultItem_object data)).

Definition deserializeRecord (decrypted : list byte) : completion JSValue :=
  parse (Utf8.decode decrypted).

Definition encryptVaultItem (data : VaultItem) (masterPassword : jsstring)
                            (rng : RandomSource)
  : completion EncryptedData * RandomSource :=
  let '(salt, rng) := getRandomValues 16 rng in
  let '(iv, rng) := getRandomValues 12 rng in
  let key := deriveKey masterPassword salt in
  let encrypted := AES_GCM_encrypt key iv (serializeRecord data) in
  (e <- arrayBufferToBase64 encrypted ;;
   s <- arrayBufferToBase64 salt ;;
   i <- arrayBufferToBase64 iv ;;
   Return {| encrypted := e; salt := s; iv := i |},
   rng).

(** The argument is the object found at run time; its fields are converted
    to strings by [atob]. *)
Definition decryptVaultItem (encryptedData : JSValue) (masterPassword : jsstring)
  : completion JSValue :=
  salt_field <- Get encryptedData (str "salt") ;;
  salt_text <- ToString salt_field ;;
  salt <- base64ToArrayBuffer salt_text ;;
  iv_field <- Get encryptedData (str "iv") ;;
  iv_text <- ToString iv_field ;;
  iv <- base64ToArrayBuffer iv_text ;;
  encrypted_field <- Get encryptedData (str "encrypted") ;;
  encrypted_text <- ToString encrypted_field ;;
  encrypted <- base64ToArrayBuffer encrypted_text ;;
  let key := deriveKey masterPassword salt in
  match AES_GCM_decrypt key iv encrypted with
  | None => Throw OperationError
  | Some decrypted => deserializeRecord decrypted
  end.

(** [items.map(item => encryptVaultItem(item, masterPassword))]: the calls
    draw their salt and nonce in the order of the items. *)
Fixpoint encrypt_items (items : list VaultItem) (masterPassword : jsstring)
                       (rng : RandomSource)
  : list (completion EncryptedData) * RandomSource :=
  match items with
  | [] => ([], rng)
  | item :: rest =>
      let '(blob, rng) := encryptVaultItem item masterPassword rng in
      let '(blobs, rng) := encrypt_items rest masterPassword rng in
      (blob :: blobs, rng)
  end.

(** [now] is [new Date().toISOString()]. *)
Definition exportVaultData (items : list VaultItem) (masterPassword : jsstring)
                           (now : jsstring) (rng : RandomSource)
  : completion jsstring * RandomSource :=
  let '(promises, rng) := encrypt_items items masterPassword rng in
  (blobs <- map_all (fun p => p) promises ;;
   let exportData :=
     JObject [(str "version", JNumber 1 0);
              (str "timestamp", JString now);
              (str "items", JArray (map EncryptedData_object blobs))] in
   Return (stringify_indented exportData),
   rng).

Definition invalid_format : exn := Error (str "Invalid export file format").

Definition import_failed : exn :=
  Error (str "Failed to import vault data. Check your master password.").

(** The body of the [try] block.  Reading a property of [data] has no
    effect, so the short-circuit of [||] is not visible and both properties
    are read before the test. *)
Definition importVaultData_try (exportedData masterPassword : jsstring)
  : completion (list JSValue) :=
  data <- parse exportedData ;;
  version <- Get data (str "version") ;;
  items <- Get data (str "items") ;;
  if negb (ToBoolean version) || negb (ToBoolean items)
  then Throw invalid_format
  else
    match items with
    | Some (JArray elements) =>
        map_all (fun encryptedItem => decryptVaultItem encryptedItem masterPassword)
                elements
    | _ => Throw TypeError
    end.

(** The [catch] replaces every exception by one error. *)
Definition importVaultData (exportedData masterPassword : jsstring)
  : completion (list JSValue) :=
  match importVaultData_try exportedData masterPassword with
  | Return items => Return items
  | Throw _ => Throw import_failed
  end.

End WithPlatform.

(** A small instance of the platform, used to run the functions and to
    show that the law of the cipher can be met: the key is the password
    followed by the salt, and a ciphertext is the key and the nonce followed
    by the plaintext. *)
Fixpoint strip_bytes (p s : list byte) : option (list byte) :=
  match p, s with
  | [], _ => Some s
  | x :: p', y :: s' => if Byte.eqb x y then strip_bytes p' s' else None
  | _ :: _, [] => None
  end.

Definition model_platform : Platform :=
  {| CryptoKey := list byte;
     PBKDF2_SHA256 := fun password salt _ => password ++ salt;
     AES_GCM_encrypt := fun key iv plaintext => key ++ iv ++ plaintext;
     AES_GCM_decrypt := fun key iv ciphertext => strip_bytes (key ++ iv) ciphertext;
     Number_toString_general := fun _ _ => [] |}.

End Vault.

(** ** Auxiliary definitions of the proofs *)

(** The sextets of a byte sequence, before they are written with the
    base64 alphabet, and the padding that follows them. *)
Fixpoint sextets_of (bs : list Z) : list Z :=
  match bs with
  | [] => []
  | [a] => [a / 4; (a mod 4) * 16]
  | [a; b] => [a / 4; (a mod 4) * 16 + b / 16; (b mod 16) * 4]
  | a :: b :: c :: rest =>
      a / 4 :: (a mod 4) * 16 + b / 16 :: (b mod 16) * 4 + c / 64 :: c mod 64
        :: sextets_of rest
  end.

Fixpoint padding_of (bs : list Z) : jsstring :=
  match bs with
  | [] => []
  | [_] => [Base64.pad; Base64.pad]
  | [_; _] => [Base64.pad]
  | _ :: _ :: _ :: rest => padding_of rest
  end.

Definition is_byte (z : Z) : Prop := 0 <= z < 256.
Definition is_sextet (z : Z) : Prop := 0 <= z < 64.

Definition ascii_text (s : jsstring) : Prop := Forall (fun c => 0 <= c < 128) s.

(** A Unicode scalar value: a code point that is not a surrogate. *)
Definition scalar_value (cp : Z) : Prop :=
  0 <= cp < 0x110000 /\ Utf8.is_surrogate cp = false.

(** A string without lone surrogates is the UTF-16 form of a sequence of
    scalar values. *)
Definition well_formed (s : jsstring) : Prop :=
  exists cps, Forall scalar_value cps /\ s = Utf8.CodePointsToString cps.

(** The values whose serialisation is read back by the parser as the same
    term: numbers are non-negative integers below 2^53, strings are
    sequences of 16-bit code units. *)
Inductive printable : JSON.JSValue -> Prop :=
| printable_null : printable JSON.JNull
| printable_bool (b : bool) : printable (JSON.JBool b)
| printable_number (m : Z) : 0 <= m < 2 ^ 53 -> printable (JSON.JNumber m 0)
| printable_string (s : jsstring) : jsstring_ok s -> printable (JSON.JString s)
| printable_array (l : list JSON.JSValue) :
    Forall printable l -> printable (JSON.JArray l)
| printable_object (ms : list (jsstring * JSON.JSValue)) :
    Forall (fun kv => jsstring_ok (fst kv) /\ printable (snd kv)) ms ->
    printable (JSON.JObject ms).

Definition whitespace_text (w : jsstring) : Prop :=
  Forall (fun c => JSON.is_whitespace c = true) w.

(** A text that starts with the first character of a value. *)
Definition starts_value (s : jsstring) : Prop :=
  exists c r, s = c :: r /\ JSON.is_whitespace c = false /\
              c <> 93 /\ c <> 125 /\ c <> 44 /\ c < 128.

(** What may follow a value: nothing, white space, a comma or a closing
    bracket. *)
Definition delimited (rest : jsstring) : Prop :=
  match rest with
  | [] => True
  | c :: _ => JSON.is_whitespace c = true \/ c = 44 \/ c = 93 \/ c = 125
  end.

(** A text that cannot continue a number. *)
Definition not_number_char (rest : jsstring) : Prop :=
  match rest with
  | [] => True
  | c :: _ => JSON.is_digit c = false /\ c <> 46 /\ c <> 101 /\ c <> 69
  end.

(** The white space the serialiser writes after an opening bracket or a
    comma, before a closing bracket, and after a colon. *)
Definition open_ws (gap indent : jsstring) : jsstring :=
  match gap with
  | [] => []
  | _ => JSON.newline ++ indent ++ gap
  end.

Definition close_ws (gap indent : jsstring) : jsstring :=
  match gap with
  | [] => []
  | _ => JSON.newline ++ indent
  end.

Definition colon_ws (gap : jsstring) : jsstring :=
  match gap with
  | [] => []
  | _ => [32]
  end.

(** What follows the first part of a joined list: the other parts, each
    after a separator, then the closing text. *)
Fixpoint separated (separator closing : jsstring) (parts : list jsstring)
  : jsstring :=
  match parts with
  | [] => closing
  | p :: ps => separator ++ p ++ separated separator closing ps
  end.

(** The parser, given more fuel than the text is long, reads a value back
    from its serialisation, whatever the indentation and the text that
    follows. *)
Definition reads_back {P : Platform} (v : JSON.JSValue) : Prop :=
  forall gap indent rest fuel,
    whitespace_text gap -> whitespace_text indent -> delimited rest ->
    (List.length (JSON.serialize gap indent v ++ rest) < fuel)%nat ->
    JSON.parse_value fuel (JSON.serialize gap indent v ++ rest) = Some (v, rest).

(** The text of one member of an object. *)
Definition member_text {P : Platform} (gap indent : jsstring)
                       (kv : jsstring * JSON.JSValue) : jsstring :=
  JSON.QuoteJSONString (fst kv) ++ 58 :: colon_ws gap
    ++ JSON.serialize gap indent (snd kv).

(** The fields of a record are JavaScript strings. *)
Definition VaultItem_ok (data : Vault.VaultItem) : Prop :=
  jsstring_ok (Vault.title data) /\ jsstring_ok (Vault.username data) /\
  jsstring_ok (Vault.password data) /\ jsstring_ok (Vault.url data) /\
  jsstring_ok (Vault.notes data).

(** The code units of a literal of JSON text written with apostrophes in
    place of the double quotes. *)
Definition json_literal (s : string) : jsstring :=
  map (fun c => if c =? 39 then 34 else c) (str s).

(** The record of the end-to-end scenario, and a fixed random source. *)
Definition bank_record : Vault.VaultItem :=
  {| Vault.title := str "Bank";
     Vault.username := str "alice";
     Vault.password := str "Tr0ub4dor&3xyz!";
     Vault.url := str "bank.example.com";
     Vault.notes := [] |}.

Definition counting_source : Vault.RandomSource :=
  fun i => byte_of_Z (Z.of_nat i).

(** The exceptions raised by the platform, as opposed to the [Error]
    objects the program creates. *)
Definition platform_exn (e : exn) : Prop :=
  match e with
  | Error _ => False
  | _ => True
  end.

(** The container written by [exportVaultData]. *)
Definition container (now : jsstring) (blobs : list Vault.EncryptedData)
  : JSON.JSValue :=
  JSON.JObject [(str "version", JSON.JNumber 1 0);
                (str "timestamp", JSON.JString now);
                (str "items", JSON.JArray (map Vault.EncryptedData_object blobs))].

(** ** The grammar of JSON texts

    The grammar of ECMA-404, as relations between a text and the value it
    denotes.  It is stated apart from the parser and uses none of its
    functions; the parser is proved sound and complete for it. *)

Module Grammar.
Import JSON.

(** White space: space, horizontal tab, line feed, carriage return. *)
Definition ws (c : Z) : Prop := c = 32 \/ c = 9 \/ c = 10 \/ c = 13.

Definition whitespace (w : jsstring) : Prop := Forall ws w.

Definition digits (ds : list Z) : Prop := Forall (fun d => 0 <= d <= 9) ds.

Definition digit_text (ds : list Z) : jsstring := map (Z.add 48) ds.

(** The number written with the decimal digits [ds]. *)
Fixpoint decimal_value (ds : list Z) : Z :=
  match ds with
  | [] => 0
  | d :: rest => d * 10 ^ Z.of_nat (List.length rest) + decimal_value rest
  end.

(** The one-letter escapes: the letter after the reverse solidus and the
    character denoted. *)
Inductive escape : Z -> Z -> Prop :=
| escape_quotation_mark : escape 34 34
| escape_reverse_solidus : escape 92 92
| escape_solidus : escape 47 47
| escape_backspace : escape 98 8
| escape_form_feed : escape 102 12
| escape_line_feed : escape 110 10
| escape_carriage_return : escape 114 13
| escape_tab : escape 116 9.

(** A hexadecimal digit, of either case, and its value. *)
Inductive hex : Z -> Z -> Prop :=
| hex_decimal (c : Z) : 48 <= c <= 57 -> hex c (c - 48)
| hex_upper (c : Z) : 65 <= c <= 70 -> hex c (c - 55)
| hex_lower (c : Z) : 97 <= c <= 102 -> hex c (c - 87).

(** The characters between the quotes of a string literal, and the string
    they denote. *)
Inductive string_chars : jsstring -> jsstring -> Prop :=
| chars_end : string_chars [] []
| chars_plain (c : Z) (t s : jsstring) :
    32 <= c -> c <> 34 -> c <> 92 ->
    string_chars t s -> string_chars (c :: t) (c :: s)
| chars_escape (e c : Z) (t s : jsstring) :
    escape e c ->
    string_chars t s -> string_chars (92 :: e :: t) (c :: s)
| chars_unicode (h1 h2 h3 h4 a b c d : Z) (t s : jsstring) :
    hex h1 a -> hex h2 b -> hex h3 c -> hex h4 d ->
    string_chars t s ->
    string_chars (92 :: 117 :: h1 :: h2 :: h3 :: h4 :: t)
                 ((((a * 16 + b) * 16 + c) * 16 + d) :: s).

Inductive int_literal : list Z -> Prop :=
| int_zero : int_literal [0]
| int_nonzero (d : Z) (ds : list Z) :
    1 <= d <= 9 -> digits ds -> int_literal (d :: ds).

Inductive frac_literal : jsstring -> list Z -> Prop :=
| frac_none : frac_literal [] []
| frac_some (d : Z) (ds : list Z) :
    digits (d :: ds) -> frac_literal (46 :: digit_text (d :: ds)) (d :: ds).

Inductive sign_literal : jsstring -> bool -> Prop :=
| sign_none : sign_literal [] false
| sign_plus : sign_literal [43] false
| sign_minus : sign_literal [45] true.

Inductive exp_literal : jsstring -> Z -> Prop :=
| exp_none : exp_literal [] 0
| exp_some (marker : Z) (st : jsstring) (negative : bool) (d : Z) (ds : list Z) :
    marker = 101 \/ marker = 69 -> sign_literal st negative ->
    digits (d :: ds) ->
    exp_literal (marker :: st ++ digit_text (d :: ds))
                (if negative then - decimal_value (d :: ds)
                 else decimal_value (d :: ds)).

(** A number literal, the integer made of its digits and its decimal
    exponent. *)
Inductive number_literal : jsstring -> Z -> Z -> Prop :=
| number_lit (negative : bool) (int_part : list Z) (ft : jsstring)
             (frac : list Z) (et : jsstring) (exponent : Z) :
    int_literal int_part -> frac_literal ft frac -> exp_literal et exponent ->
    number_literal
      ((if negative then [45] else []) ++ digit_text int_part ++ ft ++ et)
      (if negative then - decimal_value (int_part ++ frac)
       else decimal_value (int_part ++ frac))
      (exponent - Z.of_nat (List.length frac)).

(** A value; the elements that follow the first element of an array, up to
    the closing bracket; the members of an object, up to the closing
    brace. *)
Inductive json_value : jsstring -> JSValue -> Prop :=
| value_null : json_value (str "null") JNull
| value_true : json_value (str "true") (JBool true)
| value_false : json_value (str "false") (JBool false)
| value_number (t : jsstring) (m e : Z) :
    number_literal t m e -> json_value t (JNumber m e)
| value_string (t s : jsstring) :
    string_chars t s -> json_value (34 :: t ++ [34]) (JString s)
| value_array_empty (w : jsstring) :
    whitespace w -> json_value (91 :: w ++ [93]) (JArray [])
| value_array (w t tail : jsstring) (v : JSValue) (l : list JSValue) :
    whitespace w -> json_value t v -> json_more tail l ->
    json_value (91 :: w ++ t ++ tail ++ [93]) (JArray (v :: l))
| value_object_empty (w : jsstring) :
    whitespace w -> json_value (123 :: w ++ [125]) (JObject [])
| value_object (w t : jsstring) (ms : list (jsstring * JSValue)) :
    whitespace w -> json_members t ms ->
    json_value (123 :: w ++ t ++ [125]) (JObject ms)

with json_more : jsstring -> list JSValue -> Prop :=
| more_end (w : jsstring) : whitespace w -> json_more w []
| more_element (w1 w2 t tail : jsstring) (v : JSValue) (l : list JSValue) :
    whitespace w1 -> whitespace w2 ->
    json_value t v -> json_more tail l ->
    json_more (w1 ++ 44 :: w2 ++ t ++ tail) (v :: l)

with json_members : jsstring -> list (jsstring * JSValue) -> Prop :=
| members_last (kt k w1 w2 t w3 : jsstring) (v : JSValue) :
    string_chars kt k -> whitespace w1 -> whitespace w2 ->
    json_value t v -> whitespace w3 ->
    json_members (34 :: kt ++ 34 :: w1 ++ 58 :: w2 ++ t ++ w3) [(k, v)]
| members_more (kt k w1 w2 t w3 w4 rest : jsstring) (v : JSValue)
               (ms : list (jsstring * JSValue)) :
    string_chars kt k -> whitespace w1 -> whitespace w2 ->
    json_value t v -> whitespace w3 -> whitespace w4 ->
    json_members rest ms ->
    json_members (34 :: kt ++ 34 :: w1 ++ 58 :: w2 ++ t ++ w3 ++ 44 :: w4 ++ rest)
                 ((k, v) :: ms).

Scheme json_value_ind3 := Minimality for json_value Sort Prop
  with json_more_ind3 := Minimality for json_more Sort Prop
  with json_members_ind3 := Minimality for json_members Sort Prop.

Combined Scheme json_mutual_ind
  from json_value_ind3, json_more_ind3, json_members_ind3.

(** A JSON text: a value between optional white space. *)
Definition json_text (text : jsstring) (v : JSValue) : Prop :=
  exists w1 t w2,
    whitespace w1 /\ json_value t v /\ whitespace w2 /\
    text = w1 ++ t ++ w2.

End Grammar.

(** ** Validation of the master password ([validatePasswordStrength]) *)

Module Validation.
Import Strength.

Record ValidationResult := {
  isValid : bool;
  errors : list jsstring
}.

(** The five rules, in the order of the source; [errors.push] appends. *)
Definition validatePasswordStrength (password : jsstring) : ValidationResult :=
  let errors : list jsstring := [] in
  let errors :=
    if (List.length password <? 12)%nat
    then errors ++ [str "Password must be at least 12 characters long"]
    else errors in
  let errors :=
    if negb (test_lower password)
    then errors ++ [str "Password must contain lowercase letters"]
    else errors in
  let errors :=
    if negb (test_upper password)
    then errors ++ [str "Password must contain uppercase letters"]
    else errors in
  let errors :=
    if negb (test_digit password)
    then errors ++ [str "Password must contain numbers"]
    else errors in
  let errors :=
    if negb (test_other password)
    then errors ++ [str "Password must contain special characters"]
    else errors in
  {| isValid := (List.length errors =? 0)%nat; errors := errors |}.

End Validation.

(** ** The sign-up form ([frontend/src/app/signup/page.tsx]) *)

Module Signup.
Import Strength.

Record PasswordStrength := {
  hasLength : bool;
  hasLower : bool;
  hasUpper : bool;
  hasNumber : bool;
  hasSpecial : bool
}.

Definition passwordStrength (password : jsstring) : PasswordStrength :=
  {| hasLength := (12 <=? List.length password)%nat;
     hasLower := test_lower password;
     hasUpper := test_upper password;
     hasNumber := test_digit password;
     hasSpecial := test_other password |}.

(** [Object.values(passwordStrength)]: the values in the order of the
    properties. *)
Definition values (s : PasswordStrength) : list bool :=
  [hasLength s; hasLower s; hasUpper s; hasNumber s; hasSpecial s].

(** [Object.values(passwordStrength).every(Boolean)] *)
Definition isPasswordStrong (password : jsstring) : bool :=
  forallb (fun b => b) (values (passwordStrength password)).

(** What [handleSubmit] does after it has cleared the error: it sets an
    error and returns, or it calls [signup]. *)
Inductive SubmitOutcome :=
| SetError (message : jsstring)
| CallSignup (email password : jsstring).

Definition handleSubmit (email password confirmPassword : jsstring)
  : SubmitOutcome :=
  if negb (jsstring_eqb password confirmPassword)
  then SetError (str "Passwords do not match")
  else if negb (isPasswordStrong password)
  then SetError (str "Password does not meet strength requirements")
  else CallSignup email password.

End Signup.

(** ** Random identifiers ([generateSecureId]) and the authentication hash
    ([hashPassword]) *)

Module SecureId.

(** The digits of a non-negative integer in base 16, lower case. *)
Fixpoint hex_digits (fuel : nat) (n : Z) (acc : jsstring) : jsstring :=
  match fuel with
  | O => acc
  | S fuel =>
      if n <? 16 then JSON.hex_digit n :: acc
      else hex_digits fuel (n / 16) (JSON.hex_digit (n mod 16) :: acc)
  end.

(** [n.toString(16)] on a non-negative integer. *)
Definition toString16 (n : Z) : jsstring :=
  hex_digits (S (Z.to_nat (Z.log2 n))) n [].

(** [s.padStart(targetLength, fill)] for a one-character [fill]. *)
Definition padStart (targetLength : nat) (fill : Z) (s : jsstring) : jsstring :=
  repeat fill (targetLength - List.length s) ++ s.

(** [Array.from(array, byte => byte.toString(16).padStart(2, '0')).join('')] *)
Definition hex_of_bytes (array : list byte) : jsstring :=
  JSON.join [] (map (fun byte => padStart 2 48 (toString16 (byte_to_Z byte))) array).

(** [new Uint8Array(length)] is refused with a [RangeError] above
    2^53 - 1 bytes, and [crypto.getRandomValues] refuses an array of more than
    65536 bytes with a [QuotaExceededError]; nothing is drawn then. *)
Definition generateSecureId (length : nat) (rng : Vault.RandomSource)
  : completion jsstring * Vault.RandomSource :=
  if 2 ^ 53 - 1 <? Z.of_nat length then (Throw RangeError, rng)
  else if 65536 <? Z.of_nat length then (Throw QuotaExceededError, rng)
  else
    let '(array, rng) := Vault.getRandomValues length rng in
    (Return (hex_of_bytes array), rng).

(** The call without argument: [length] is 16. *)
Definition generateSecureId_default (rng : Vault.RandomSource)
  : completion jsstring * Vault.RandomSource :=
  generateSecureId 16 rng.

Section Hash.

(** [crypto.subtle.digest('SHA-256', data)], a function of the browser. *)
Variable SHA256 : list byte -> list byte.

Definition hashPassword (password : jsstring) : completion jsstring :=
  let data := Utf8.encode password in
  let hash := SHA256 data in
  Vault.arrayBufferToBase64 hash.

End Hash.

(** The characters of hexadecimal notation. *)
Definition hex_chars : jsstring := str "0123456789abcdef".

End SecureId.

(** The bytes that the random source holds at the positions [start] to
    [start + n - 1]. *)
Definition drawn (rng : Vault.RandomSource) (start n : nat) : list byte :=
  map (fun i => rng (start + i)%nat) (seq 0 n).

(** The bytes that a field of a blob object denotes: the field is
    converted to a string and decoded. *)
Definition field_bytes {P : Platform} (item : JSON.JSValue) (key : jsstring)
  : completion (list byte) :=
  field <- JSON.Get item key ;;
  text <- JSON.ToString field ;;
  Vault.base64ToArrayBuffer text.

(** ** The session of the client ([frontend/src/lib/api.ts],
    [frontend/src/context/AuthContext.tsx])

    [localStorage] is a list of keys with their values; the state of the
    provider is kept with it in one record, with the route of the last
    navigation. *)

Module Session.
Import JSON.

Definition Storage := list (jsstring * jsstring).

(** [null] when the key is absent. *)
Fixpoint getItem (key : jsstring) (storage : Storage) : option jsstring :=
  match storage with
  | [] => None
  | (k, v) :: rest => if jsstring_eqb k key then Some v else getItem key rest
  end.

Definition removeItem (key : jsstring) (storage : Storage) : Storage :=
  filter (fun kv => negb (jsstring_eqb (fst kv) key)) storage.

Definition setItem (key value : jsstring) (storage : Storage) : Storage :=
  (key, value) :: removeItem key storage.

(** The test [if (s)] on a string or [null]. *)
Definition truthy (s : option jsstring) : bool :=
  match s with
  | Some (_ :: _) => true
  | _ => false
  end.

(** The request interceptor of [api.ts], on the [Authorization] header of
    the request ([None]: the header is not set). *)
Definition request_interceptor (window_defined : bool) (localStorage : Storage)
                               (Authorization : option jsstring)
  : option jsstring :=
  if window_defined then
    let token := getItem (str "token") localStorage in
    if truthy token
    then match token with
         | Some token => Some (str "Bearer " ++ token)
         | None => Authorization
         end
    else Authorization
  else Authorization.

Record Client := {
  localStorage : Storage;
  user : option JSValue;
  token : option jsstring;
  masterPassword : option jsstring;
  isLoading : bool;
  route : jsstring
}.

(** The error handler of the response interceptor; [status] is
    [error.response?.status].  The error is rejected again in every case. *)
Definition response_error_interceptor (window_defined : bool) (status : option Z)
                                      (c : Client) : Client :=
  match status with
  | Some 401 =>
      if window_defined then
        {| localStorage :=
             removeItem (str "user") (removeItem (str "token") (localStorage c));
           user := user c; token := token c;
           masterPassword := masterPassword c; isLoading := isLoading c;
           route := str "/login" |}
      else c
  | _ => c
  end.

(** The state of the provider when the page is loaded: the initial values
    of [useState], over the storage the browser has kept. *)
Definition loaded (storage : Storage) (route : jsstring) : Client :=
  {| localStorage := storage; user := None; token := None;
     masterPassword := None; isLoading := true; route := route |}.

Section WithPlatform.
Context {P : Platform}.

(** The effect that runs when the provider is mounted. *)
Definition restore (c : Client) : completion Client :=
  let storedToken := getItem (str "token") (localStorage c) in
  let storedUser := getItem (str "user") (localStorage c) in
  if truthy storedToken && truthy storedUser then
    match storedUser with
    | Some text =>
        parsed <- parse text ;;
        Return {| localStorage := localStorage c; user := Some parsed;
                  token := storedToken; masterPassword := masterPassword c;
                  isLoading := false; route := route c |}
    | None => Return c
    end
  else
    Return {| localStorage := localStorage c; user := user c; token := token c;
              masterPassword := masterPassword c; isLoading := false;
              route := route c |}.

(** [login]: [response] is the outcome of [authAPI.login]: the token and
    the user of [response.data], or a failure with the value of
    [error.response?.data?.message] when it is a string. *)
Definition login (response : (jsstring * JSValue) + option jsstring)
                 (password : jsstring) (c : Client) : completion Client :=
  match response with
  | inl (token, user) =>
      let storage := setItem (str "token") token (localStorage c) in
      let storage := setItem (str "user") (stringify user) storage in
      Return {| localStorage := storage; user := Some user; token := Some token;
                masterPassword := Some password; isLoading := isLoading c;
                route := str "/vault" |}
  | inr message =>
      Throw (Error (if truthy message
                    then match message with Some m => m | None => [] end
                    else str "Login failed"))
  end.

Definition signup (response : (jsstring * JSValue) + option jsstring)
                  (password : jsstring) (c : Client) : completion Client :=
  match response with
  | inl (token, user) =>
      let storage := setItem (str "token") token (localStorage c) in
      let storage := setItem (str "user") (stringify user) storage in
      Return {| localStorage := storage; user := Some user; token := Some token;
                masterPassword := Some password; isLoading := isLoading c;
                route := str "/vault" |}
  | inr message =>
      Throw (Error (if truthy message
                    then match message with Some m => m | None => [] end
                    else str "Signup failed"))
  end.

End WithPlatform.

Definition logout (c : Client) : Client :=
  {| localStorage :=
       removeItem (str "user") (removeItem (str "token") (localStorage c));
     user := None; token := None; masterPassword := None;
     isLoading := isLoading c; route := str "/login" |}.

End Session.

(** ** The guard of the server ([backend/src/middleware/auth.ts]) *)

Module Guard.

(** [s.startsWith(prefix)] *)
Fixpoint startsWith (s prefix : jsstring) : bool :=
  match prefix, s with
  | [], _ => true
  | p :: prefix', c :: s' => (c =? p) && startsWith s' prefix'
  | _ :: _, [] => false
  end.

(** [s.split(separator)] for a one-character separator: the pieces
    between the occurrences of the separator, empty pieces included. *)
Fixpoint split (separator : Z) (s : jsstring) : list jsstring :=
  match s with
  | [] => [[]]
  | c :: rest =>
      if c =? separator then [] :: split separator rest
      else match split separator rest with
           | piece :: pieces => (c :: piece) :: pieces
           | [] => [[c]]
           end
  end.

(** The token read from the [Authorization] header; [None] is
    [undefined]. *)
Definition bearer_token (authorization : option jsstring) : option jsstring :=
  match authorization with
  | Some header =>
      if startsWith header (str "Bearer")
      then nth_error (split 32 header) 1
      else None
  | None => None
  end.

Record JwtPayload := {
  userId : jsstring;
  iat : Z;
  exp : Z
}.

(** The response sent, or the call of [next] with the user attached to the
    request. *)
Inductive Outcome (User : Type) :=
| Respond (status : Z) (message : jsstring)
| Next (user : User).

Arguments Respond {User} status message.
Arguments Next {User} user.

Section Protect.

Variable User : Type.

(** [jwt.verify(token, process.env.JWT_SECRET)]: the payload, or the
    [name] of the error thrown. *)
Variable jwt_verify : jsstring -> JwtPayload + option jsstring.

(** [User.findById(id)]: the user or [null], or the [name] of the error
    thrown. *)
Variable User_findById : jsstring -> option User + option jsstring.

(** The [catch] of the inner [try]. *)
Definition verification_failed (name : option jsstring) : Outcome User :=
  match name with
  | Some n =>
      if jsstring_eqb n (str "TokenExpiredError")
      then Respond 401 (str "Token expired. Please login again.")
      else Respond 401 (str "Not authorized. Invalid token.")
  | None => Respond 401 (str "Not authorized. Invalid token.")
  end.

Definition protect (authorization : option jsstring) : Outcome User :=
  let token := bearer_token authorization in
  if negb (Session.truthy token) then
    Respond 401 (str "Not authorized to access this route. No token provided.")
  else
    match token with
    | Some token =>
        match jwt_verify token with
        | inl decoded =>
            match User_findById (userId decoded) with
            | inl (Some user) => Next user
            | inl None => Respond 401 (str "Not authorized. User not found.")
            | inr name => verification_failed name
            end
        | inr name => verification_failed name
        end
    | None =>
        Respond 401 (str "Not authorized to access this route. No token provided.")
    end.

End Protect.

End Guard.

(** ** The vault page ([frontend/src/app/vault/page.tsx]) *)

Module VaultPage.
Import JSON Vault.

(** An item of the answer of [vaultAPI.getAll]. *)
Record StoredItem := {
  _id : jsstring;
  encryptedData : JSValue
}.

(** The properties with an index as key: the characters of a string, the
    elements of an array. *)
Fixpoint indexed (i : Z) (l : list JSValue) : list (jsstring * JSValue) :=
  match l with
  | [] => []
  | v :: rest => (decimal i, v) :: indexed (i + 1) rest
  end.

(** The own enumerable properties that a spread copies. *)
Definition own_properties (v : JSValue) : list (jsstring * JSValue) :=
  match v with
  | JObject members => members
  | JArray elements => indexed 0 elements
  | JString s => indexed 0 (map (fun c => JString [c]) s)
  | _ => []
  end.

(** [{ ...decrypted, id }]: the member [id] comes last, so it is the one
    that is read. *)
Definition with_id (decrypted : JSValue) (id : jsstring) : JSValue :=
  JObject (own_properties decrypted ++ [(str "id", JString id)]).

(** [masterPassword!] is [masterPassword] at run time: the text encoder
    receives the string, or [null], which it converts to the string
    [null]. *)
Definition string_argument (masterPassword : option jsstring) : jsstring :=
  match masterPassword with
  | Some s => s
  | None => str "null"
  end.

Fixpoint not_null {A : Type} (l : list (option A)) : list A :=
  match l with
  | [] => []
  | Some a :: rest => a :: not_null rest
  | None :: rest => not_null rest
  end.

Record PageState := {
  vaultItems : list JSValue;
  isLoading : bool
}.

Section WithPlatform.
Context {P : Platform}.

(** The function mapped over the items: a failure is logged and gives
    [null]. *)
Definition decrypt_stored (masterPassword : option jsstring) (item : StoredItem)
  : option JSValue :=
  match decryptVaultItem (encryptedData item) (string_argument masterPassword) with
  | Return decrypted => Some (with_id decrypted (_id item))
  | Throw _ => None
  end.

(** [response] is the outcome of [vaultAPI.getAll]: the items, or a
    failure, which is logged. *)
Definition fetchVaultItems (response : completion (list StoredItem))
                           (masterPassword : option jsstring)
                           (state : PageState) : PageState :=
  match response with
  | Return items =>
      let decryptedItems := map (decrypt_stored masterPassword) items in
      {| vaultItems := not_null decryptedItems; isLoading := false |}
  | Throw _ => {| vaultItems := vaultItems state; isLoading := false |}
  end.

(** [handleAddItem] up to the call of [vaultAPI.create]: the body of the
    request, or the failure that is reported by the alert. *)
Definition handleAddItem (item : VaultItem) (masterPassword : option jsstring)
                         (rng : RandomSource)
  : completion JSValue * RandomSource :=
  let '(encrypted, rng) :=
    encryptVaultItem item (string_argument masterPassword) rng in
  (encrypted <- encrypted ;;
   Return (JObject [(str "encryptedData", EncryptedData_object encrypted)]),
   rng).

End WithPlatform.

End VaultPage.

(** ** The handlers of the server ([backend/src/controllers/vaultController.ts])

    The store of the vault items is a parameter of the handlers. *)

Module Controller.
Import JSON.

Inductive Reply (Document : Type) :=
| Respond (status : Z) (message : jsstring) (item : option Document)
| Next (error : exn).

Arguments Respond {Document} status message item.
Arguments Next {Document} error.

(** [value.key] after the test that [value] is truthy. *)
Definition member (value : option JSValue) (key : jsstring) : option JSValue :=
  match value with
  | Some v => property v key
  | None => None
  end.

Section Handlers.

Variable Document : Type.

(** [VaultItem.create({ userId, encryptedData })] *)
Variable VaultItem_create : option jsstring -> JSValue -> completion Document.

(** [VaultItem.findOneAndUpdate({ _id, userId }, { encryptedData }, ...)] *)
Variable VaultItem_findOneAndUpdate :
  jsstring -> option jsstring -> JSValue -> completion (option Document).

Definition createVaultItem (body : JSValue) (userId : option jsstring)
  : Reply Document :=
  match Get body (str "encryptedData") with
  | Throw error => Next error
  | Return encryptedData =>
      if negb (ToBoolean encryptedData)
         || negb (ToBoolean (member encryptedData (str "encrypted")))
         || negb (ToBoolean (member encryptedData (str "salt")))
         || negb (ToBoolean (member encryptedData (str "iv")))
      then Respond 400 (str "Invalid encrypted data format") None
      else
        match encryptedData with
        | Some data =>
            match VaultItem_create userId data with
            | Return vaultItem =>
                Respond 201 (str "Vault item created successfully") (Some vaultItem)
            | Throw error => Next error
            end
        | None => Respond 400 (str "Invalid encrypted data format") None
        end
  end.

Definition updateVaultItem (id : jsstring) (body : JSValue)
                           (userId : option jsstring) : Reply Document :=
  match Get body (str "encryptedData") with
  | Throw error => Next error
  | Return encryptedData =>
      if negb (ToBoolean encryptedData)
         || negb (ToBoolean (member encryptedData (str "encrypted")))
         || negb (ToBoolean (member encryptedData (str "salt")))
         || negb (ToBoolean (member encryptedData (str "iv")))
      then Respond 400 (str "Invalid encrypted data format") None
      else
        match encryptedData with
        | Some data =>
            match VaultItem_findOneAndUpdate id userId data with
            | Return (Some vaultItem) =>
                Respond 200 (str "Vault item updated successfully") (Some vaultItem)
            | Return None => Respond 404 (str "Vault item not found") None
            | Throw error => Next error
            end
        | None => Respond 400 (str "Invalid encrypted data format") None
        end
  end.

End Handlers.

End Controller.

(** The tiers in increasing order. *)
Definition tier_rank (t : Strength.StrengthTier) : Z :=
  match t with
  | Strength.VeryWeak => 0
  | Strength.Weak => 1
  | Strength.Moderate => 2
  | Strength.Strong => 3
  | Strength.VeryStrong => 4
  end.

(** ** The card of a record ([frontend/src/components/VaultItem.tsx]) *)

Module ItemCard.

(** The target of the link of a record: no link is drawn for an empty
    [url]; [s.startsWith] is the function of the guard. *)
Definition link_href (url : jsstring) : option jsstring :=
  match url with
  | [] => None
  | _ => Some (if Guard.startsWith url (str "http") then url
               else str "https://" ++ url)
  end.

End ItemCard.

(** * Properties *)

Lemma jsstring_eqb_eq (a b : jsstring) : jsstring_eqb a b = true <-> a = b.
Proof.
  revert b; induction a as [|x a IH]; intros [|y b]; simpl; split; intro H;
    try reflexivity; try discriminate.
  - apply andb_true_iff in H as [Hx Hab]. apply Z.eqb_eq in Hx.
    apply IH in Hab. now subst.
  - injection H as -> ->. rewrite Z.eqb_refl. now apply IH.
Qed.

Lemma jsstring_okb_ok (s : jsstring) : jsstring_okb s = true -> jsstring_ok s.
Proof.
  unfold jsstring_okb, jsstring_ok, code_unit. rewrite forallb_forall, Forall_forall.
  intros H c Hc. specialize (H c Hc). lia.
Qed.

Lemma includes_In (s : jsstring) (c : Z) : includes s c = true <-> In c s.
Proof.
  unfold includes. rewrite existsb_exists. split.
  - intros (x & Hin & Hx). apply Z.eqb_eq in Hx. now subst.
  - intro Hin. exists c. split; [assumption | apply Z.eqb_refl].
Qed.


(** ** The password generator *)

Section GeneratorProperties.
Import Generator.

Lemma charset_of_In (o : PasswordOptions) (c : Z) :
  In c (charset_of o) <->
  (In c lowercase \/ In c uppercase \/
   (includeNumbers o = true /\ In c numbers) \/
   (includeSymbols o = true /\ In c symbols)) /\
  (excludeAmbiguous o = true -> ~ In c ambiguous).
Proof.
  assert (Hamb : negb (includes ambiguous c) = true <-> ~ In c ambiguous).
  { rewrite negb_true_iff, <- not_true_iff_false. now rewrite includes_In. }
  unfold charset_of.
  destruct (includeNumbers o), (includeSymbols o), (excludeAmbiguous o);
    rewrite ?filter_In, ?in_app_iff, ?Hamb; intuition discriminate.
Qed.

Lemma charset_of_nonempty (o : PasswordOptions) : charset_of o <> [].
Proof.
  intro H. assert (Hin : In 97 (charset_of o)).
  { apply charset_of_In. split.
    - left. vm_compute. tauto.
    - intros _ Hamb. vm_compute in Hamb. intuition discriminate. }
  rewrite H in Hin. destruct Hin.
Qed.

Lemma select_in_charset (charset : jsstring) (u : Z) :
  charset <> [] -> 0 <= u ->
  exists c, select charset u = [c] /\ In c charset.
Proof.
  intros Hne Hu. unfold select, js_rem.
  assert (Hlen : 0 < Z.of_nat (List.length charset)).
  { destruct charset; [contradiction | simpl List.length; lia]. }
  destruct (Z.eqb_spec (Z.of_nat (List.length charset)) 0) as [E|_]; [lia|].
  simpl. pose proof (Z.mod_pos_bound u _ Hlen) as Hb.
  destruct (nth_error charset (Z.to_nat (u mod Z.of_nat (List.length charset))))
    as [c|] eqn:E.
  - exists c. split; [reflexivity | eapply nth_error_In; eassumption].
  - apply nth_error_None in E. lia.
Qed.

Lemma generate_loop_spec (charset : jsstring) (rv : list Z) (acc : jsstring) :
  charset <> [] -> Forall (fun u => 0 <= u) rv ->
  exists out, generate_loop charset rv acc = acc ++ out /\
              List.length out = List.length rv /\
              Forall (fun c => In c charset) out.
Proof.
  intros Hne. revert acc. induction rv as [|u rv IH]; intros acc Hrv.
  - exists []. simpl. rewrite app_nil_r. auto.
  - inversion Hrv as [|? ? Hu Hrest]; subst.
    destruct (select_in_charset charset u Hne Hu) as (c & Hsel & Hin).
    destruct (IH (acc ++ select charset u) Hrest) as (out & Hout & Hlen & Hall).
    exists (c :: out). simpl. rewrite Hout, Hsel, <- app_assoc. simpl.
    repeat split; [congruence | now constructor].
Qed.

Lemma getRandomValues32_returns (source : nat -> Z) (n : nat) :
  Z.of_nat n <= 16384 ->
  getRandomValues32 source n =
  Return (map (fun i => source i mod UINT32) (seq 0 n)).
Proof.
  intro Hn. unfold getRandomValues32.
  destruct (Z.ltb_spec (2 ^ 53 - 1) (4 * Z.of_nat n)); [lia|].
  destruct (Z.ltb_spec 65536 (4 * Z.of_nat n)); [lia | reflexivity].
Qed.

Lemma getRandomValues32_throws (source : nat -> Z) (n : nat) :
  16384 < Z.of_nat n -> exists e, getRandomValues32 source n = Throw e.
Proof.
  intro Hn. unfold getRandomValues32.
  destruct (Z.ltb_spec (2 ^ 53 - 1) (4 * Z.of_nat n)); [eexists; reflexivity|].
  destruct (Z.ltb_spec 65536 (4 * Z.of_nat n)); [eexists; reflexivity | lia].
Qed.

Lemma getRandomValues32_nonneg (source : nat -> Z) (n : nat) (rv : list Z) :
  getRandomValues32 source n = Return rv ->
  Z.of_nat n <= 16384 /\
  rv = map (fun i => source i mod UINT32) (seq 0 n) /\
  Forall (fun u => 0 <= u) rv /\
  List.length rv = n.
Proof.
  intro H.
  destruct (Z.le_gt_cases (Z.of_nat n) 16384) as [Hle|Hgt].
  - rewrite getRandomValues32_returns in H by exact Hle.
    injection H as <-. split; [exact Hle|]. split; [reflexivity|]. split.
    + apply Forall_forall. intros u Hin. apply in_map_iff in Hin as (i & <- & _).
      apply Z.mod_pos_bound. reflexivity.
    + now rewrite length_map, length_seq.
  - destruct (getRandomValues32_throws source n) as [e He]; [lia|]. congruence.
Qed.

(** What a call that returns has returned. *)
Lemma generated_in_charset (o : PasswordOptions) (source : nat -> Z)
                           (password : jsstring) :
  generateSecurePassword o source = Return password ->
  Z.of_nat (length o) <= 16384 /\
  List.length password = length o /\
  Forall (fun c => In c (charset_of o)) password.
Proof.
  unfold generateSecurePassword.
  destruct (getRandomValues32 source (length o)) as [rv|e] eqn:Erv;
    cbn [bind]; [|discriminate].
  intro H. injection H as <-.
  apply getRandomValues32_nonneg in Erv as (Hle & _ & Hnn & Hlen).
  destruct (generate_loop_spec (charset_of o) rv [] (charset_of_nonempty o) Hnn)
    as (out & -> & Hl & Hall).
  cbn [app]. split; [exact Hle|]. split; [congruence | assumption].
Qed.

Lemma generate_returns (o : PasswordOptions) (source : nat -> Z) :
  Z.of_nat (length o) <= 16384 ->
  generateSecurePassword o source =
  Return (generate_loop (charset_of o)
            (map (fun i => source i mod UINT32) (seq 0 (length o))) []).
Proof.
  intro Hle. unfold generateSecurePassword.
  now rewrite getRandomValues32_returns by exact Hle.
Qed.

Lemma generate_throws (o : PasswordOptions) (source : nat -> Z) :
  16384 < Z.of_nat (length o) ->
  exists e, generateSecurePassword o source = Throw e.
Proof.
  intro Hgt. unfold generateSecurePassword.
  destruct (getRandomValues32_throws source (length o) Hgt) as [e ->].
  exists e. reflexivity.
Qed.

(** C7, as stated, fails: the generator is not total.  A request for 16385
    characters asks the random source for more than 65536 bytes, which it
    refuses: the call throws and returns no password. *)
Lemma generate_over_quota_throws :
  generateSecurePassword
    {| length := Z.to_nat 16385; includeNumbers := true;
       includeSymbols := true; excludeAmbiguous := true |} (fun i => Z.of_nat i)
  = Throw QuotaExceededError.
Proof. reflexivity. Qed.

(** C7, amended: the character set made of the letters, the digits when
    [includeNumbers], the symbols when [includeSymbols], minus the
    characters of [il1Lo0O] when [excludeAmbiguous], is never empty.  For a
    length of at most 16384 the generator returns a password of exactly
    [length] characters, all taken from that set; for a larger length the
    call throws and returns nothing.  With length 20, no digits, no symbols
    and the ambiguous characters excluded, the output holds only letters
    and none of i, l, L, o, O. *)
Theorem generate_within_charset :
  (forall (o : PasswordOptions) (source : nat -> Z),
      charset_of o <> [] /\
      (forall c, In c (charset_of o) <->
         (In c lowercase \/ In c uppercase \/
          (includeNumbers o = true /\ In c numbers) \/
          (includeSymbols o = true /\ In c symbols)) /\
         (excludeAmbiguous o = true -> ~ In c ambiguous)) /\
      (Z.of_nat (length o) <= 16384 ->
       exists password,
         generateSecurePassword o source = Return password /\
         List.length password = length o /\
         Forall (fun c => In c (charset_of o)) password) /\
      (16384 < Z.of_nat (length o) ->
       exists e, generateSecurePassword o source = Throw e) /\
      (forall password,
          generateSecurePassword o source = Return password ->
          Z.of_nat (length o) <= 16384 /\
          List.length password = length o /\
          Forall (fun c => In c (charset_of o)) password)) /\
  (forall source : nat -> Z,
      exists password,
        generateSecurePassword
          {| length := 20; includeNumbers := false;
             includeSymbols := false; excludeAmbiguous := true |} source
        = Return password /\
        List.length password = 20%nat /\
        Forall (fun c => is_letter c /\ ~ In c (str "ilLoO")) password).
Proof.
  assert (Hgen : forall o source,
      Z.of_nat (length o) <= 16384 ->
      exists password,
        generateSecurePassword o source = Return password /\
        List.length password = length o /\
        Forall (fun c => In c (charset_of o)) password).
  { intros o source Hle. eexists. split; [now apply generate_returns|].
    pose proof (generated_in_charset o source _ (generate_returns o source Hle))
      as (_ & Hlen & Hall).
    split; assumption. }
  split.
  - intros o source. split; [apply charset_of_nonempty|].
    split; [intro c; apply charset_of_In|].
    split; [apply Hgen|].
    split; [apply generate_throws | apply generated_in_charset].
  - intros source.
    destruct (Hgen {| length := 20; includeNumbers := false;
                      includeSymbols := false; excludeAmbiguous := true |} source)
      as (password & Hret & Hlen & Hall).
    { cbn [length]. lia. }
    clear Hgen. exists password. split; [exact Hret|]. split; [exact Hlen|].
    eapply Forall_impl; [|exact Hall]. intros c Hc.
    apply charset_of_In in Hc. destruct Hc as [Hcls Hamb].
    cbn [includeNumbers includeSymbols excludeAmbiguous] in Hcls, Hamb.
    split.
    + unfold is_letter.
      destruct Hcls as [H|[H|[[H _]|[H _]]]]; try discriminate; auto.
    + intro Hin. apply Hamb; [reflexivity|].
      vm_compute in Hin |- *. tauto.
Qed.

End GeneratorProperties.

Lemma generate_within_charset_witness :
  exists password,
    Generator.generateSecurePassword
      {| Generator.length := 12; Generator.includeNumbers := true;
         Generator.includeSymbols := true; Generator.excludeAmbiguous := false |}
      (fun i => Z.of_nat i) = Return password /\
    List.length password = 12%nat.
Proof.
  destruct (proj1 (proj2 (proj2 (proj1 generate_within_charset
              {| Generator.length := 12; Generator.includeNumbers := true;
                 Generator.includeSymbols := true;
                 Generator.excludeAmbiguous := false |}
              (fun i => Z.of_nat i)))))
    as (password & Hret & Hlen & _).
  - cbn [Generator.length]. lia.
  - exists password. split; [exact Hret | exact Hlen].
Defined.

(** ** Distribution of the selection step over the 32-bit words *)

Section SelectionCounts.
Import Generator.

Lemma count_iter_fst (P : Z -> bool) (n : N) :
  fst (N.iter n (count_step P) (0, 0)) = Z.of_N n.
Proof.
  induction n as [|n IH] using N.peano_ind; [reflexivity|].
  rewrite N.iter_succ. unfold count_step at 1. simpl fst. rewrite IH. lia.
Qed.

Lemma count_words_succ (P : Z -> bool) (n : N) :
  count_words P (N.succ n) =
  count_words P n + (if P (Z.of_N n) then 1 else 0).
Proof.
  unfold count_words. rewrite N.iter_succ. unfold count_step at 1.
  simpl snd. rewrite count_iter_fst. destruct (P (Z.of_N n)); lia.
Qed.

Lemma count_words_ext (P Q : Z -> bool) (n : N) :
  (forall u, 0 <= u < Z.of_N n -> P u = Q u) ->
  count_words P n = count_words Q n.
Proof.
  induction n as [|n IH] using N.peano_ind; intro H; [reflexivity|].
  rewrite !count_words_succ, IH, (H (Z.of_N n)) by (intros; try apply H; lia).
  reflexivity.
Qed.

(** Among the first [m] naturals, the residue [j] modulo [n] occurs
    [m / n] times, and once more when [j] is below [m mod n]. *)
Lemma count_words_residue (n j : Z) (m : N) :
  0 < n -> 0 <= j < n ->
  count_words (fun u => u mod n =? j) m =
  Z.of_N m / n + (if j <? Z.of_N m mod n then 1 else 0).
Proof.
  intros Hn Hj. induction m as [|m IH] using N.peano_ind.
  - unfold count_words. simpl N.iter. simpl snd. change (Z.of_N 0) with 0.
    rewrite Z.div_0_l, Z.mod_0_l by lia.
    destruct (Z.ltb_spec j 0); lia.
  - rewrite count_words_succ, IH. rewrite N2Z.inj_succ.
    set (M := Z.of_N m) in *.
    assert (HM : 0 <= M) by (subst M; lia).
    pose proof (Z.div_mod M n ltac:(lia)) as Hdm.
    pose proof (Z.mod_pos_bound M n Hn) as Hmb.
    destruct (Z.eq_dec (M mod n) (n - 1)) as [Elast | Hnot].
    + assert (Hq : Z.succ M = n * (M / n + 1) + 0) by lia.
      assert (Hdiv : Z.succ M / n = M / n + 1).
      { symmetry. apply (Z.div_unique _ _ _ 0); lia. }
      assert (Hmod : Z.succ M mod n = 0).
      { symmetry. apply (Z.mod_unique _ _ (M / n + 1) 0); lia. }
      rewrite Hdiv, Hmod.
      destruct (Z.eqb_spec (M mod n) j), (Z.ltb_spec j (M mod n)),
        (Z.ltb_spec j 0); lia.
    + assert (Hdiv : Z.succ M / n = M / n).
      { symmetry. apply (Z.div_unique _ _ _ (M mod n + 1)); lia. }
      assert (Hmod : Z.succ M mod n = M mod n + 1).
      { symmetry. apply (Z.mod_unique _ _ (M / n)); lia. }
      rewrite Hdiv, Hmod.
      destruct (Z.eqb_spec (M mod n) j), (Z.ltb_spec j (M mod n)),
        (Z.ltb_spec j (M mod n + 1)); lia.
Qed.

(** On a character set without repetition, a word selects the character at
    index [idx] exactly when it is congruent to [idx]. *)
Lemma selects_residue (charset : jsstring) (c : Z) (idx : nat) (u : Z) :
  NoDup charset -> nth_error charset idx = Some c -> 0 <= u ->
  selects charset c u =
  (u mod Z.of_nat (List.length charset) =? Z.of_nat idx).
Proof.
  intros Hnd Hidx Hu.
  assert (Hlt : (idx < List.length charset)%nat)
    by (apply nth_error_Some; congruence).
  unfold selects, select, js_rem.
  destruct (Z.eqb_spec (Z.of_nat (List.length charset)) 0) as [E|_]; [lia|].
  simpl.
  pose proof (Z.mod_pos_bound u (Z.of_nat (List.length charset)) ltac:(lia)) as Hb.
  set (k := u mod Z.of_nat (List.length charset)) in *.
  destruct (nth_error charset (Z.to_nat k)) as [c'|] eqn:E.
  - destruct (Z.eqb_spec k (Z.of_nat idx)) as [Ek|Nk].
    + rewrite Ek, Nat2Z.id, Hidx in E. injection E as <-.
      apply jsstring_eqb_eq. reflexivity.
    + destruct (jsstring_eqb [c'] [c]) eqn:Eq; [|reflexivity].
      apply jsstring_eqb_eq in Eq. injection Eq as ->.
      exfalso. apply Nk.
      rewrite NoDup_nth_error in Hnd.
      assert (Z.to_nat k = idx); [|lia].
      apply Hnd; [lia | congruence].
  - apply nth_error_None in E. lia.
Qed.

Lemma selecting_words_formula (charset : jsstring) (c : Z) (idx : nat) :
  NoDup charset -> nth_error charset idx = Some c ->
  let n := Z.of_nat (List.length charset) in
  selecting_words charset c =
  UINT32 / n + (if Z.of_nat idx <? UINT32 mod n then 1 else 0).
Proof.
  intros Hnd Hidx n.
  assert (Hlt : (idx < List.length charset)%nat)
    by (apply nth_error_Some; congruence).
  unfold selecting_words.
  rewrite (count_words_ext _ (fun u => u mod n =? Z.of_nat idx)).
  - rewrite count_words_residue by (subst n; lia). reflexivity.
  - intros u [Hu _]. now apply selects_residue.
Qed.

Lemma nodupb_NoDup (l : list Z) : nodupb l = true -> NoDup l.
Proof.
  induction l as [|x r IH]; simpl; intro H; constructor;
    apply andb_true_iff in H as [Hx Hr].
  - rewrite negb_true_iff, <- not_true_iff_false, includes_In in Hx. exact Hx.
  - now apply IH.
Qed.

Lemma charset_of_NoDup (o : PasswordOptions) : NoDup (charset_of o).
Proof.
  apply nodupb_NoDup.
  destruct o as [n [] [] []]; vm_compute; reflexivity.
Qed.

(** C3, as stated, fails: with the options the generator form starts from
    (numbers and symbols included, ambiguous characters excluded) the
    character set has 81 characters, and [a] is selected by one more 32-bit
    word than [?]. *)
Lemma selection_not_uniform :
  let charset := charset_of {| length := 16; includeNumbers := true;
                               includeSymbols := true; excludeAmbiguous := true |} in
  In 97 charset /\ In 63 charset /\
  selecting_words charset 97 = 53024288 /\
  selecting_words charset 63 = 53024287 /\
  selecting_words charset 97 <> selecting_words charset 63.
Proof.
  intro charset.
  assert (Hnd : NoDup charset) by apply charset_of_NoDup.
  assert (Ha : nth_error charset 0 = Some 97) by reflexivity.
  assert (Hq : nth_error charset 80 = Some 63) by reflexivity.
  assert (Ea := selecting_words_formula charset 97 0 Hnd Ha).
  assert (Eq := selecting_words_formula charset 63 80 Hnd Hq).
  cbv zeta in Ea, Eq.
  change (Z.of_nat (List.length charset)) with 81 in Ea, Eq.
  change (UINT32 / 81) with 53024287 in Ea, Eq.
  change (UINT32 mod 81) with 49 in Ea, Eq.
  change (Z.of_nat 0 <? 49) with true in Ea.
  change (Z.of_nat 80 <? 49) with false in Eq.
  split; [eapply nth_error_In; exact Ha|].
  split; [eapply nth_error_In; exact Hq|].
  rewrite Ea, Eq. repeat split; try reflexivity. discriminate.
Qed.

Lemma generate_loop_flat_map (charset : jsstring) (rv : list Z) (acc : jsstring) :
  generate_loop charset rv acc = acc ++ flat_map (select charset) rv.
Proof.
  revert acc. induction rv as [|u rv IH]; intro acc; cbn [generate_loop flat_map].
  - now rewrite app_nil_r.
  - now rewrite IH, <- app_assoc.
Qed.

(** C3, amended: for a length of at most 16384 the password is made of one
    selection for each of the [length] random words, the i-th output
    character being selected by the i-th word alone (for a larger length
    the random source refuses the request and nothing is returned); for
    every policy and every two characters of its character set, the
    numbers of 32-bit words that select them differ by at most one (each
    is the quotient of 2^32 by the size of the set, or one more); every
    character is selected by some word. *)
Theorem selection_near_uniform (o : PasswordOptions) (c1 c2 : Z) :
  In c1 (charset_of o) -> In c2 (charset_of o) ->
  let n := Z.of_nat (List.length (charset_of o)) in
  (forall source,
      (Z.of_nat (length o) <= 16384 ->
       generateSecurePassword o source =
       Return (flat_map (fun i => select (charset_of o) (source i mod UINT32))
                        (seq 0 (length o)))) /\
      (16384 < Z.of_nat (length o) ->
       exists e, generateSecurePassword o source = Throw e)) /\
  UINT32 / n <= selecting_words (charset_of o) c1 <= UINT32 / n + 1 /\
  UINT32 / n <= selecting_words (charset_of o) c2 <= UINT32 / n + 1 /\
  Z.abs (selecting_words (charset_of o) c1 - selecting_words (charset_of o) c2) <= 1 /\
  0 < selecting_words (charset_of o) c1.
Proof.
  intros H1 H2 n. split.
  { intro source. split; [|apply generate_throws].
    intro Hle. rewrite generate_returns by exact Hle. f_equal.
    rewrite generate_loop_flat_map. cbn [app].
    induction (seq 0 (length o)) as [|i l IH]; [reflexivity|].
    cbn [map flat_map]. now rewrite IH. }
  apply In_nth_error in H1 as [i1 E1]. apply In_nth_error in H2 as [i2 E2].
  pose proof (charset_of_NoDup o) as Hnd.
  rewrite (selecting_words_formula _ _ _ Hnd E1).
  rewrite (selecting_words_formula _ _ _ Hnd E2).
  fold n.
  assert (Hq : 0 < UINT32 / n).
  { subst n. destruct o as [k [] [] []]; vm_compute; reflexivity. }
  destruct (Z.of_nat i1 <? UINT32 mod n), (Z.of_nat i2 <? UINT32 mod n); lia.
Qed.

Lemma selection_near_uniform_witness :
  let o := {| length := 16; includeNumbers := true;
              includeSymbols := true; excludeAmbiguous := true |} in
  Z.abs (selecting_words (charset_of o) 97 - selecting_words (charset_of o) 63) <= 1.
Proof.
  intro o.
  assert (H1 : In 97 (charset_of o)) by (vm_compute; tauto).
  assert (H2 : In 63 (charset_of o)) by (vm_compute; tauto).
  exact (proj1 (proj2 (proj2 (proj2 (selection_near_uniform o 97 63 H1 H2))))).
Defined.

End SelectionCounts.

(** ** The strength estimator *)

Section StrengthProperties.
Import Strength.

Variable Math_pow : float -> float -> float.
Variable Math_log2 : float -> float.
Variable Math_round : float -> float.

Let tier : float -> StrengthTier := tier_of Math_round.

(** C8: the tier of a password is decided from its years-to-crack by strict
    comparisons, so a value equal to a boundary (0.001, 1, 1000, 1000000)
    belongs to the tier above it; a password that takes exactly one year
    is Moderate, not Weak. *)
Theorem strength_boundaries_half_open :
  (forall password,
      strength (estimateTimeToCrack Math_pow Math_log2 Math_round password) =
      tier (yearsToCrack_of Math_pow Math_log2 password)) /\
  (forall password,
      yearsToCrack_of Math_pow Math_log2 password = 1%float ->
      strength (estimateTimeToCrack Math_pow Math_log2 Math_round password) =
      Moderate) /\
  (forall password,
      yearsToCrack_of Math_pow Math_log2 password = 0.001%float ->
      strength (estimateTimeToCrack Math_pow Math_log2 Math_round password) =
      Weak) /\
  (forall password,
      yearsToCrack_of Math_pow Math_log2 password = 1000%float ->
      strength (estimateTimeToCrack Math_pow Math_log2 Math_round password) =
      Strong) /\
  (forall password,
      yearsToCrack_of Math_pow Math_log2 password = 1000000%float ->
      strength (estimateTimeToCrack Math_pow Math_log2 Math_round password) =
      VeryStrong) /\
  tier 0.001 = Weak /\ tier 1 = Moderate /\
  tier 1000 = Strong /\ tier 1000000 = VeryStrong /\
  (forall y,
      (tier y = VeryWeak <-> (y <? 0.001)%float = true) /\
      (tier y = Weak <->
         (y <? 0.001)%float = false /\ (y <? 1)%float = true) /\
      (tier y = Moderate <->
         (y <? 0.001)%float = false /\ (y <? 1)%float = false /\
         (y <? 1000)%float = true) /\
      (tier y = Strong <->
         (y <? 0.001)%float = false /\ (y <? 1)%float = false /\
         (y <? 1000)%float = false /\ (y <? 1000000)%float = true) /\
      (tier y = VeryStrong <->
         (y <? 0.001)%float = false /\ (y <? 1)%float = false /\
         (y <? 1000)%float = false /\ (y <? 1000000)%float = false)).
Proof.
  split; [reflexivity|].
  do 4 (split; [intros password E; unfold estimateTimeToCrack;
                cbn [strength]; rewrite E; reflexivity|]).
  repeat (split; [reflexivity|]).
  intro y. unfold tier, tier_of, classify.
  destruct (y <? 0.001)%float, (y <? 1)%float, (y <? 1000)%float,
    (y <? 1000000)%float; simpl;
    repeat split; intros; try discriminate; try reflexivity;
    repeat match goal with H : _ /\ _ |- _ => destruct H end; discriminate.
Qed.

(** The alphabet size is the sum of the nominal sizes of the classes that
    occur in the password. *)
Lemma charsetSize_of_classes (password : jsstring) :
  charsetSize_of password =
  (if test_lower password then 26 else 0) +
  (if test_upper password then 26 else 0) +
  (if test_digit password then 10 else 0) +
  (if test_other password then 32 else 0).
Proof.
  unfold charsetSize_of.
  destruct (test_lower password), (test_upper password),
    (test_digit password), (test_other password); reflexivity.
Qed.

Lemma charsetSize_examples :
  charsetSize_of (str "aaaaaaaaaaaa") = 26 /\
  charsetSize_of (str "aA1!aA1!aA1!") = 94 /\
  charsetSize_of [] = 0.
Proof. repeat split. Qed.

(** C9 at a password of 157 characters with all four classes: the entropy
    is [Math.log2(Math.pow(94, 157))], and 94^157 is beyond the largest
    double (below 2^1024), so the power is Infinity. *)
Theorem entropy_of_long_password :
  List.length long_password = 157%nat /\
  charsetSize_of long_password = 94 /\
  calculatePasswordEntropy Math_pow Math_log2 long_password =
    Math_log2 (Math_pow 94 157) /\
  2 ^ 1024 <= 94 ^ 157.
Proof.
  repeat split. vm_compute. discriminate.
Qed.

(** With a power function that overflows to Infinity and a logarithm that
    maps Infinity to itself, as ECMAScript prescribes, the entropy of that
    password is Infinity. *)
Lemma entropy_overflow :
  Math_pow 94 157 = infinity -> Math_log2 infinity = infinity ->
  calculatePasswordEntropy Math_pow Math_log2 long_password = infinity.
Proof.
  intros Hpow Hlog.
  change (calculatePasswordEntropy Math_pow Math_log2 long_password)
    with (Math_log2 (Math_pow 94 157)).
  now rewrite Hpow, Hlog.
Qed.

End StrengthProperties.

Lemma strength_boundaries_half_open_witness :
  Strength.strength
    (Strength.estimateTimeToCrack Strength.one_year_pow (fun x => x)
       (fun x => x) (str "password")) = Strength.Moderate.
Proof.
  apply (proj1 (proj2 (strength_boundaries_half_open Strength.one_year_pow
                         (fun x => x) (fun x => x)))).
  vm_compute. reflexivity.
Defined.

(** ** Bytes *)

Ltac Zify.zify_post_hook ::= Z.to_euclidean_division_equations.

Lemma byte_to_Z_range (b : byte) : 0 <= byte_to_Z b < 256.
Proof.
  unfold byte_to_Z. pose proof (Byte.to_N_bounded b). lia.
Qed.

Lemma byte_of_to_Z (b : byte) : byte_of_Z (byte_to_Z b) = b.
Proof.
  pose proof (byte_to_Z_range b) as Hr. unfold byte_of_Z.
  rewrite Z.mod_small by exact Hr. unfold byte_to_Z.
  rewrite N2Z.id, Byte.of_to_N. reflexivity.
Qed.

Lemma byte_to_of_Z (z : Z) : 0 <= z < 256 -> byte_to_Z (byte_of_Z z) = z.
Proof.
  intro Hz. unfold byte_of_Z. rewrite Z.mod_small by exact Hz.
  destruct (Byte.of_N (Z.to_N z)) as [b|] eqn:E.
  - apply Byte.to_of_N in E. unfold byte_to_Z. lia.
  - apply Byte.of_N_None_iff in E. lia.
Qed.

Lemma map_byte_of_to_Z (bs : list byte) :
  map byte_of_Z (map byte_to_Z bs) = bs.
Proof.
  induction bs as [|b bs IH]; simpl; [reflexivity|].
  now rewrite byte_of_to_Z, IH.
Qed.

(** ** Base64 *)

Section Base64Properties.
Import Base64.

Lemma list_ind3 {A : Type} (Q : list A -> Prop) :
  Q [] -> (forall a, Q [a]) -> (forall a b, Q [a; b]) ->
  (forall a b c rest, Q rest -> Q (a :: b :: c :: rest)) ->
  forall l, Q l.
Proof.
  intros H0 H1 H2 H3.
  fix IH 1. intros [|a [|b [|c rest]]];
    [exact H0 | apply H1 | apply H2 | apply H3; apply IH].
Qed.

Lemma alphabet_index_char (i : Z) :
  is_sextet i -> alphabet_index (alphabet_char i) = Some i.
Proof.
  unfold is_sextet, alphabet_char. intro Hi.
  destruct (Z.ltb_spec i 26); [|destruct (Z.ltb_spec i 52);
    [|destruct (Z.ltb_spec i 62); [|destruct (Z.eqb_spec i 62)]]];
    unfold alphabet_index;
    repeat (match goal with
            | |- context [?a <=? ?b] => destruct (Z.leb_spec a b)
            | |- context [?a =? ?b] => destruct (Z.eqb_spec a b)
            end; cbv iota beta delta [andb] in *);
    try (f_equal; lia); exfalso; lia.
Qed.

Lemma alphabet_char_plain (i : Z) :
  is_sextet i ->
  is_ascii_whitespace (alphabet_char i) = false /\ alphabet_char i <> pad /\
  0 <= alphabet_char i < 128.
Proof.
  unfold is_sextet, alphabet_char, pad. intro Hi.
  destruct (Z.ltb_spec i 26); [|destruct (Z.ltb_spec i 52);
    [|destruct (Z.ltb_spec i 62); [|destruct (Z.eqb_spec i 62)]]];
    unfold is_ascii_whitespace;
    repeat (match goal with
            | |- context [?a =? ?b] => destruct (Z.eqb_spec a b)
            end; cbv iota beta delta [orb] in *);
    try (exfalso; lia); repeat split; lia.
Qed.

Lemma encode_bytes_split (bs : list Z) :
  encode_bytes bs = map alphabet_char (sextets_of bs) ++ padding_of bs.
Proof.
  induction bs as [| a | a b | a b c rest IH] using list_ind3;
    try reflexivity.
  cbn [encode_bytes sextets_of padding_of map app]. now rewrite IH.
Qed.

Lemma sextets_of_range (bs : list Z) :
  Forall is_byte bs -> Forall is_sextet (sextets_of bs).
Proof.
  unfold is_byte, is_sextet.
  induction bs as [| a | a b | a b c rest IH] using list_ind3; intro H;
    cbn [sextets_of].
  - constructor.
  - inversion H; subst. repeat constructor; lia.
  - inversion H as [|? ? Ha H']; subst. inversion H'; subst.
    repeat constructor; lia.
  - inversion H as [|? ? Ha H']; subst. inversion H' as [|? ? Hb H'']; subst.
    inversion H'' as [|? ? Hc Hrest]; subst.
    repeat (constructor; [lia|]). now apply IH.
Qed.

Lemma decode_sextets_of (bs : list Z) :
  Forall is_byte bs -> decode_sextets (sextets_of bs) = bs.
Proof.
  unfold is_byte.
  induction bs as [| a | a b | a b c rest IH] using list_ind3; intro H;
    cbn [sextets_of decode_sextets].
  - reflexivity.
  - inversion H; subst. f_equal. lia.
  - inversion H as [|? ? Ha H']; subst. inversion H'; subst.
    f_equal; [lia|]. f_equal. lia.
  - inversion H as [|? ? Ha H']; subst. inversion H' as [|? ? Hb H'']; subst.
    inversion H'' as [|? ? Hc Hrest]; subst.
    rewrite IH by assumption.
    f_equal; [lia|]. f_equal; [lia|]. f_equal. lia.
Qed.

Lemma sextets_alphabet (vs : list Z) :
  Forall is_sextet vs -> sextets (map alphabet_char vs) = Some vs.
Proof.
  induction 1 as [|v vs Hv _ IH]; simpl; [reflexivity|].
  now rewrite alphabet_index_char, IH.
Qed.

Lemma remove_whitespace_id (s : jsstring) :
  Forall (fun c => is_ascii_whitespace c = false) s -> remove_whitespace s = s.
Proof.
  induction 1 as [|c s Hc _ IH]; simpl; [reflexivity|].
  rewrite Hc. simpl. now rewrite IH.
Qed.

Lemma sextets_of_length (bs : list Z) :
  exists k : nat,
    (List.length (map alphabet_char (sextets_of bs)) + List.length (padding_of bs)
     = 4 * k)%nat /\
    (List.length (padding_of bs) <= 2)%nat /\
    (List.length (padding_of bs) = 0 \/ sextets_of bs <> [])%nat.
Proof.
  induction bs as [| a | a b | a b c rest IH] using list_ind3.
  - exists 0%nat. simpl. auto.
  - exists 1%nat. simpl. split; [reflexivity|]. split; [lia|]. right. discriminate.
  - exists 1%nat. simpl. split; [reflexivity|]. split; [lia|]. right. discriminate.
  - destruct IH as (k & Hk & Hp & Hne). exists (S k).
    cbn [sextets_of padding_of map List.length]. split; [lia|].
    split; [lia|]. right. discriminate.
Qed.

Lemma padding_of_cases (bs : list Z) :
  padding_of bs = [] \/ padding_of bs = [pad] \/ padding_of bs = [pad; pad].
Proof.
  induction bs as [| a | a b | a b c rest IH] using list_ind3; simpl; auto.
Qed.

Lemma strip_padding_encoded (body padding : jsstring) :
  Forall (fun c => c <> pad) body ->
  padding = [] \/ padding = [pad] \/ padding = [pad; pad] ->
  (padding = [] \/ body <> []) ->
  Z.of_nat (List.length (body ++ padding)) mod 4 = 0 ->
  strip_padding (body ++ padding) = body.
Proof.
  intros Hbody Hpad Hne Hlen. unfold strip_padding.
  rewrite Hlen. simpl (0 =? 0).
  assert (Hlast : forall p r, rev body = p :: r -> (p =? pad) = false).
  { intros p r E. apply Z.eqb_neq.
    rewrite Forall_forall in Hbody. apply Hbody.
    apply in_rev. rewrite E. now left. }
  destruct Hpad as [-> | [-> | ->]].
  - rewrite app_nil_r. destruct (rev body) as [|p [|q r]] eqn:E.
    + reflexivity.
    + now rewrite (Hlast p []).
    + now rewrite (Hlast p (q :: r)).
  - rewrite rev_app_distr. simpl rev. simpl app.
    destruct Hne as [Hne | Hne]; [discriminate|].
    destruct (rev body) as [|q r] eqn:E.
    + exfalso. apply Hne. apply (f_equal (@rev Z)) in E.
      now rewrite rev_involutive in E.
    + rewrite Z.eqb_refl, (Hlast q r eq_refl).
      apply (f_equal (@rev Z)) in E. rewrite rev_involutive in E.
      symmetry. exact E.
  - rewrite rev_app_distr. simpl rev. simpl app.
    change (pad =? pad) with true. cbv iota. apply rev_involutive.
Qed.

Lemma atob_encode_bytes (bs : list Z) :
  Forall is_byte bs -> atob (encode_bytes bs) = Return bs.
Proof.
  intro Hbs. pose proof (sextets_of_range bs Hbs) as Hsx.
  assert (Hplain : Forall (fun c => is_ascii_whitespace c = false /\ c <> pad)
                          (map alphabet_char (sextets_of bs))).
  { apply Forall_forall. intros c Hin. apply in_map_iff in Hin as (v & <- & Hv).
    rewrite Forall_forall in Hsx.
    destruct (alphabet_char_plain v (Hsx v Hv)) as (? & ? & ?). auto. }
  destruct (sextets_of_length bs) as (k & Hk & Hp2 & Hne).
  unfold atob. rewrite encode_bytes_split.
  rewrite remove_whitespace_id.
  2:{ apply Forall_app. split.
      - eapply Forall_impl; [|exact Hplain]. now intros c [? _].
      - destruct (padding_of_cases bs) as [-> | [-> | ->]];
          repeat constructor. }
  rewrite strip_padding_encoded.
  - rewrite sextets_alphabet by assumption.
    rewrite decode_sextets_of by assumption.
    rewrite length_map in *.
    destruct (Z.eqb_spec (Z.of_nat (List.length (sextets_of bs)) mod 4) 1)
      as [E|_]; [|reflexivity].
    exfalso. lia.
  - eapply Forall_impl; [|exact Hplain]. now intros c [_ ?].
  - apply padding_of_cases.
  - destruct Hne as [Hz | Hne].
    + left. now apply length_zero_iff_nil.
    + right. intro E. apply map_eq_nil in E. contradiction.
  - rewrite length_app. lia.
Qed.

End Base64Properties.

(** ** Text codec *)

Section Utf8Properties.
Import Utf8.

(** Decide a comparison of the goal by linear arithmetic. *)
Ltac decide_cmp :=
  match goal with
  | |- context [?a <=? ?b] =>
      first [ replace (a <=? b) with true by (symmetry; apply Z.leb_le; lia)
            | replace (a <=? b) with false by (symmetry; apply Z.leb_gt; lia) ]
  | |- context [?a <? ?b] =>
      first [ replace (a <? b) with true by (symmetry; apply Z.ltb_lt; lia)
            | replace (a <? b) with false by (symmetry; apply Z.ltb_ge; lia) ]
  | |- context [?a =? ?b] =>
      first [ replace (a =? b) with true by (symmetry; apply Z.eqb_eq; lia)
            | replace (a =? b) with false by (symmetry; apply Z.eqb_neq; lia) ]
  end.

Ltac decide_cmps := repeat (decide_cmp; cbv iota beta delta [andb orb negb]).

Lemma scalar_value_cases (cp : Z) :
  scalar_value cp -> 0 <= cp < 0xD800 \/ 0xE000 <= cp < 0x110000.
Proof.
  unfold scalar_value, is_surrogate. intros [Hr Hs].
  destruct (Z.leb_spec 0xD800 cp), (Z.leb_spec cp 0xDFFF);
    simpl in Hs; try discriminate; lia.
Qed.

Lemma handle_lead_2 (b : Z) :
  0xC2 <= b <= 0xDF ->
  handle_byte decoder_start b = ([], expect_more (b mod 32) 1 0x80 0xBF).
Proof.
  intro H. unfold handle_byte, lead_byte. cbn [bytes_needed decoder_start].
  decide_cmps. reflexivity.
Qed.

Lemma handle_lead_3 (b : Z) :
  0xE0 <= b <= 0xEF ->
  handle_byte decoder_start b =
  ([], expect_more (b mod 16) 2 (if b =? 0xE0 then 0xA0 else 0x80)
                                (if b =? 0xED then 0x9F else 0xBF)).
Proof.
  intro H. unfold handle_byte, lead_byte. cbn [bytes_needed decoder_start].
  replace (0 =? 0) with true by reflexivity. cbv iota.
  replace (b <=? 0x7F) with false by (symmetry; apply Z.leb_gt; lia).
  replace (0xC2 <=? b) with true by (symmetry; apply Z.leb_le; lia).
  replace (b <=? 0xDF) with false by (symmetry; apply Z.leb_gt; lia).
  replace (0xE0 <=? b) with true by (symmetry; apply Z.leb_le; lia).
  replace (b <=? 0xEF) with true by (symmetry; apply Z.leb_le; lia).
  reflexivity.
Qed.

Lemma handle_lead_4 (b : Z) :
  0xF0 <= b <= 0xF4 ->
  handle_byte decoder_start b =
  ([], expect_more (b mod 8) 3 (if b =? 0xF0 then 0x90 else 0x80)
                               (if b =? 0xF4 then 0x8F else 0xBF)).
Proof.
  intro H. unfold handle_byte, lead_byte. cbn [bytes_needed decoder_start].
  replace (0 =? 0) with true by reflexivity. cbv iota.
  replace (b <=? 0x7F) with false by (symmetry; apply Z.leb_gt; lia).
  replace (0xC2 <=? b) with true by (symmetry; apply Z.leb_le; lia).
  replace (b <=? 0xDF) with false by (symmetry; apply Z.leb_gt; lia).
  replace (0xE0 <=? b) with true by (symmetry; apply Z.leb_le; lia).
  replace (b <=? 0xEF) with false by (symmetry; apply Z.leb_gt; lia).
  replace (0xF0 <=? b) with true by (symmetry; apply Z.leb_le; lia).
  replace (b <=? 0xF4) with true by (symmetry; apply Z.leb_le; lia).
  reflexivity.
Qed.

Lemma handle_continuation (cp seen needed lo hi b : Z) :
  needed <> 0 -> lo <= b <= hi ->
  handle_byte {| code_point := cp; bytes_seen := seen; bytes_needed := needed;
                 lower_boundary := lo; upper_boundary := hi |} b =
  if seen + 1 =? needed then ([cp * 64 + b mod 64], decoder_start)
  else ([], {| code_point := cp * 64 + b mod 64; bytes_seen := seen + 1;
               bytes_needed := needed;
               lower_boundary := 0x80; upper_boundary := 0xBF |}).
Proof.
  intros Hn Hb. unfold handle_byte.
  cbn [bytes_needed lower_boundary upper_boundary code_point bytes_seen].
  replace (needed =? 0) with false by (symmetry; apply Z.eqb_neq; lia).
  replace (b <? lo) with false by (symmetry; apply Z.ltb_ge; lia).
  replace (hi <? b) with false by (symmetry; apply Z.ltb_ge; lia).
  reflexivity.
Qed.

Lemma utf8_decode_cons (st : decoder) (b : byte) (rest : list byte) :
  utf8_decode st (b :: rest) =
  fst (handle_byte st (byte_to_Z b))
    ++ utf8_decode (snd (handle_byte st (byte_to_Z b))) rest.
Proof. reflexivity. Qed.

(** The decoder reads back the encoding of a scalar value and returns to
    its initial state. *)
Lemma utf8_decode_code_point (cp : Z) (bs : list byte) :
  scalar_value cp ->
  utf8_decode decoder_start (utf8_encode_code_point cp ++ bs) =
  cp :: utf8_decode decoder_start bs.
Proof.
  intro Hs. apply scalar_value_cases in Hs.
  unfold utf8_encode_code_point.
  destruct (Z.ltb_spec cp 0x80) as [H1|H1];
    [|destruct (Z.ltb_spec cp 0x800) as [H2|H2];
      [|destruct (Z.ltb_spec cp 0x10000) as [H3|H3]]];
    cbn [app]; rewrite !utf8_decode_cons; rewrite !byte_to_of_Z by lia.
  - unfold handle_byte, lead_byte. cbn [bytes_needed decoder_start].
    replace (0 =? 0) with true by reflexivity. cbv iota.
    replace (cp <=? 0x7F) with true by (symmetry; apply Z.leb_le; lia).
    reflexivity.
  - rewrite handle_lead_2 by lia. cbn [fst snd app]. unfold expect_more.
    rewrite handle_continuation by lia.
    change (0 + 1 =? 1) with true. cbn [fst snd app].
    f_equal. lia.
  - rewrite handle_lead_3 by lia. cbn [fst snd app]. unfold expect_more.
    rewrite handle_continuation.
    2: discriminate.
    2:{ destruct (Z.eqb_spec (0xE0 + cp / 4096) 0xE0),
          (Z.eqb_spec (0xE0 + cp / 4096) 0xED); lia. }
    change (0 + 1 =? 2) with false. cbn [fst snd app].
    rewrite handle_continuation by lia.
    change (0 + 1 + 1 =? 2) with true. cbn [fst snd app].
    f_equal. lia.
  - rewrite handle_lead_4 by lia. cbn [fst snd app]. unfold expect_more.
    rewrite handle_continuation.
    2: discriminate.
    2:{ destruct (Z.eqb_spec (0xF0 + cp / 262144) 0xF0),
          (Z.eqb_spec (0xF0 + cp / 262144) 0xF4); lia. }
    change (0 + 1 =? 3) with false. cbn [fst snd app].
    rewrite handle_continuation by lia.
    change (0 + 1 + 1 =? 3) with false. cbn [fst snd app].
    rewrite handle_continuation by lia.
    change (0 + 1 + 1 + 1 =? 3) with true. cbn [fst snd app].
    f_equal. lia.
Qed.

Lemma utf8_decode_code_points (cps : list Z) (bs : list byte) :
  Forall scalar_value cps ->
  utf8_decode decoder_start (flat_map utf8_encode_code_point cps ++ bs) =
  cps ++ utf8_decode decoder_start bs.
Proof.
  induction 1 as [|cp cps Hcp _ IH]; [reflexivity|].
  cbn [flat_map]. rewrite <- app_assoc, utf8_decode_code_point by assumption.
  now rewrite IH.
Qed.

End Utf8Properties.

Section Utf16Properties.
Import Utf8.

Lemma StringToCodePoints_encoded (cp : Z) (rest : jsstring) :
  scalar_value cp ->
  StringToCodePoints (UTF16EncodeCodePoint cp ++ rest) =
  cp :: StringToCodePoints rest.
Proof.
  intro Hs. pose proof (scalar_value_cases cp Hs) as Hc.
  unfold UTF16EncodeCodePoint.
  destruct (Z.ltb_spec cp 0x10000) as [Hlt|Hge]; cbn [app StringToCodePoints].
  - unfold is_high_surrogate.
    destruct (Z.leb_spec 0xD800 cp), (Z.leb_spec cp 0xDBFF);
      cbv iota beta delta [andb]; try reflexivity; lia.
  - unfold is_high_surrogate, is_low_surrogate.
    repeat match goal with
           | |- context [?a <=? ?b] =>
               first [ replace (a <=? b) with true by (symmetry; apply Z.leb_le; lia)
                     | replace (a <=? b) with false by (symmetry; apply Z.leb_gt; lia) ]
           end.
    cbv iota beta delta [andb]. f_equal. lia.
Qed.

Lemma StringToCodePoints_CodePointsToString (cps : list Z) :
  Forall scalar_value cps ->
  StringToCodePoints (CodePointsToString cps) = cps.
Proof.
  induction 1 as [|cp cps Hcp _ IH]; [reflexivity|].
  unfold CodePointsToString in *. cbn [flat_map].
  now rewrite StringToCodePoints_encoded, IH.
Qed.

Lemma to_scalar_value_id (cp : Z) : scalar_value cp -> to_scalar_value cp = cp.
Proof.
  intros [_ Hs]. unfold to_scalar_value. now rewrite Hs.
Qed.

Lemma encode_CodePointsToString (cps : list Z) :
  Forall scalar_value cps ->
  encode (CodePointsToString cps) = flat_map utf8_encode_code_point cps.
Proof.
  intro H. unfold encode. rewrite StringToCodePoints_CodePointsToString by exact H.
  induction H as [|cp cps Hcp _ IH]; [reflexivity|].
  cbn [flat_map]. now rewrite to_scalar_value_id, IH.
Qed.

(** A well-formed text that does not start with a byte order mark is read
    back unchanged by the decoder. *)
Lemma decode_encode (s : jsstring) :
  well_formed s -> hd 0 s <> 0xFEFF -> decode (encode s) = s.
Proof.
  intros (cps & Hcps & ->) Hhd. unfold decode.
  rewrite encode_CodePointsToString by exact Hcps.
  rewrite <- (app_nil_r (flat_map _ _)).
  rewrite utf8_decode_code_points by exact Hcps.
  cbn [utf8_decode decoder_start bytes_needed]. simpl (0 =? 0).
  cbv iota. rewrite app_nil_r.
  destruct cps as [|cp cps]; [reflexivity|].
  unfold strip_BOM. destruct (Z.eqb_spec cp 0xFEFF) as [E|_]; [|reflexivity].
  exfalso. apply Hhd. subst cp. reflexivity.
Qed.

Lemma well_formed_app (a b : jsstring) :
  well_formed a -> well_formed b -> well_formed (a ++ b).
Proof.
  intros (ca & Ha & ->) (cb & Hb & ->). exists (ca ++ cb). split.
  - now apply Forall_app.
  - unfold CodePointsToString. now rewrite flat_map_app.
Qed.

Lemma well_formed_nil : well_formed [].
Proof. exists []. split; [constructor | reflexivity]. Qed.

(** Code units outside the surrogate range stand for themselves. *)
Lemma well_formed_plain (s : jsstring) :
  Forall (fun c => 0 <= c < 0xD800 \/ 0xE000 <= c < 0x10000) s -> well_formed s.
Proof.
  induction 1 as [|c s Hc _ IH]; [apply well_formed_nil|].
  change (c :: s) with ([c] ++ s). apply well_formed_app; [|exact IH].
  exists [c]. split.
  - constructor; [|constructor]. unfold scalar_value, is_surrogate. split; [lia|].
    destruct (Z.leb_spec 0xD800 c), (Z.leb_spec c 0xDFFF); simpl; try reflexivity; lia.
  - unfold CodePointsToString, UTF16EncodeCodePoint. cbn [flat_map].
    replace (c <? 0x10000) with true by (symmetry; apply Z.ltb_lt; lia).
    reflexivity.
Qed.

Lemma well_formed_encoded (cp : Z) :
  scalar_value cp -> well_formed (UTF16EncodeCodePoint cp).
Proof.
  intro H. exists [cp]. split; [now constructor|].
  unfold CodePointsToString. cbn [flat_map]. now rewrite app_nil_r.
Qed.

End Utf16Properties.

(** ** JSON: string literals *)

Section QuoteProperties.
Import Utf8 JSON.

Lemma StringToCodePoints_ind (Q : jsstring -> Prop) :
  Q [] ->
  (forall c d rest,
      is_high_surrogate c = true -> is_low_surrogate d = true ->
      StringToCodePoints (c :: d :: rest) =
        (0x10000 + (c - 0xD800) * 0x400 + (d - 0xDC00)) :: StringToCodePoints rest ->
      Q rest -> Q (c :: d :: rest)) ->
  (forall c rest,
      StringToCodePoints (c :: rest) = c :: StringToCodePoints rest ->
      Q rest -> Q (c :: rest)) ->
  forall s, Q s.
Proof.
  intros H0 Hpair Hone s.
  assert (H : forall n s, (List.length s <= n)%nat -> Q s).
  { clear s. induction n as [|n IH]; intros s Hlen.
    - destruct s; [exact H0 | simpl in Hlen; lia].
    - destruct s as [|c rest]; [exact H0|].
      simpl in Hlen.
      destruct (is_high_surrogate c) eqn:Ehigh.
      + destruct rest as [|d rest'].
        * apply Hone; [|exact H0]. simpl. now rewrite Ehigh.
        * destruct (is_low_surrogate d) eqn:Elow.
          -- apply Hpair; try assumption.
             ++ cbn [StringToCodePoints]. now rewrite Ehigh, Elow.
             ++ apply IH. simpl in Hlen. lia.
          -- apply Hone; [|apply IH; lia].
             cbn [StringToCodePoints]. now rewrite Ehigh, Elow.
      + apply Hone; [|apply IH; lia].
        cbn [StringToCodePoints]. now rewrite Ehigh. }
  apply (H (List.length s)). lia.
Qed.

Lemma hex_digit_value_hex_digit (v : Z) :
  0 <= v < 16 -> hex_digit_value (hex_digit v) = Some v.
Proof.
  intro Hv. unfold hex_digit.
  destruct (Z.ltb_spec v 10); unfold hex_digit_value;
    repeat (match goal with
            | |- context [?a <=? ?b] => destruct (Z.leb_spec a b)
            end; cbv iota beta delta [andb] in *);
    try (f_equal; lia); exfalso; lia.
Qed.

Lemma parse_string_chars_plain (c : Z) (tail : jsstring) :
  c <> 34 -> c <> 92 -> 32 <= c ->
  parse_string_chars (c :: tail) = cons_char c (parse_string_chars tail).
Proof.
  intros H1 H2 H3. cbn [parse_string_chars].
  destruct (Z.eqb_spec c 34); [contradiction|].
  destruct (Z.eqb_spec c 92); [contradiction|].
  destruct (Z.ltb_spec c 32); [lia | reflexivity].
Qed.

Lemma parse_string_chars_unicode (c : Z) (tail : jsstring) :
  0 <= c < 65536 ->
  parse_string_chars (UnicodeEscape c ++ tail) =
  cons_char c (parse_string_chars tail).
Proof.
  intro Hc. unfold UnicodeEscape. cbn [app parse_string_chars].
  change (92 =? 34) with false. change (92 =? 92) with true.
  change (117 =? 117) with true. cbv iota.
  rewrite !hex_digit_value_hex_digit by lia.
  f_equal. lia.
Qed.

(** One code unit of a string, as it is written by [QuoteJSONString] when
    it is not the first half of a surrogate pair. *)
Lemma parse_string_chars_quoted_unit (c : Z) (tail : jsstring) :
  code_unit c ->
  parse_string_chars (quote_code_point c ++ tail) =
  cons_char c (parse_string_chars tail).
Proof.
  unfold code_unit. intro Hc. unfold quote_code_point.
  destruct (Z.eqb_spec c 8) as [->|N8]; [reflexivity|].
  destruct (Z.eqb_spec c 9) as [->|N9]; [reflexivity|].
  destruct (Z.eqb_spec c 10) as [->|N10]; [reflexivity|].
  destruct (Z.eqb_spec c 12) as [->|N12]; [reflexivity|].
  destruct (Z.eqb_spec c 13) as [->|N13]; [reflexivity|].
  destruct (Z.eqb_spec c 34) as [->|N34]; [reflexivity|].
  destruct (Z.eqb_spec c 92) as [->|N92]; [reflexivity|].
  destruct (Z.ltb_spec c 32) as [Hlow|Hge].
  - cbv iota beta delta [orb]. now apply parse_string_chars_unicode.
  - cbv iota beta delta [orb].
    destruct (is_surrogate c); [now apply parse_string_chars_unicode|].
    unfold UTF16EncodeCodePoint.
    replace (c <? 0x10000) with true by (symmetry; apply Z.ltb_lt; lia).
    cbn [app]. now apply parse_string_chars_plain.
Qed.

Lemma quote_code_point_pair (c d : Z) :
  is_high_surrogate c = true -> is_low_surrogate d = true ->
  quote_code_point (0x10000 + (c - 0xD800) * 0x400 + (d - 0xDC00)) = [c; d] /\
  scalar_value (0x10000 + (c - 0xD800) * 0x400 + (d - 0xDC00)).
Proof.
  unfold is_high_surrogate, is_low_surrogate. intros Hc Hd.
  apply andb_true_iff in Hc as [Hc1 Hc2]. apply andb_true_iff in Hd as [Hd1 Hd2].
  apply Z.leb_le in Hc1, Hc2, Hd1, Hd2.
  set (cp := 0x10000 + (c - 0xD800) * 0x400 + (d - 0xDC00)).
  assert (Hcp : 0x10000 <= cp < 0x110000) by (subst cp; lia).
  assert (Hsur : is_surrogate cp = false).
  { unfold is_surrogate. destruct (Z.leb_spec 0xD800 cp), (Z.leb_spec cp 0xDFFF);
      simpl; try reflexivity; lia. }
  split; [|split; [lia | exact Hsur]].
  unfold quote_code_point. rewrite Hsur.
  repeat match goal with
         | |- context [cp =? ?b] =>
             replace (cp =? b) with false by (symmetry; apply Z.eqb_neq; lia)
         end.
  replace (cp <? 32) with false by (symmetry; apply Z.ltb_ge; lia).
  cbv iota beta delta [orb]. unfold UTF16EncodeCodePoint.
  replace (cp <? 0x10000) with false by (symmetry; apply Z.ltb_ge; lia).
  subst cp. f_equal; [lia|]. f_equal. lia.
Qed.

(** The parser reads back the characters written by [QuoteJSONString]. *)
Lemma parse_string_chars_quote (s rest : jsstring) :
  jsstring_ok s ->
  parse_string_chars
    (flat_map quote_code_point (StringToCodePoints s) ++ 34 :: rest) =
  Some (s, rest).
Proof.
  unfold jsstring_ok.
  induction s as [| c d s' Hc Hd E IH | c s' E IH] using StringToCodePoints_ind;
    intro Hok.
  - reflexivity.
  - inversion Hok as [|? ? Hcu Hok']; subst. inversion Hok' as [|? ? Hdu Hok'']; subst.
    rewrite E. cbn [flat_map].
    destruct (quote_code_point_pair c d Hc Hd) as [-> _].
    cbn [app].
    unfold is_high_surrogate in Hc. unfold is_low_surrogate in Hd.
    apply andb_true_iff in Hc as [Hc1 Hc2]. apply andb_true_iff in Hd as [Hd1 Hd2].
    apply Z.leb_le in Hc1, Hc2, Hd1, Hd2.
    rewrite parse_string_chars_plain by lia.
    rewrite parse_string_chars_plain by lia.
    rewrite IH by assumption. reflexivity.
  - inversion Hok as [|? ? Hcu Hok']; subst.
    rewrite E. cbn [flat_map]. rewrite <- app_assoc.
    rewrite parse_string_chars_quoted_unit by assumption.
    rewrite IH by assumption. reflexivity.
Qed.

Lemma StringToCodePoints_range (s : jsstring) :
  jsstring_ok s ->
  Forall (fun cp => 0 <= cp < 0x110000) (StringToCodePoints s).
Proof.
  unfold jsstring_ok, code_unit.
  induction s as [| c d s' Hc Hd E IH | c s' E IH] using StringToCodePoints_ind;
    intro Hok.
  - constructor.
  - inversion Hok as [|? ? Hcu Hok']; subst. inversion Hok' as [|? ? Hdu Hok'']; subst.
    rewrite E. constructor; [|now apply IH].
    destruct (quote_code_point_pair c d Hc Hd) as [_ [Hr _]]. exact Hr.
  - inversion Hok as [|? ? Hcu Hok']; subst.
    rewrite E. constructor; [lia | now apply IH].
Qed.

Lemma ascii_well_formed (s : jsstring) : ascii_text s -> well_formed s.
Proof.
  intro H. apply well_formed_plain. eapply Forall_impl; [|exact H].
  simpl. intros c Hc. lia.
Qed.

Lemma quote_code_point_well_formed (cp : Z) :
  0 <= cp < 0x110000 -> well_formed (quote_code_point cp).
Proof.
  intro Hcp. unfold quote_code_point.
  repeat match goal with
         | |- context [if cp =? ?b then _ else _] =>
             destruct (Z.eqb_spec cp b);
             [apply ascii_well_formed; repeat constructor; lia|]
         end.
  destruct ((cp <? 32) || is_surrogate cp) eqn:Eesc.
  - apply ascii_well_formed. unfold UnicodeEscape.
    assert (Hh : forall v, 0 <= hex_digit v < 128 \/ ~ 0 <= v < 16).
    { intro v. unfold hex_digit. destruct (Z.ltb_spec v 10); lia. }
    apply orb_true_iff in Eesc.
    assert (Hc : 0 <= cp < 65536).
    { destruct Eesc as [E|E]; [apply Z.ltb_lt in E; lia|].
      unfold is_surrogate in E. apply andb_true_iff in E as [E1 E2].
      apply Z.leb_le in E1, E2. lia. }
    repeat constructor; try lia;
      match goal with
      | |- _ <= hex_digit ?v => destruct (Hh v); lia
      | |- hex_digit ?v < _ => destruct (Hh v); lia
      end.
  - apply orb_false_iff in Eesc as [_ Es].
    apply well_formed_encoded. split; assumption.
Qed.

Lemma QuoteJSONString_well_formed (s : jsstring) :
  jsstring_ok s -> well_formed (QuoteJSONString s).
Proof.
  intro Hok. unfold QuoteJSONString.
  apply well_formed_app; [apply ascii_well_formed; repeat constructor; lia|].
  apply well_formed_app; [|apply ascii_well_formed; repeat constructor; lia].
  pose proof (StringToCodePoints_range s Hok) as Hr.
  induction Hr as [|cp cps Hcp _ IH]; [apply well_formed_nil|].
  cbn [flat_map]. apply well_formed_app; [|exact IH].
  now apply quote_code_point_well_formed.
Qed.

End QuoteProperties.

(** ** JSON: the parser reads back what the serialiser writes *)

Section JsonRoundTrip.
Import JSON.
Context {P : Platform}.

Lemma JSValue_nested_ind (Q : JSValue -> Prop) :
  Q JNull -> (forall b, Q (JBool b)) -> (forall m e, Q (JNumber m e)) ->
  (forall s, Q (JString s)) ->
  (forall l, Forall Q l -> Q (JArray l)) ->
  (forall ms, Forall (fun kv => Q (snd kv)) ms -> Q (JObject ms)) ->
  forall v, Q v.
Proof.
  intros Hnull Hbool Hnum Hstr Harr Hobj.
  fix IH 1. intros [| b | m e | s | l | ms].
  - exact Hnull.
  - apply Hbool.
  - apply Hnum.
  - apply Hstr.
  - apply Harr. induction l as [|x l IHl]; constructor; [apply IH | exact IHl].
  - apply Hobj. induction ms as [|[k x] ms IHms]; constructor;
      [apply IH | exact IHms].
Qed.

Lemma skip_whitespace_app (w s : jsstring) :
  whitespace_text w -> skip_whitespace (w ++ s) = skip_whitespace s.
Proof.
  induction 1 as [|c w Hc _ IH]; [reflexivity|].
  cbn [app skip_whitespace]. now rewrite Hc.
Qed.

Lemma skip_whitespace_token (c : Z) (r : jsstring) :
  is_whitespace c = false -> skip_whitespace (c :: r) = c :: r.
Proof. intro H. cbn [skip_whitespace]. now rewrite H. Qed.

Lemma skip_whitespace_value (w s rest : jsstring) :
  whitespace_text w -> starts_value s ->
  skip_whitespace (w ++ s ++ rest) = s ++ rest.
Proof.
  intros Hw (c & r & -> & Hc & _). rewrite skip_whitespace_app by exact Hw.
  now apply skip_whitespace_token.
Qed.

Lemma join_separated (separator closing p : jsstring) (ps : list jsstring) :
  join separator (p :: ps) ++ closing = p ++ separated separator closing ps.
Proof.
  revert p. induction ps as [|q ps IH]; intro p.
  - reflexivity.
  - cbn [join separated]. rewrite <- !app_assoc. f_equal. f_equal. apply IH.
Qed.

Lemma open_ws_whitespace (gap indent : jsstring) :
  whitespace_text gap -> whitespace_text indent ->
  whitespace_text (open_ws gap indent).
Proof.
  intros Hg Hi. unfold open_ws. destruct gap as [|g gap]; [constructor|].
  apply Forall_app. split; [repeat constructor|]. now apply Forall_app.
Qed.

Lemma close_ws_whitespace (gap indent : jsstring) :
  whitespace_text indent -> whitespace_text (close_ws gap indent).
Proof.
  intros Hi. unfold close_ws. destruct gap as [|g gap]; [constructor|].
  apply Forall_app. split; [repeat constructor | assumption].
Qed.

Lemma colon_ws_whitespace (gap : jsstring) : whitespace_text (colon_ws gap).
Proof. unfold colon_ws. destruct gap; repeat constructor. Qed.

Lemma serialize_array (gap indent : jsstring) (v : JSValue) (l : list JSValue)
                      (rest : jsstring) :
  serialize gap indent (JArray (v :: l)) ++ rest =
  91 :: open_ws gap indent ++ serialize gap (indent ++ gap) v
     ++ separated (44 :: open_ws gap indent)
                  (close_ws gap indent ++ 93 :: rest)
                  (map (serialize gap (indent ++ gap)) l).
Proof.
  cbn [serialize map]. unfold open_ws, close_ws.
  destruct gap as [|g gap].
  - cbn [app]. f_equal. rewrite <- join_separated, <- app_assoc. reflexivity.
  - cbn [app]. f_equal. rewrite <- join_separated.
    rewrite <- !app_assoc. reflexivity.
Qed.

Lemma serialize_object (gap indent : jsstring) (kv : jsstring * JSValue)
                       (ms : list (jsstring * JSValue)) (rest : jsstring) :
  serialize gap indent (JObject (kv :: ms)) ++ rest =
  123 :: open_ws gap indent ++ member_text gap (indent ++ gap) kv
      ++ separated (44 :: open_ws gap indent)
                   (close_ws gap indent ++ 125 :: rest)
                   (map (member_text gap (indent ++ gap)) ms).
Proof.
  cbn [serialize map]. unfold open_ws, close_ws, member_text, colon_ws.
  destruct gap as [|g gap].
  - cbn [app]. f_equal. rewrite <- join_separated, <- app_assoc. reflexivity.
  - cbn [app]. f_equal. rewrite <- join_separated.
    rewrite <- !app_assoc. reflexivity.
Qed.

(** *** Numbers *)

Lemma digits_value_snoc (ds : list Z) (d : Z) :
  digits_value (ds ++ [d]) = digits_value ds * 10 + d.
Proof. unfold digits_value. now rewrite fold_left_app. Qed.

Lemma decimal_digits_spec (fuel : nat) (n : Z) (acc : jsstring) :
  0 <= n < 10 ^ Z.of_nat fuel -> fuel <> 0%nat ->
  exists d ds,
    decimal_digits fuel n acc = map (Z.add 48) (d :: ds) ++ acc /\
    Forall (fun x => 0 <= x <= 9) (d :: ds) /\
    digits_value (d :: ds) = n /\
    (n = 0 -> d :: ds = [0]) /\ (0 < n -> d <> 0).
Proof.
  revert n acc. induction fuel as [|fuel IH]; intros n acc Hn Hf; [contradiction|].
  cbn [decimal_digits]. destruct (Z.ltb_spec n 10) as [Hlt|Hge].
  - exists n, []. split; [reflexivity|]. split; [repeat constructor; lia|].
    split; [unfold digits_value; cbn [fold_left]; lia|].
    split; [intros ->; reflexivity | intros; lia].
  - rewrite Nat2Z.inj_succ, Z.pow_succ_r in Hn by lia.
    assert (Hfuel : fuel <> 0%nat).
    { intros ->. change (10 ^ Z.of_nat 0) with 1 in Hn. lia. }
    destruct (IH (n / 10) ((48 + n mod 10) :: acc)) as (d & ds & E & Hall & Hval & _ & Hd);
      [lia | exact Hfuel |].
    exists d, (ds ++ [n mod 10]). split; [|split; [|split; [|split]]].
    + rewrite E. cbn [map app]. rewrite map_app, <- app_assoc. reflexivity.
    + change (d :: ds ++ [n mod 10]) with ((d :: ds) ++ [n mod 10]).
      apply Forall_app. split; [exact Hall|]. repeat constructor; lia.
    + change (d :: ds ++ [n mod 10]) with ((d :: ds) ++ [n mod 10]).
      rewrite digits_value_snoc, Hval. lia.
    + intro. lia.
    + intros _. apply Hd. lia.
Qed.

Lemma decimal_spec (n : Z) :
  0 <= n ->
  exists d ds,
    decimal n = map (Z.add 48) (d :: ds) /\
    Forall (fun x => 0 <= x <= 9) (d :: ds) /\
    digits_value (d :: ds) = n /\
    (n = 0 -> d :: ds = [0]) /\ (0 < n -> d <> 0).
Proof.
  intro Hn. unfold decimal.
  destruct (decimal_digits_spec (S (Z.to_nat (Z.log2 n))) n [])
    as (d & ds & E & H); [|discriminate|].
  - split; [exact Hn|].
    rewrite Nat2Z.inj_succ, Z2Nat.id by apply Z.log2_nonneg.
    destruct (Z.eq_dec n 0) as [->|Hnz]; [reflexivity|].
    apply Z.lt_le_trans with (2 ^ Z.succ (Z.log2 n)).
    + apply Z.log2_spec. lia.
    + apply Z.pow_le_mono_l. lia.
  - exists d, ds. rewrite app_nil_r in E. now split.
Qed.

Lemma delimited_not_number_char (rest : jsstring) :
  delimited rest -> not_number_char rest.
Proof.
  destruct rest as [|c r]; [intros; exact I|]. unfold delimited, not_number_char.
  unfold is_whitespace, is_digit. intro H.
  assert (Hc : c = 32 \/ c = 9 \/ c = 10 \/ c = 13 \/ c = 44 \/ c = 93 \/ c = 125).
  { destruct H as [H|H]; [|lia].
    repeat (apply orb_true_iff in H; destruct H as [H|H]);
      apply Z.eqb_eq in H; lia. }
  repeat split; lia.
Qed.

Lemma span_digits_digits (ds : list Z) (rest : jsstring) :
  Forall (fun x => 0 <= x <= 9) ds -> not_number_char rest ->
  span_digits (map (Z.add 48) ds ++ rest) = (ds, rest).
Proof.
  intros Hds Hrest. induction Hds as [|d ds Hd _ IH].
  - destruct rest as [|c r]; [reflexivity|].
    cbn [map app span_digits]. destruct Hrest as [-> _]. reflexivity.
  - cbn [map app span_digits]. unfold is_digit.
    replace (48 <=? 48 + d) with true by (symmetry; apply Z.leb_le; lia).
    replace (48 + d <=? 57) with true by (symmetry; apply Z.leb_le; lia).
    cbv iota beta delta [andb]. rewrite IH. cbn [fst snd].
    f_equal. f_equal. lia.
Qed.

Lemma parse_number_decimal (n : Z) (rest : jsstring) :
  0 <= n -> not_number_char rest ->
  parse_number (decimal n ++ rest) = Some (JNumber n 0, rest) /\
  exists c r, decimal n = c :: r /\ 48 <= c <= 57.
Proof.
  intros Hn Hrest.
  destruct (decimal_spec n Hn) as (d & ds & E & Hall & Hval & Hzero & Hpos).
  assert (Hd : 0 <= d <= 9) by (inversion Hall; assumption).
  split; [|rewrite E; exists (48 + d), (map (Z.add 48) ds); split;
            [reflexivity | lia]].
  assert (Hfrac : parse_fraction rest = Some ([], rest)).
  { destruct rest as [|c r]; [reflexivity|]. cbn [parse_fraction].
    destruct Hrest as (_ & H46 & _).
    destruct (Z.eqb_spec c 46); [contradiction | reflexivity]. }
  assert (Hexp : parse_exponent rest = Some (0, rest)).
  { destruct rest as [|c r]; [reflexivity|]. cbn [parse_exponent].
    destruct Hrest as (_ & _ & H101 & H69).
    destruct (Z.eqb_spec c 101); [contradiction|].
    destruct (Z.eqb_spec c 69); [contradiction | reflexivity]. }
  unfold parse_number. rewrite E. cbn [map app].
  replace (48 + d =? 45) with false by (symmetry; apply Z.eqb_neq; lia).
  unfold parse_int_part.
  destruct (Z.eqb_spec (48 + d) 48) as [E0|N0].
  - assert (d = 0) by lia. subst d.
    destruct (Z.eq_dec n 0) as [->|Hnz].
    + specialize (Hzero eq_refl). injection Hzero as ->.
      cbn [map app]. rewrite Hfrac, Hexp. reflexivity.
    + exfalso. apply Hpos; [lia | reflexivity].
  - change (48 + d :: map (Z.add 48) ds ++ rest)
      with (map (Z.add 48) (d :: ds) ++ rest).
    rewrite span_digits_digits by assumption.
    unfold nonempty_digits. cbn [fst].
    rewrite Hfrac, Hexp. rewrite app_nil_r, Hval. reflexivity.
Qed.

Lemma serialize_number (gap indent : jsstring) (m : Z) :
  0 <= m < 2 ^ 53 -> serialize gap indent (JNumber m 0) = decimal m.
Proof.
  intro Hm.
  assert (Hbig : 2 ^ 53 < 2 ^ 1024 - 2 ^ 970) by (vm_compute; reflexivity).
  cbn [serialize]. unfold Number_toString, rounds_to_infinity, integer_value.
  change (0 <=? 0) with true. cbv iota. change (10 ^ 0) with 1.
  replace (2 ^ 1024 - 2 ^ 970 <=? Z.abs m * 1) with false
    by (symmetry; apply Z.leb_gt; lia).
  replace (Z.abs (m * 1) <? 2 ^ 53) with true
    by (symmetry; apply Z.ltb_lt; lia).
  replace (m * 1 <? 0) with false by (symmetry; apply Z.ltb_ge; lia).
  replace (Z.abs (m * 1)) with m by lia. reflexivity.
Qed.

(** *** Values *)

Lemma parse_value_digit (fuel : nat) (c : Z) (r : jsstring) :
  48 <= c <= 57 -> parse_value (S fuel) (c :: r) = parse_number (c :: r).
Proof.
  intro Hc. cbn [parse_value].
  replace (c =? 34) with false by lia.
  replace (c =? 123) with false by lia.
  replace (c =? 91) with false by lia.
  unfold parse_literal. cbn [str map list_ascii_of_string strip_prefix].
  change (Z.of_N (N_of_ascii "t")) with 116.
  change (Z.of_N (N_of_ascii "f")) with 102.
  change (Z.of_N (N_of_ascii "n")) with 110.
  replace (116 =? c) with false by lia.
  replace (102 =? c) with false by lia.
  replace (110 =? c) with false by lia.
  reflexivity.
Qed.

Lemma parse_value_string (fuel : nat) (s rest : jsstring) :
  jsstring_ok s ->
  parse_value (S fuel) (QuoteJSONString s ++ rest) = Some (JString s, rest).
Proof.
  intro Hs. unfold QuoteJSONString. cbn [app]. rewrite <- app_assoc.
  cbn [parse_value app]. change (34 =? 34) with true. cbv iota.
  now rewrite parse_string_chars_quote.
Qed.

Lemma parse_value_array (fuel : nat) (w : jsstring) (c : Z) (r : jsstring) :
  whitespace_text w -> is_whitespace c = false -> c <> 93 ->
  parse_value (S fuel) (91 :: w ++ c :: r) =
  match parse_value fuel (c :: r) with
  | Some (first, rest) =>
      match parse_more_elements fuel rest with
      | Some (more, rest) => Some (JArray (first :: more), rest)
      | None => None
      end
  | None => None
  end.
Proof.
  intros Hw Hc H93. cbn [parse_value].
  change (91 =? 34) with false. change (91 =? 123) with false.
  change (91 =? 91) with true. cbv iota.
  rewrite skip_whitespace_app, skip_whitespace_token by assumption.
  replace (c =? 93) with false by lia. reflexivity.
Qed.

Lemma parse_value_object (fuel : nat) (w : jsstring) (c : Z) (r : jsstring) :
  whitespace_text w -> is_whitespace c = false -> c <> 125 ->
  parse_value (S fuel) (123 :: w ++ c :: r) =
  match parse_members fuel (c :: r) with
  | Some (members, rest) => Some (JObject members, rest)
  | None => None
  end.
Proof.
  intros Hw Hc H125. cbn [parse_value].
  change (123 =? 34) with false. change (123 =? 123) with true. cbv iota.
  rewrite skip_whitespace_app, skip_whitespace_token by assumption.
  replace (c =? 125) with false by lia. reflexivity.
Qed.

Lemma parse_more_elements_close (fuel : nat) (w rest : jsstring) :
  whitespace_text w ->
  parse_more_elements (S fuel) (w ++ 93 :: rest) = Some ([], rest).
Proof.
  intro Hw. cbn [parse_more_elements].
  rewrite skip_whitespace_app, skip_whitespace_token by (assumption || reflexivity).
  reflexivity.
Qed.

Lemma parse_more_elements_comma (fuel : nat) (s : jsstring) :
  parse_more_elements (S fuel) (44 :: s) =
  match parse_value fuel (skip_whitespace s) with
  | None => None
  | Some (value, rest) =>
      match parse_more_elements fuel rest with
      | Some (elements, rest) => Some (value :: elements, rest)
      | None => None
      end
  end.
Proof. reflexivity. Qed.

Lemma parse_members_member (fuel : nat) (key tail : jsstring) :
  jsstring_ok key ->
  parse_members (S fuel) (QuoteJSONString key ++ 58 :: tail) =
  match parse_value fuel (skip_whitespace tail) with
  | None => None
  | Some (value, rest) =>
      match skip_whitespace rest with
      | [] => None
      | d :: rest =>
          if d =? 125 then Some ([(key, value)], rest)
          else if d =? 44 then
            match parse_members fuel (skip_whitespace rest) with
            | Some (members, rest) => Some ((key, value) :: members, rest)
            | None => None
            end
          else None
      end
  end.
Proof.
  intro Hk. unfold QuoteJSONString. cbn [app]. rewrite <- app_assoc.
  cbn [parse_members app]. change (34 =? 34) with true. cbv iota.
  rewrite parse_string_chars_quote by assumption.
  rewrite skip_whitespace_token by reflexivity.
  change (58 =? 58) with true. reflexivity.
Qed.

Lemma delimited_separated (w1 w2 : jsstring) (c : Z) (rest : jsstring)
                          (parts : list jsstring) :
  whitespace_text w2 -> c = 93 \/ c = 125 ->
  delimited (separated (44 :: w1) (w2 ++ c :: rest) parts).
Proof.
  intros Hw Hc. destruct parts as [|p ps]; cbn [separated].
  - destruct Hw as [|x w Hx Hw]; cbn [app delimited]; [lia | now left].
  - cbn [app delimited]. right. now left.
Qed.

Lemma serialize_starts_value (gap indent : jsstring) (v : JSValue) :
  printable v -> starts_value (serialize gap indent v).
Proof.
  unfold starts_value. intro Hp. inversion Hp as [| b | m Hm | s Hs | l Hl | ms Hms]; subst.
  - eexists _, _. split; [reflexivity|]. repeat split; (discriminate || reflexivity).
  - destruct b; (eexists _, _; split; [reflexivity|]; repeat split; (discriminate || reflexivity)).
  - rewrite serialize_number by assumption.
    destruct (parse_number_decimal m [] ltac:(lia) I) as [_ (c & r & E & Hc)].
    exists c, r. split; [exact E|]. unfold is_whitespace. repeat split; lia.
  - eexists _, _. split; [reflexivity|]. repeat split; (discriminate || reflexivity).
  - destruct l as [|x l].
    + eexists _, _. split; [reflexivity|]. repeat split; (discriminate || reflexivity).
    + pose proof (serialize_array gap indent x l []) as E.
      rewrite app_nil_r in E. rewrite E.
      eexists _, _. split; [reflexivity|]. repeat split; (discriminate || reflexivity).
  - destruct ms as [|kv ms].
    + eexists _, _. split; [reflexivity|]. repeat split; (discriminate || reflexivity).
    + pose proof (serialize_object gap indent kv ms []) as E.
      rewrite app_nil_r in E. rewrite E.
      eexists _, _. split; [reflexivity|]. repeat split; (discriminate || reflexivity).
Qed.

Lemma member_text_starts_value (gap indent : jsstring) (kv : jsstring * JSValue) :
  starts_value (member_text gap indent kv).
Proof.
  unfold starts_value, member_text, QuoteJSONString.
  eexists _, _. split; [reflexivity|]. repeat split; (discriminate || reflexivity).
Qed.

Lemma parse_more_elements_serialize (gap indent rest : jsstring)
                                    (l : list JSValue) :
  whitespace_text gap -> whitespace_text indent ->
  Forall printable l -> Forall reads_back l ->
  forall fuel,
    let tail := separated (44 :: open_ws gap indent)
                          (close_ws gap indent ++ 93 :: rest)
                          (map (serialize gap (indent ++ gap)) l) in
    (List.length tail < fuel)%nat ->
    parse_more_elements fuel tail = Some (l, rest).
Proof.
  intros Hg Hi Hp IH. induction l as [|x l IHl]; intros fuel tail Hf; subst tail.
  - destruct fuel as [|fuel]; [simpl in Hf; lia|]. cbn [map separated].
    apply parse_more_elements_close. now apply close_ws_whitespace.
  - inversion Hp as [|? ? Hpx Hpl]; subst. inversion IH as [|? ? IHx IHrest]; subst.
    destruct fuel as [|fuel]; [simpl in Hf; lia|].
    cbn [map separated] in Hf |- *. cbn [app] in Hf |- *.
    rewrite parse_more_elements_comma.
    cbn [List.length] in Hf. rewrite !length_app in Hf.
    rewrite skip_whitespace_value
      by (try apply open_ws_whitespace; try apply serialize_starts_value; assumption).
    rewrite IHx; try assumption.
    + rewrite IHl; [reflexivity | assumption | assumption | lia].
    + now apply Forall_app.
    + apply delimited_separated; [now apply close_ws_whitespace | now left].
    + rewrite ?length_app in *. cbn [List.length] in *. rewrite ?length_app in *. lia.
Qed.

Lemma member_text_app (gap indent key : jsstring) (v : JSValue) (tail : jsstring) :
  member_text gap indent (key, v) ++ tail =
  QuoteJSONString key ++ 58 :: colon_ws gap ++ serialize gap indent v ++ tail.
Proof.
  unfold member_text. cbn [fst snd]. rewrite <- app_assoc. cbn [app].
  now rewrite <- app_assoc.
Qed.

Lemma parse_members_serialize (gap indent rest : jsstring)
                              (ms : list (jsstring * JSValue)) :
  whitespace_text gap -> whitespace_text indent ->
  Forall (fun kv => jsstring_ok (fst kv) /\ printable (snd kv)) ms ->
  Forall (fun kv => reads_back (snd kv)) ms ->
  forall kv fuel,
    jsstring_ok (fst kv) -> printable (snd kv) -> reads_back (snd kv) ->
    let text := member_text gap (indent ++ gap) kv
                  ++ separated (44 :: open_ws gap indent)
                               (close_ws gap indent ++ 125 :: rest)
                               (map (member_text gap (indent ++ gap)) ms) in
    (List.length text < fuel)%nat ->
    parse_members fuel text = Some (kv :: ms, rest).
Proof.
  intros Hg Hi Hp IH. induction ms as [|kv' ms IHms];
    intros [k v] fuel Hk Hv IHv text Hf; subst text; cbn [fst snd] in *.
  - destruct fuel as [|fuel]; [simpl in Hf; lia|].
    cbn [map separated] in Hf |- *. rewrite member_text_app in Hf |- *.
    rewrite !length_app in Hf. cbn [List.length] in Hf. rewrite !length_app in Hf.
    rewrite parse_members_member by assumption.
    rewrite skip_whitespace_value
      by (try apply colon_ws_whitespace; try apply serialize_starts_value; assumption).
    rewrite IHv; try assumption.
    + rewrite skip_whitespace_app, skip_whitespace_token
        by (try apply close_ws_whitespace; try reflexivity; assumption).
      reflexivity.
    + now apply Forall_app.
    + apply (delimited_separated (open_ws gap indent) _ 125 rest []);
        [now apply close_ws_whitespace | now right].
    + rewrite ?length_app in *. cbn [List.length] in *. rewrite ?length_app in *. lia.
  - inversion Hp as [|? ? [Hk' Hv'] Hpl]; subst.
    inversion IH as [|? ? IHv' IHrest]; subst.
    destruct fuel as [|fuel]; [simpl in Hf; lia|].
    cbn [map separated] in Hf |- *. rewrite member_text_app in Hf |- *.
    cbn [app] in Hf |- *.
    rewrite !length_app in Hf. cbn [List.length] in Hf. rewrite !length_app in Hf.
    rewrite parse_members_member by assumption.
    rewrite skip_whitespace_value
      by (try apply colon_ws_whitespace; try apply serialize_starts_value; assumption).
    rewrite IHv; try assumption.
    + rewrite skip_whitespace_token by reflexivity.
      change (44 =? 125) with false. change (44 =? 44) with true. cbv iota.
      rewrite skip_whitespace_value
        by (try apply open_ws_whitespace; try apply member_text_starts_value;
            assumption).
      rewrite (IHms Hpl IHrest kv' fuel); try assumption; [reflexivity|].
      rewrite ?length_app in *. cbn [List.length] in *. rewrite ?length_app in *. lia.
    + now apply Forall_app.
    + apply (delimited_separated (open_ws gap indent) _ 125 rest
               (member_text gap (indent ++ gap) kv'
                  :: map (member_text gap (indent ++ gap)) ms));
        [now apply close_ws_whitespace | now right].
    + rewrite ?length_app in *. cbn [List.length] in *. rewrite ?length_app in *. lia.
Qed.

(** The parser, given more fuel than the text is long, reads back the
    serialisation of a printable value, with or without indentation. *)
Lemma parse_value_serialize (v : JSValue) :
  printable v -> reads_back v.
Proof.
  induction v as [| b | m e | s | l IH | ms IH] using JSValue_nested_ind;
    intros Hp gap indent rest fuel Hg Hi Hd Hf;
    (destruct fuel as [|fuel]; [lia|]).
  - reflexivity.
  - destruct b; reflexivity.
  - inversion Hp as [| | m' Hm | | |]; subst.
    rewrite serialize_number by assumption.
    destruct (parse_number_decimal m rest ltac:(lia)
                (delimited_not_number_char rest Hd)) as [Hn (c & r & E & Hc)].
    rewrite <- Hn. rewrite E. cbn [app]. now apply parse_value_digit.
  - inversion Hp; subst. now apply parse_value_string.
  - inversion Hp as [| | | | l' Hl |]; subst.
    assert (IH' : Forall reads_back l).
    { rewrite Forall_forall in *. intros x Hx. apply IH; auto. }
    destruct l as [|x l]; [reflexivity|].
    rewrite serialize_array in Hf |- *.
    inversion Hl as [|? ? Hpx Hpl]; subst. inversion IH' as [|? ? IHx IHl]; subst.
    destruct (serialize_starts_value gap (indent ++ gap) x Hpx)
      as (c & r & E & Hc & H93 & _).
    cbn [List.length] in Hf. rewrite !length_app in Hf.
    rewrite E. cbn [app].
    rewrite parse_value_array
      by (try apply open_ws_whitespace; assumption).
    change (c :: r ++ ?t) with ((c :: r) ++ t). rewrite <- E.
    rewrite IHx.
    + rewrite parse_more_elements_serialize; try assumption; [reflexivity | lia].
    + assumption.
    + now apply Forall_app.
    + apply delimited_separated; [now apply close_ws_whitespace | now left].
    + rewrite ?length_app in *. cbn [List.length] in *. rewrite ?length_app in *. lia.
  - inversion Hp as [| | | | | ms' Hms]; subst.
    assert (IH' : Forall (fun kv => reads_back (snd kv)) ms).
    { rewrite Forall_forall in *. intros kv Hkv. apply IH; [exact Hkv|].
      apply (Hms kv Hkv). }
    destruct ms as [|kv ms]; [reflexivity|].
    rewrite serialize_object in Hf |- *.
    inversion Hms as [|? ? [Hk Hv] Hpl]; subst.
    inversion IH' as [|? ? IHv IHl]; subst.
    cbn [List.length] in Hf. rewrite !length_app in Hf.
    destruct (member_text_starts_value gap (indent ++ gap) kv)
      as (c & r & E & Hc & _ & H125 & _).
    rewrite E. cbn [app].
    rewrite parse_value_object
      by (try apply open_ws_whitespace; assumption).
    change (c :: r ++ ?t) with ((c :: r) ++ t). rewrite <- E.
    rewrite parse_members_serialize; try assumption; [reflexivity|].
    rewrite ?length_app in *. cbn [List.length] in *. rewrite ?length_app in *. lia.
Qed.

(** [JSON.parse(JSON.stringify(v))] and [JSON.parse(JSON.stringify(v, null, 2))]
    return [v]. *)
Lemma parse_stringify (v : JSValue) :
  printable v ->
  parse (stringify v) = Return v /\ parse (stringify_indented v) = Return v.
Proof.
  intro Hp.
  assert (H : forall gap, whitespace_text gap ->
                          parse (serialize gap [] v) = Return v).
  { intros gap Hg. unfold parse.
    destruct (serialize_starts_value gap [] v Hp) as (c & r & E & Hc & _).
    rewrite E, skip_whitespace_token by assumption. rewrite <- E.
    pose proof (parse_value_serialize v Hp gap [] [] (S (List.length (serialize gap [] v)))
                  Hg (Forall_nil _) I) as Hv.
    rewrite app_nil_r in Hv. rewrite Hv; [reflexivity | lia]. }
  split; apply H; [constructor | repeat constructor].
Qed.

(** *** The serialised text is well formed *)

Lemma separated_well_formed (separator closing : jsstring) (parts : list jsstring) :
  well_formed separator -> well_formed closing -> Forall well_formed parts ->
  well_formed (separated separator closing parts).
Proof.
  intros Hs Hc Hp. induction Hp as [|p ps Hp _ IH]; [exact Hc|].
  cbn [separated]. repeat apply well_formed_app; assumption.
Qed.

Lemma whitespace_ascii (w : jsstring) : whitespace_text w -> ascii_text w.
Proof.
  intro H. eapply Forall_impl; [|exact H]. simpl. intros c Hc.
  unfold is_whitespace in Hc. lia.
Qed.

Lemma whitespace_well_formed (w : jsstring) : whitespace_text w -> well_formed w.
Proof. intro H. now apply ascii_well_formed, whitespace_ascii. Qed.

Lemma well_formed_cons (c : Z) (s : jsstring) :
  0 <= c < 128 -> well_formed s -> well_formed (c :: s).
Proof.
  intros Hc Hs. change (c :: s) with ([c] ++ s).
  apply well_formed_app; [|exact Hs]. apply ascii_well_formed. now repeat constructor.
Qed.

Lemma decimal_ascii (n : Z) : 0 <= n -> ascii_text (decimal n).
Proof.
  intro Hn. destruct (decimal_spec n Hn) as (d & ds & -> & Hall & _).
  unfold ascii_text. rewrite Forall_map.
  eapply Forall_impl; [|exact Hall]. cbv beta. intros x Hx. lia.
Qed.

Lemma serialize_well_formed (v : JSValue) :
  printable v ->
  forall gap indent,
    whitespace_text gap -> whitespace_text indent ->
    well_formed (serialize gap indent v).
Proof.
  induction v as [| b | m e | s | l IH | ms IH] using JSValue_nested_ind;
    intros Hp gap indent Hg Hi.
  - apply ascii_well_formed. vm_compute. repeat constructor; discriminate.
  - apply ascii_well_formed. destruct b; vm_compute; repeat constructor; discriminate.
  - inversion Hp; subst. rewrite serialize_number by assumption.
    apply ascii_well_formed, decimal_ascii. lia.
  - inversion Hp; subst. now apply QuoteJSONString_well_formed.
  - inversion Hp as [| | | | l' Hl |]; subst.
    destruct l as [|x l].
    + apply ascii_well_formed. vm_compute. repeat constructor; discriminate.
    + pose proof (serialize_array gap indent x l []) as E.
      rewrite app_nil_r in E. rewrite E.
      inversion Hl as [|? ? Hpx Hpl]; subst. inversion IH as [|? ? IHx IHl]; subst.
      assert (Hw1 : well_formed (open_ws gap indent))
        by now apply whitespace_well_formed, open_ws_whitespace.
      apply well_formed_cons; [lia|]. apply well_formed_app; [exact Hw1|].
      apply well_formed_app.
      * apply IHx; [assumption | assumption | now apply Forall_app].
      * apply separated_well_formed.
        -- now apply well_formed_cons; [lia|].
        -- apply well_formed_app.
           ++ now apply whitespace_well_formed, close_ws_whitespace.
           ++ apply ascii_well_formed. repeat constructor; lia.
        -- rewrite Forall_map. rewrite Forall_forall in IHl, Hpl |- *.
           intros y Hy. apply IHl; auto. now apply Forall_app.
  - inversion Hp as [| | | | | ms' Hms]; subst.
    destruct ms as [|kv ms].
    + apply ascii_well_formed. vm_compute. repeat constructor; discriminate.
    + pose proof (serialize_object gap indent kv ms []) as E.
      rewrite app_nil_r in E. rewrite E.
      assert (Hw1 : well_formed (open_ws gap indent))
        by now apply whitespace_well_formed, open_ws_whitespace.
      assert (Hmember : forall kv', In kv' (kv :: ms) ->
                 well_formed (member_text gap (indent ++ gap) kv')).
      { intros kv' Hin. rewrite Forall_forall in Hms, IH.
        destruct (Hms kv' Hin) as [Hk Hv]. unfold member_text.
        apply well_formed_app; [now apply QuoteJSONString_well_formed|].
        apply well_formed_cons; [lia|]. apply well_formed_app.
        - apply whitespace_well_formed, colon_ws_whitespace.
        - apply IH; auto. now apply Forall_app. }
      apply well_formed_cons; [lia|]. apply well_formed_app; [exact Hw1|].
      apply well_formed_app; [apply Hmember; now left|].
      apply separated_well_formed.
      * now apply well_formed_cons; [lia|].
      * apply well_formed_app.
        -- now apply whitespace_well_formed, close_ws_whitespace.
        -- apply ascii_well_formed. repeat constructor; lia.
      * rewrite Forall_map. apply Forall_forall. intros kv' Hin.
        apply Hmember. now right.
Qed.

(** Encoded as UTF-8 and decoded, the compact serialisation of a printable
    value is unchanged and parses to the value. *)
Lemma parse_decode_encode_stringify (v : JSValue) :
  printable v ->
  parse (Utf8.decode (Utf8.encode (stringify v))) = Return v.
Proof.
  intro Hp. rewrite decode_encode.
  - apply parse_stringify, Hp.
  - apply serialize_well_formed; [exact Hp | constructor | constructor].
  - destruct (serialize_starts_value [] [] v Hp) as (c & r & E & _ & _ & _ & _ & Hc).
    unfold stringify. rewrite E. cbn [hd]. lia.
Qed.

End JsonRoundTrip.

(** ** JSON: the parser accepts only the texts of the grammar *)

Section ParserSoundness.
Import JSON Grammar.

(** The functions of the parser and the relations of the grammar. *)
Lemma is_whitespace_ws (c : Z) : is_whitespace c = true <-> ws c.
Proof. unfold is_whitespace, ws. lia. Qed.

Lemma whitespace_iff (w : jsstring) : whitespace w <-> whitespace_text w.
Proof.
  unfold whitespace, whitespace_text. rewrite !Forall_forall.
  split; intros H c Hc; apply is_whitespace_ws; now apply H.
Qed.

Lemma hex_digit_value_hex (c v : Z) : hex_digit_value c = Some v <-> hex c v.
Proof.
  unfold hex_digit_value. split.
  - destruct (Z.leb_spec 48 c), (Z.leb_spec c 57); cbn [andb];
      try (intros [= <-]; constructor; lia);
      destruct (Z.leb_spec 97 c), (Z.leb_spec c 102); cbn [andb];
      try (intros [= <-]; constructor; lia);
      destruct (Z.leb_spec 65 c), (Z.leb_spec c 70); cbn [andb];
      try (intros [= <-]; constructor; lia); discriminate.
  - intros [c' Hc|c' Hc|c' Hc];
      destruct (Z.leb_spec 48 c'), (Z.leb_spec c' 57); cbn [andb]; try lia;
      try reflexivity;
      destruct (Z.leb_spec 97 c'), (Z.leb_spec c' 102); cbn [andb]; try lia;
      try reflexivity;
      destruct (Z.leb_spec 65 c'), (Z.leb_spec c' 70); cbn [andb]; try lia;
      reflexivity.
Qed.

Lemma unescape_escape (e c : Z) : unescape e = Some c <-> escape e c.
Proof.
  unfold unescape. split.
  - repeat match goal with
           | |- (if ?x =? ?y then _ else _) = _ -> _ =>
               destruct (Z.eqb_spec x y) as [->|?];
               [intros [= <-]; constructor|]
           end.
    discriminate.
  - intros []; reflexivity.
Qed.

Lemma digits_value_fold (ds : list Z) (acc : Z) :
  fold_left (fun a d => a * 10 + d) ds acc =
  acc * 10 ^ Z.of_nat (List.length ds) + decimal_value ds.
Proof.
  revert acc. induction ds as [|d ds IH]; intro acc.
  - cbn [fold_left List.length decimal_value]. change (10 ^ Z.of_nat 0) with 1. lia.
  - cbn [fold_left decimal_value]. rewrite IH.
    change (List.length (d :: ds)) with (S (List.length ds)).
    rewrite Nat2Z.inj_succ, Z.pow_succ_r by lia. lia.
Qed.

Lemma digits_value_decimal (ds : list Z) : digits_value ds = decimal_value ds.
Proof. unfold digits_value. rewrite digits_value_fold. lia. Qed.

Lemma skip_whitespace_spec (s : jsstring) :
  exists w, whitespace w /\ s = w ++ skip_whitespace s.
Proof.
  induction s as [|c s (w & Hw & E)].
  - exists []. split; [constructor | reflexivity].
  - cbn [skip_whitespace]. destruct (is_whitespace c) eqn:Ec.
    + exists (c :: w). split; [|cbn [app]; now f_equal].
      constructor; [now apply is_whitespace_ws | exact Hw].
    + exists []. split; [constructor | reflexivity].
Qed.

Lemma cons_char_Some (c : Z) (r : option (jsstring * jsstring))
                     (chars rest : jsstring) :
  cons_char c r = Some (chars, rest) ->
  exists chars', chars = c :: chars' /\ r = Some (chars', rest).
Proof.
  destruct r as [[s' rest']|]; cbn [cons_char]; [|discriminate].
  intros [= <- <-]. now exists s'.
Qed.

Lemma parse_string_chars_sound (s chars rest : jsstring) :
  parse_string_chars s = Some (chars, rest) ->
  exists t, s = t ++ 34 :: rest /\ string_chars t chars.
Proof.
  assert (H : forall n s chars, (List.length s <= n)%nat ->
              parse_string_chars s = Some (chars, rest) ->
              exists t, s = t ++ 34 :: rest /\ string_chars t chars).
  { clear s chars. induction n as [|n IH]; intros s chars Hlen Hp.
    - destruct s; [discriminate | simpl in Hlen; lia].
    - destruct s as [|c s1]; [discriminate|]. cbn [parse_string_chars] in Hp.
      cbn [List.length] in Hlen.
      destruct (Z.eqb_spec c 34) as [->|N34].
      + injection Hp as <- <-. exists []. split; [reflexivity | constructor].
      + destruct (Z.eqb_spec c 92) as [->|N92].
        * destruct s1 as [|e s2]; [discriminate|]. cbn [List.length] in Hlen.
          destruct (Z.eqb_spec e 117) as [->|N117].
          -- destruct s2 as [|h1 [|h2 [|h3 [|h4 s3]]]]; try discriminate.
             cbn [List.length] in Hlen.
             destruct (hex_digit_value h1) as [a|] eqn:E1; [|discriminate].
             destruct (hex_digit_value h2) as [b|] eqn:E2; [|discriminate].
             destruct (hex_digit_value h3) as [c'|] eqn:E3; [|discriminate].
             destruct (hex_digit_value h4) as [d|] eqn:E4; [|discriminate].
             apply hex_digit_value_hex in E1, E2, E3, E4.
             apply cons_char_Some in Hp as (chars' & -> & Hp).
             apply IH in Hp as (t & -> & Ht); [|lia].
             exists (92 :: 117 :: h1 :: h2 :: h3 :: h4 :: t).
             split; [reflexivity | now constructor].
          -- destruct (unescape e) as [c'|] eqn:Ee; [|discriminate].
             apply unescape_escape in Ee.
             apply cons_char_Some in Hp as (chars' & -> & Hp).
             apply IH in Hp as (t & -> & Ht); [|lia].
             exists (92 :: e :: t). split; [reflexivity | now constructor].
        * destruct (Z.ltb_spec c 32) as [Hlow|Hge]; [discriminate|].
          apply cons_char_Some in Hp as (chars' & -> & Hp).
          apply IH in Hp as (t & -> & Ht); [|lia].
          exists (c :: t). split; [reflexivity | now constructor]. }
  apply (H (List.length s)). lia.
Qed.

Lemma span_digits_spec (s : jsstring) :
  s = digit_text (fst (span_digits s)) ++ snd (span_digits s) /\
  digits (fst (span_digits s)).
Proof.
  unfold digit_text, digits. induction s as [|c s [IH1 IH2]].
  - split; [reflexivity | constructor].
  - cbn [span_digits]. unfold is_digit.
    destruct (Z.leb_spec 48 c); [destruct (Z.leb_spec c 57)|];
      cbn [andb fst snd map app]; try (split; [reflexivity | constructor]).
    split.
    + rewrite <- IH1. f_equal. lia.
    + constructor; [lia | exact IH2].
Qed.

Lemma nonempty_digits_Some (s : jsstring) (ds : list Z) (rest : jsstring) :
  nonempty_digits (span_digits s) = Some (ds, rest) ->
  exists d ds', ds = d :: ds' /\ digits ds /\ s = digit_text ds ++ rest.
Proof.
  unfold nonempty_digits. destruct (span_digits_spec s) as [E Hd].
  destruct (span_digits s) as [ds0 rest0]. cbn [fst snd] in *.
  destruct ds0 as [|d ds']; [discriminate|]. intros [= <- <-].
  now exists d, ds'.
Qed.

Lemma parse_int_part_sound (s : jsstring) (ds : list Z) (rest : jsstring) :
  parse_int_part s = Some (ds, rest) ->
  int_literal ds /\ s = digit_text ds ++ rest.
Proof.
  unfold parse_int_part. destruct s as [|c s']; [discriminate|].
  destruct (Z.eqb_spec c 48) as [->|N48].
  - intros [= <- <-]. split; [constructor | reflexivity].
  - intro H. apply nonempty_digits_Some in H as (d & ds' & -> & Hd & E).
    split; [|exact E].
    pose proof (Forall_inv Hd) as Hd0. pose proof (Forall_inv_tail Hd) as Hds.
    cbv beta in Hd0.
    assert (Ec : c = 48 + d)
      by (unfold digit_text in E; cbn [map app] in E; congruence).
    constructor; [lia | exact Hds].
Qed.

Lemma parse_fraction_sound (s : jsstring) (ds : list Z) (rest : jsstring) :
  parse_fraction s = Some (ds, rest) ->
  exists ft, frac_literal ft ds /\ s = ft ++ rest.
Proof.
  unfold parse_fraction. destruct s as [|c s'].
  - intros [= <- <-]. exists []. split; [constructor | reflexivity].
  - destruct (Z.eqb_spec c 46) as [->|N46].
    + intro H. apply nonempty_digits_Some in H as (d & ds' & -> & Hd & ->).
      exists (46 :: digit_text (d :: ds')). split; [now constructor | reflexivity].
    + intros [= <- <-]. exists []. split; [constructor | reflexivity].
Qed.

Lemma parse_exponent_sound (s : jsstring) (exponent : Z) (rest : jsstring) :
  parse_exponent s = Some (exponent, rest) ->
  exists et, exp_literal et exponent /\ s = et ++ rest.
Proof.
  unfold parse_exponent. destruct s as [|c s'].
  - intros [= <- <-]. exists []. split; [constructor | reflexivity].
  - destruct ((c =? 101) || (c =? 69)) eqn:Em.
    + assert (Hm : c = 101 \/ c = 69) by lia.
      assert (Hfinish : forall st negative s'',
                 sign_literal st negative -> s' = st ++ s'' ->
                 match nonempty_digits (span_digits s'') with
                 | Some (ds, rest0) =>
                     Some (if negative then - digits_value ds
                           else digits_value ds, rest0)
                 | None => None
                 end = Some (exponent, rest) ->
                 exists et, exp_literal et exponent /\ c :: s' = et ++ rest).
      { intros st negative s'' Hst -> H.
        destruct (nonempty_digits (span_digits s'')) as [[ds r]|] eqn:Ed;
          [|discriminate].
        injection H as <- <-.
        apply nonempty_digits_Some in Ed as (d & ds' & -> & Hd & ->).
        rewrite !digits_value_decimal.
        exists (c :: st ++ digit_text (d :: ds')). split.
        - now constructor.
        - cbn [app]. now rewrite <- app_assoc. }
      destruct s' as [|sg r].
      * intro H. apply (Hfinish [] false []); [constructor | reflexivity | exact H].
      * destruct (Z.eqb_spec sg 45) as [->|N45].
        -- intro H. apply (Hfinish [45] true r);
             [constructor | reflexivity | exact H].
        -- destruct (Z.eqb_spec sg 43) as [->|N43]; intro H.
           ++ apply (Hfinish [43] false r); [constructor | reflexivity | exact H].
           ++ apply (Hfinish [] false (sg :: r));
                [constructor | reflexivity | exact H].
    + intros [= <- <-]. exists []. split; [constructor | reflexivity].
Qed.

Lemma parse_number_sound (s : jsstring) (v : JSValue) (rest : jsstring) :
  parse_number s = Some (v, rest) ->
  exists t m e, v = JNumber m e /\ number_literal t m e /\ s = t ++ rest.
Proof.
  unfold parse_number.
  assert (Hneg : exists (negative : bool) (s' : jsstring),
             s = (if negative then [45] else []) ++ s' /\
             match s with
             | c :: rest0 => if c =? 45 then (true, rest0) else (false, s)
             | [] => (false, s)
             end = (negative, s')).
  { destruct s as [|c r].
    - exists false, []. split; reflexivity.
    - destruct (Z.eqb_spec c 45) as [->|N].
      + exists true, r. split; reflexivity.
      + exists false, (c :: r). split; reflexivity. }
  destruct Hneg as (negative & s' & Es & ->).
  destruct (parse_int_part s') as [[int_part s1]|] eqn:Ei; [|discriminate].
  destruct (parse_fraction s1) as [[frac s2]|] eqn:Ef; [|discriminate].
  destruct (parse_exponent s2) as [[exponent s3]|] eqn:Ee; [|discriminate].
  intros [= <- <-].
  apply parse_int_part_sound in Ei as [Hint ->].
  apply parse_fraction_sound in Ef as (ft & Hft & ->).
  apply parse_exponent_sound in Ee as (et & Het & ->).
  rewrite digits_value_decimal.
  eexists _, _, _. split; [reflexivity|]. split.
  - exact (number_lit negative int_part ft frac et exponent Hint Hft Het).
  - rewrite Es, <- !app_assoc. reflexivity.
Qed.

Lemma strip_prefix_spec (p s rest : jsstring) :
  strip_prefix p s = Some rest -> s = p ++ rest.
Proof.
  revert s. induction p as [|x p IH]; intros s; cbn [strip_prefix].
  - now intros [= ->].
  - destruct s as [|y s']; [discriminate|].
    destruct (Z.eqb_spec x y) as [->|N]; [|discriminate].
    intro H. apply IH in H. now subst.
Qed.

Lemma parse_literal_sound (s : jsstring) (v : JSValue) (rest : jsstring) :
  parse_literal s = Some (v, rest) ->
  exists t, s = t ++ rest /\ json_value t v.
Proof.
  unfold parse_literal.
  destruct (strip_prefix (str "true") s) as [r|] eqn:Et.
  { intros [= <- <-]. apply strip_prefix_spec in Et.
    exists (str "true"). split; [exact Et | constructor]. }
  destruct (strip_prefix (str "false") s) as [r|] eqn:Ef.
  { intros [= <- <-]. apply strip_prefix_spec in Ef.
    exists (str "false"). split; [exact Ef | constructor]. }
  destruct (strip_prefix (str "null") s) as [r|] eqn:En.
  { intros [= <- <-]. apply strip_prefix_spec in En.
    exists (str "null"). split; [exact En | constructor]. }
  intro H. apply parse_number_sound in H as (t & m & e & -> & Hn & ->).
  exists t. split; [reflexivity | now constructor].
Qed.

Ltac skip_ws_as w Hw r' :=
  match goal with
  | H : context [skip_whitespace ?r] |- _ =>
      let E := fresh "E" in
      destruct (skip_whitespace_spec r) as (w & Hw & E);
      remember (skip_whitespace r) as r' eqn:Heq; clear Heq; subst r
  end.

Ltac text_eq := repeat (cbn [app]; rewrite <- ?app_assoc); reflexivity.

Lemma parser_sound (fuel : nat) :
  (forall s v rest,
      parse_value fuel s = Some (v, rest) ->
      exists t, s = t ++ rest /\ json_value t v) /\
  (forall s ms rest,
      parse_members fuel s = Some (ms, rest) ->
      exists t, s = t ++ 125 :: rest /\ json_members t ms) /\
  (forall s l rest,
      parse_more_elements fuel s = Some (l, rest) ->
      exists t, s = t ++ 93 :: rest /\ json_more t l).
Proof.
  induction fuel as [|fuel (IHv & IHm & IHe)]; [repeat split; discriminate|].
  split; [|split].
  - intros s v rest H. cbn [parse_value] in H.
    destruct s as [|c r]; [discriminate|].
    destruct (Z.eqb_spec c 34) as [->|N34].
    { destruct (parse_string_chars r) as [[chars r']|] eqn:E; [|discriminate].
      injection H as <- <-. apply parse_string_chars_sound in E as (t & -> & Ht).
      exists (34 :: t ++ [34]). split; [text_eq | now constructor]. }
    destruct (Z.eqb_spec c 123) as [->|N123].
    { skip_ws_as w Hw r'. destruct r' as [|d r']; [discriminate|].
      destruct (Z.eqb_spec d 125) as [->|N125].
      - injection H as <- <-. exists (123 :: w ++ [125]).
        split; [text_eq | now constructor].
      - destruct (parse_members fuel (d :: r')) as [[ms r'']|] eqn:Em;
          [|discriminate].
        injection H as <- <-. apply IHm in Em as (t & -> & Hms).
        exists (123 :: w ++ t ++ [125]). split; [text_eq | now constructor]. }
    destruct (Z.eqb_spec c 91) as [->|N91].
    { skip_ws_as w Hw r'. destruct r' as [|d r']; [discriminate|].
      destruct (Z.eqb_spec d 93) as [->|N93].
      - injection H as <- <-. exists (91 :: w ++ [93]).
        split; [text_eq | now constructor].
      - destruct (parse_value fuel (d :: r')) as [[first r1]|] eqn:Ef;
          [|discriminate].
        destruct (parse_more_elements fuel r1) as [[more r2]|] eqn:Em;
          [|discriminate].
        injection H as <- <-.
        apply IHv in Ef as (t & -> & Hfirst).
        apply IHe in Em as (tail & -> & Hmore).
        exists (91 :: w ++ t ++ tail ++ [93]).
        split; [text_eq | now constructor]. }
    now apply parse_literal_sound.
  - intros s ms rest H. cbn [parse_members] in H.
    destruct s as [|c r]; [discriminate|].
    destruct (Z.eqb_spec c 34) as [->|N34]; [|discriminate].
    destruct (parse_string_chars r) as [[key r1]|] eqn:Ek; [|discriminate].
    apply parse_string_chars_sound in Ek as (kt & -> & Hkt).
    skip_ws_as w1 Hw1 r1'. destruct r1' as [|colon r2]; [discriminate|].
    destruct (Z.eqb_spec colon 58) as [->|N58]; [|discriminate].
    skip_ws_as w2 Hw2 r2'.
    destruct (parse_value fuel r2') as [[value r3]|] eqn:Ev; [|discriminate].
    apply IHv in Ev as (t & -> & Hvalue).
    skip_ws_as w3 Hw3 r3'. destruct r3' as [|d r4]; [discriminate|].
    destruct (Z.eqb_spec d 125) as [->|N125].
    + injection H as <- <-.
      exists (34 :: kt ++ 34 :: w1 ++ 58 :: w2 ++ t ++ w3).
      split; [text_eq | now constructor].
    + destruct (Z.eqb_spec d 44) as [->|N44]; [|discriminate].
      skip_ws_as w4 Hw4 r4'.
      destruct (parse_members fuel r4') as [[ms' r5]|] eqn:Em; [|discriminate].
      injection H as <- <-. apply IHm in Em as (t' & -> & Hms).
      exists (34 :: kt ++ 34 :: w1 ++ 58 :: w2 ++ t ++ w3 ++ 44 :: w4 ++ t').
      split; [text_eq | now constructor].
  - intros s l rest H. cbn [parse_more_elements] in H.
    skip_ws_as w1 Hw1 s'. destruct s' as [|d r]; [discriminate|].
    destruct (Z.eqb_spec d 93) as [->|N93].
    + injection H as <- <-. exists w1. split; [reflexivity | now constructor].
    + destruct (Z.eqb_spec d 44) as [->|N44]; [|discriminate].
      skip_ws_as w2 Hw2 r'.
      destruct (parse_value fuel r') as [[value r1]|] eqn:Ev; [|discriminate].
      destruct (parse_more_elements fuel r1) as [[more r2]|] eqn:Em;
        [|discriminate].
      injection H as <- <-.
      apply IHv in Ev as (t & -> & Hvalue).
      apply IHe in Em as (tail & -> & Hmore).
      exists (w1 ++ 44 :: w2 ++ t ++ tail).
      split; [text_eq | now constructor].
Qed.

(** [JSON.parse] returns a value only for a text of the grammar that
    denotes this value, and throws nothing but a [SyntaxError]. *)
Lemma parse_sound (text : jsstring) (v : JSValue) :
  parse text = Return v -> json_text text v.
Proof.
  unfold parse. intro H.
  destruct (skip_whitespace_spec text) as (w1 & Hw1 & E1).
  destruct (parse_value _ (skip_whitespace text)) as [[v' rest]|] eqn:Ev;
    [|discriminate].
  apply parser_sound in Ev as (t & Et & Hv).
  destruct (skip_whitespace_spec rest) as (w2 & Hw2 & E2).
  destruct (skip_whitespace rest); [|discriminate].
  injection H as ->. rewrite app_nil_r in E2. subst rest.
  exists w1, t, w2. repeat split; try assumption.
  rewrite E1 at 1. now rewrite Et.
Qed.

End ParserSoundness.

(** ** The parser accepts every text of the grammar *)

Section ParserCompleteness.
Import JSON Grammar.

Lemma parse_string_chars_complete (t s : jsstring) :
  string_chars t s ->
  forall rest, parse_string_chars (t ++ 34 :: rest) = Some (s, rest).
Proof.
  induction 1 as [|c t s H32 H34 H92 _ IH|e c t s He _ IH
                  |h1 h2 h3 h4 a b c d t s H1 H2 H3 H4 _ IH]; intro rest.
  - reflexivity.
  - cbn [app parse_string_chars]. rewrite IH.
    replace (c =? 34) with false by lia. replace (c =? 92) with false by lia.
    replace (c <? 32) with false by lia. reflexivity.
  - cbn [app parse_string_chars]. rewrite IH.
    change (92 =? 34) with false. change (92 =? 92) with true. cbv iota.
    apply unescape_escape in He as Hu. rewrite Hu.
    replace (e =? 117) with false by (destruct He; reflexivity). reflexivity.
  - cbn [app parse_string_chars]. rewrite IH.
    change (92 =? 34) with false. change (92 =? 92) with true.
    change (117 =? 117) with true. cbv iota.
    apply hex_digit_value_hex in H1, H2, H3, H4.
    rewrite H1, H2, H3, H4. reflexivity.
Qed.

Lemma span_digits_complete (ds : list Z) (rest : jsstring) :
  digits ds -> (forall c r, rest = c :: r -> is_digit c = false) ->
  span_digits (digit_text ds ++ rest) = (ds, rest).
Proof.
  intros Hds Hrest. unfold digit_text. induction Hds as [|d ds Hd _ IH].
  - destruct rest as [|c r]; [reflexivity|].
    cbn [map app span_digits]. now rewrite (Hrest c r eq_refl).
  - cbn [map app span_digits]. unfold is_digit.
    replace (48 <=? 48 + d) with true by lia.
    replace (48 + d <=? 57) with true by lia.
    cbv iota beta delta [andb]. rewrite IH. cbn [fst snd].
    f_equal. f_equal. lia.
Qed.

Lemma nonempty_digits_complete (d : Z) (ds : list Z) (rest : jsstring) :
  digits (d :: ds) -> (forall c r, rest = c :: r -> is_digit c = false) ->
  nonempty_digits (span_digits (digit_text (d :: ds) ++ rest))
  = Some (d :: ds, rest).
Proof. intros Hd Hrest. now rewrite span_digits_complete. Qed.

Lemma digit_text_cons (d : Z) (ds : list Z) (rest : jsstring) :
  digit_text (d :: ds) ++ rest = (48 + d) :: digit_text ds ++ rest.
Proof. reflexivity. Qed.

Lemma parse_int_part_complete (ds : list Z) (rest : jsstring) :
  int_literal ds -> (forall c r, rest = c :: r -> is_digit c = false) ->
  parse_int_part (digit_text ds ++ rest) = Some (ds, rest).
Proof.
  intros [|d ds' Hd Hds] Hrest; [reflexivity|].
  assert (Hall : digits (d :: ds')) by (constructor; [lia | exact Hds]).
  pose proof (nonempty_digits_complete d ds' rest Hall Hrest) as E.
  rewrite digit_text_cons in E |- *. unfold parse_int_part.
  replace (48 + d =? 48) with false by lia. exact E.
Qed.

Lemma parse_fraction_complete (ft : jsstring) (frac : list Z) (rest : jsstring) :
  frac_literal ft frac ->
  (forall c r, rest = c :: r -> is_digit c = false /\ c <> 46) ->
  parse_fraction (ft ++ rest) = Some (frac, rest).
Proof.
  intros [|d ds Hd] Hrest.
  - destruct rest as [|c r]; [reflexivity|]. cbn [app parse_fraction].
    destruct (Hrest c r eq_refl) as [_ H46].
    replace (c =? 46) with false by lia. reflexivity.
  - cbn [app parse_fraction]. change (46 =? 46) with true. cbv iota.
    apply nonempty_digits_complete; [exact Hd|].
    intros c r E. now apply Hrest in E.
Qed.

Lemma parse_exponent_complete (et : jsstring) (exponent : Z) (rest : jsstring) :
  exp_literal et exponent ->
  (forall c r, rest = c :: r -> is_digit c = false /\ c <> 101 /\ c <> 69) ->
  parse_exponent (et ++ rest) = Some (exponent, rest).
Proof.
  intros [|marker st negative d ds Hm Hst Hd] Hrest.
  - destruct rest as [|c r]; [reflexivity|]. cbn [app parse_exponent].
    destruct (Hrest c r eq_refl) as (_ & H1 & H2).
    replace (c =? 101) with false by lia. replace (c =? 69) with false by lia.
    reflexivity.
  - assert (Hnd : forall c r, rest = c :: r -> is_digit c = false)
      by (intros c r E; now apply Hrest in E).
    pose proof (nonempty_digits_complete d ds rest Hd Hnd) as E.
    pose proof (Forall_inv Hd) as Hd0. cbv beta in Hd0.
    cbn [app parse_exponent]. rewrite <- app_assoc.
    replace ((marker =? 101) || (marker =? 69)) with true by lia.
    destruct Hst; cbn [app].
    + rewrite digit_text_cons in E |- *.
      replace (48 + d =? 45) with false by lia.
      replace (48 + d =? 43) with false by lia.
      rewrite E. now rewrite digits_value_decimal.
    + change (43 =? 45) with false. change (43 =? 43) with true. cbv iota.
      rewrite E. now rewrite digits_value_decimal.
    + change (45 =? 45) with true. cbv iota.
      rewrite E. now rewrite digits_value_decimal.
Qed.

Lemma int_literal_starts (ds : list Z) (rest : jsstring) :
  int_literal ds ->
  exists c r, digit_text ds ++ rest = c :: r /\ 48 <= c <= 57.
Proof.
  intros [|d ds' Hd _].
  - exists 48, rest. split; [reflexivity | lia].
  - exists (48 + d), (digit_text ds' ++ rest). split; [reflexivity | lia].
Qed.

Lemma number_literal_starts (t : jsstring) (m e : Z) :
  number_literal t m e ->
  exists c r, t = c :: r /\ (c = 45 \/ 48 <= c <= 57).
Proof.
  intros [negative int_part ft frac et exponent Hint _ _].
  destruct negative.
  - eexists 45, _. split; [reflexivity | now left].
  - destruct (int_literal_starts int_part (ft ++ et) Hint) as (c & r & E & Hc).
    exists c, r. split; [exact E | now right].
Qed.

(** A number literal followed by a text that cannot continue it is read by
    [parse_number] as the number it denotes. *)
Lemma parse_number_complete (t : jsstring) (m e : Z) (rest : jsstring) :
  number_literal t m e -> not_number_char rest ->
  parse_number (t ++ rest) = Some (JNumber m e, rest).
Proof.
  intros [negative int_part ft frac et exponent Hint Hft Het] Hrest.
  assert (H3 : forall c r, rest = c :: r ->
               is_digit c = false /\ c <> 46 /\ c <> 101 /\ c <> 69).
  { intros c r ->. exact Hrest. }
  assert (H2 : forall c r, et ++ rest = c :: r -> is_digit c = false /\ c <> 46).
  { destruct Het as [|marker st neg d ds Hm _ _].
    - intros c r E. now apply H3 in E.
    - cbn [app]. intros c r [= <- _]. unfold is_digit. lia. }
  assert (H1 : forall c r, ft ++ et ++ rest = c :: r -> is_digit c = false).
  { destruct Hft as [|d ds _].
    - intros c r E. now apply H2 in E.
    - cbn [app]. intros c r [= <- _]. reflexivity. }
  pose proof (parse_int_part_complete int_part (ft ++ et ++ rest) Hint H1) as Ei.
  pose proof (parse_fraction_complete ft frac (et ++ rest) Hft H2) as Ef.
  pose proof (parse_exponent_complete et exponent rest Het
                (fun c r E => match H3 c r E with
                              | conj Hd (conj _ Hm) => conj Hd Hm
                              end)) as Ee.
  rewrite <- !app_assoc. unfold parse_number. destruct negative.
  - cbn [app]. change (45 =? 45) with true. cbv iota.
    rewrite Ei, Ef, Ee. now rewrite digits_value_decimal.
  - cbn [app].
    destruct (int_literal_starts int_part (ft ++ et ++ rest) Hint)
      as (c & r & E & Hc).
    rewrite E in Ei |- *. replace (c =? 45) with false by lia.
    rewrite Ei, Ef, Ee. now rewrite digits_value_decimal.
Qed.

Lemma parse_value_number_start (fuel : nat) (c : Z) (r : jsstring) :
  c = 45 \/ 48 <= c <= 57 ->
  parse_value (S fuel) (c :: r) = parse_number (c :: r).
Proof.
  intros [->|Hc]; [reflexivity|]. now apply parse_value_digit.
Qed.

Lemma json_value_starts (t : jsstring) (v : JSValue) :
  json_value t v -> starts_value t.
Proof.
  unfold starts_value.
  intros [| | |t' m e Hn|t' s _|w _|w t' tail v' l _ _ _|w _|w t' ms _ _];
    try (eexists _, _; split; [reflexivity|];
         split; [reflexivity|]; repeat split;
         first [lia | reflexivity | intro Hx; vm_compute in Hx; discriminate Hx]).
  destruct (number_literal_starts t' m e Hn) as (c & r & -> & Hc).
  exists c, r. split; [reflexivity|]. unfold is_whitespace. repeat split; lia.
Qed.

Lemma json_members_starts (t : jsstring) (ms : list (jsstring * JSValue)) :
  json_members t ms -> exists r, t = 34 :: r.
Proof. intros []; eexists; reflexivity. Qed.

Lemma whitespace_delimited (w : jsstring) (c : Z) (r : jsstring) :
  whitespace w -> c = 44 \/ c = 93 \/ c = 125 -> delimited (w ++ c :: r).
Proof.
  intros [|x w' Hx _] Hc; cbn [app delimited].
  - now right.
  - left. now apply is_whitespace_ws.
Qed.

Lemma json_more_delimited (tail : jsstring) (l : list JSValue) (rest : jsstring) :
  json_more tail l -> delimited (tail ++ 93 :: rest).
Proof.
  intros [w Hw|w1 w2 t tail' v l' Hw1 _ _ _].
  - apply whitespace_delimited; [exact Hw | lia].
  - rewrite <- app_assoc. apply whitespace_delimited; [exact Hw1 | lia].
Qed.

Lemma skip_whitespace_text (w s rest : jsstring) :
  whitespace w -> starts_value s ->
  skip_whitespace (w ++ s ++ rest) = s ++ rest.
Proof. intro Hw. apply skip_whitespace_value. now apply whitespace_iff. Qed.

Lemma skip_whitespace_char (w : jsstring) (c : Z) (r : jsstring) :
  whitespace w -> is_whitespace c = false ->
  skip_whitespace (w ++ c :: r) = c :: r.
Proof.
  intros Hw Hc. rewrite skip_whitespace_app by now apply whitespace_iff.
  now apply skip_whitespace_token.
Qed.

Ltac right_assoc := repeat (progress (rewrite <- ?app_assoc; cbn [app])).

Ltac lengths :=
  do 6 (rewrite ?length_app in *; cbn [List.length] in * ); lia.

Lemma parser_complete :
  (forall t v, json_value t v ->
     forall rest fuel, delimited rest ->
       (List.length t + List.length rest < fuel)%nat ->
       parse_value fuel (t ++ rest) = Some (v, rest)) /\
  (forall tail l, json_more tail l ->
     forall rest fuel,
       (List.length tail + S (List.length rest) < fuel)%nat ->
       parse_more_elements fuel (tail ++ 93 :: rest) = Some (l, rest)) /\
  (forall t ms, json_members t ms ->
     forall rest fuel,
       (List.length t + S (List.length rest) < fuel)%nat ->
       parse_members fuel (t ++ 125 :: rest) = Some (ms, rest)).
Proof.
  apply json_mutual_ind.
  - intros rest [|fuel] _ Hlen; [lia | reflexivity].
  - intros rest [|fuel] _ Hlen; [lia | reflexivity].
  - intros rest [|fuel] _ Hlen; [lia | reflexivity].
  - intros t m e Hn rest [|fuel] Hd Hlen; [lia|].
    pose proof (parse_number_complete t m e rest Hn
                  (delimited_not_number_char rest Hd)) as Hp.
    destruct (number_literal_starts t m e Hn) as (c & r & -> & Hc).
    cbn [app] in Hp |- *. now rewrite parse_value_number_start.
  - intros t s Hs rest [|fuel] _ Hlen; [lia|].
    right_assoc. cbn [parse_value].
    change (34 =? 34) with true. cbv iota.
    now rewrite (parse_string_chars_complete t s Hs).
  - intros w Hw rest [|fuel] _ Hlen; [lia|].
    right_assoc. cbn [parse_value].
    change (91 =? 34) with false. change (91 =? 123) with false.
    change (91 =? 91) with true. cbv iota.
    rewrite skip_whitespace_char by (exact Hw || reflexivity). reflexivity.
  - intros w t tail v l Hw Hv IHv Hmore IHmore rest [|fuel] _ Hlen; [lia|].
    right_assoc. cbn [parse_value].
    change (91 =? 34) with false. change (91 =? 123) with false.
    change (91 =? 91) with true. cbv iota.
    rewrite skip_whitespace_text by (exact Hw || exact (json_value_starts t v Hv)).
    destruct (json_value_starts t v Hv) as (c & r & E & _ & H93 & _).
    rewrite E at 1. cbn [app]. replace (c =? 93) with false by lia.
    change (c :: r ++ tail ++ 93 :: rest) with ((c :: r) ++ tail ++ 93 :: rest).
    rewrite <- E.
    rewrite (IHv (tail ++ 93 :: rest) fuel)
      by (try apply (json_more_delimited tail l rest Hmore); lengths).
    rewrite (IHmore rest fuel) by lengths. reflexivity.
  - intros w Hw rest [|fuel] _ Hlen; [lia|].
    right_assoc. cbn [parse_value].
    change (123 =? 34) with false. change (123 =? 123) with true. cbv iota.
    rewrite skip_whitespace_char by (exact Hw || reflexivity). reflexivity.
  - intros w t ms Hw Hms IHms rest [|fuel] _ Hlen; [lia|].
    right_assoc. cbn [parse_value].
    change (123 =? 34) with false. change (123 =? 123) with true. cbv iota.
    destruct (json_members_starts t ms Hms) as (r & E).
    rewrite E at 1. cbn [app].
    rewrite skip_whitespace_char by (exact Hw || reflexivity).
    change (34 =? 125) with false. cbv iota.
    change (34 :: r ++ 125 :: rest) with ((34 :: r) ++ 125 :: rest).
    rewrite <- E. rewrite (IHms rest fuel) by lengths. reflexivity.
  - intros w Hw rest [|fuel] Hlen; [lia|].
    apply parse_more_elements_close. now apply whitespace_iff.
  - intros w1 w2 t tail v l Hw1 Hw2 Hv IHv Hmore IHmore rest [|fuel] Hlen; [lia|].
    right_assoc. cbn [parse_more_elements].
    rewrite skip_whitespace_char by (exact Hw1 || reflexivity).
    change (44 =? 93) with false. change (44 =? 44) with true. cbv iota.
    rewrite skip_whitespace_text by (exact Hw2 || exact (json_value_starts t v Hv)).
    rewrite (IHv (tail ++ 93 :: rest) fuel)
      by (try apply (json_more_delimited tail l rest Hmore); lengths).
    rewrite (IHmore rest fuel) by lengths. reflexivity.
  - intros kt k w1 w2 t w3 v Hkt Hw1 Hw2 Hv IHv Hw3 rest [|fuel] Hlen; [lia|].
    right_assoc. cbn [parse_members]. change (34 =? 34) with true. cbv iota.
    rewrite (parse_string_chars_complete kt k Hkt).
    rewrite skip_whitespace_char by (exact Hw1 || reflexivity).
    change (58 =? 58) with true. cbv iota.
    rewrite skip_whitespace_text by (exact Hw2 || exact (json_value_starts t v Hv)).
    rewrite (IHv (w3 ++ 125 :: rest) fuel)
      by (try (apply whitespace_delimited; [exact Hw3 | lia]); lengths).
    rewrite skip_whitespace_char by (exact Hw3 || reflexivity).
    reflexivity.
  - intros kt k w1 w2 t w3 w4 members v ms Hkt Hw1 Hw2 Hv IHv Hw3 Hw4 Hms IHms
           rest [|fuel] Hlen; [lia|].
    right_assoc. cbn [parse_members]. change (34 =? 34) with true. cbv iota.
    rewrite (parse_string_chars_complete kt k Hkt).
    rewrite skip_whitespace_char by (exact Hw1 || reflexivity).
    change (58 =? 58) with true. cbv iota.
    rewrite skip_whitespace_text by (exact Hw2 || exact (json_value_starts t v Hv)).
    rewrite (IHv (w3 ++ 44 :: w4 ++ members ++ 125 :: rest) fuel)
      by (try (apply whitespace_delimited; [exact Hw3 | lia]); lengths).
    rewrite skip_whitespace_char by (exact Hw3 || reflexivity).
    change (44 =? 125) with false. change (44 =? 44) with true. cbv iota.
    destruct (json_members_starts members ms Hms) as (r & E).
    rewrite E at 1. cbn [app].
    rewrite skip_whitespace_char by (exact Hw4 || reflexivity).
    change (34 :: r ++ 125 :: rest) with ((34 :: r) ++ 125 :: rest).
    rewrite <- E. rewrite (IHms rest fuel) by lengths. reflexivity.
Qed.

(** [JSON.parse] returns, for every text of the grammar, the value the text
    denotes. *)
Lemma parse_complete (text : jsstring) (v : JSValue) :
  json_text text v -> parse text = Return v.
Proof.
  intros (w1 & t & w2 & Hw1 & Hv & Hw2 & ->). unfold parse.
  rewrite skip_whitespace_text by (exact Hw1 || exact (json_value_starts t v Hv)).
  rewrite (proj1 parser_complete t v Hv w2).
  - replace (skip_whitespace w2) with (@nil Z); [reflexivity|].
    rewrite <- (app_nil_r w2) at 1.
    now rewrite skip_whitespace_app by now apply whitespace_iff.
  - destruct Hw2 as [|c w2' Hc _]; [exact I|]. left. now apply is_whitespace_ws.
  - rewrite !length_app. lia.
Qed.

(** A text denotes at most one value. *)
Lemma json_text_functional (text : jsstring) (v1 v2 : JSValue) :
  json_text text v1 -> json_text text v2 -> v1 = v2.
Proof.
  intros H1 H2. apply parse_complete in H1, H2. congruence.
Qed.

End ParserCompleteness.

(** ** The vault: encoding of the binary fields *)

Section VaultEncoding.
Import Vault.

Lemma binary_loop_spec (chunkSize : nat) (bytes : list byte) :
  (0 < chunkSize)%nat ->
  forall fuel i binary,
    (List.length bytes - i <= fuel)%nat ->
    binary_loop fuel chunkSize bytes i binary =
    binary ++ map byte_to_Z (skipn i bytes).
Proof.
  intro Hc. induction fuel as [|fuel IH]; intros i binary Hf.
  - cbn [binary_loop]. rewrite skipn_all2 by lia. now rewrite app_nil_r.
  - cbn [binary_loop]. destruct (Nat.ltb_spec i (List.length bytes)) as [Hlt|Hge].
    + rewrite IH by lia. rewrite <- app_assoc. f_equal.
      rewrite <- map_app. f_equal.
      rewrite <- (firstn_skipn chunkSize (skipn i bytes)) at 2.
      f_equal. rewrite skipn_skipn. f_equal. lia.
    + rewrite skipn_all2 by lia. now rewrite app_nil_r.
Qed.

Lemma arrayBufferToBase64_spec (bytes : list byte) :
  arrayBufferToBase64 bytes =
  Return (Base64.encode_bytes (map byte_to_Z bytes)).
Proof.
  unfold arrayBufferToBase64.
  rewrite binary_loop_spec by lia.
  cbn [skipn app]. unfold Base64.btoa.
  replace (forallb (fun c => c <=? 255) (map byte_to_Z bytes)) with true;
    [reflexivity|].
  symmetry. apply forallb_forall. intros c Hin.
  apply in_map_iff in Hin as (b & <- & _).
  pose proof (byte_to_Z_range b). lia.
Qed.

(** The base64 text of a buffer decodes to the same bytes. *)
Lemma base64_round_trip (bytes : list byte) :
  exists text,
    arrayBufferToBase64 bytes = Return text /\
    base64ToArrayBuffer text = Return bytes.
Proof.
  eexists. split; [apply arrayBufferToBase64_spec|].
  unfold base64ToArrayBuffer. rewrite atob_encode_bytes.
  - cbn [bind]. now rewrite map_byte_of_to_Z.
  - apply Forall_forall. intros c Hin. apply in_map_iff in Hin as (b & <- & _).
    apply byte_to_Z_range.
Qed.

End VaultEncoding.

(** ** The vault: records *)

Lemma strip_bytes_app (p s : list byte) : Vault.strip_bytes p (p ++ s) = Some s.
Proof.
  induction p as [|x p IH]; [reflexivity|].
  cbn [app Vault.strip_bytes]. now rewrite (Byte.byte_dec_lb (x := x) (y := x) eq_refl).
Qed.

#[local] Instance model_platform_laws : PlatformLaws Vault.model_platform.
Proof.
  constructor. intros key iv plaintext. cbn.
  rewrite app_assoc. apply strip_bytes_app.
Qed.

Lemma JSValue_eq_null (v : JSON.JSValue) : v = JSON.JNull \/ v <> JSON.JNull.
Proof. destruct v; (now left) || (right; discriminate). Qed.

Section VaultProperties.
Import JSON Vault.
Context {P : Platform}.

Lemma encode_bytes_ok (bs : list Z) :
  Forall is_byte bs -> jsstring_ok (Base64.encode_bytes bs).
Proof.
  intro Hbs. rewrite encode_bytes_split. apply Forall_app. split.
  - pose proof (sextets_of_range bs Hbs) as Hsx. rewrite Forall_map.
    eapply Forall_impl; [|exact Hsx]. cbv beta. intros v Hv.
    destruct (alphabet_char_plain v Hv) as (_ & _ & Hr). unfold code_unit. lia.
  - destruct (padding_of_cases bs) as [-> | [-> | ->]];
      repeat constructor; unfold code_unit, Base64.pad; lia.
Qed.

Lemma arrayBufferToBase64_ok (bytes : list byte) (text : jsstring) :
  arrayBufferToBase64 bytes = Return text -> jsstring_ok text.
Proof.
  rewrite arrayBufferToBase64_spec. intro E. injection E as <-.
  apply encode_bytes_ok. apply Forall_forall. intros c Hin.
  apply in_map_iff in Hin as (b & <- & _). apply byte_to_Z_range.
Qed.

Lemma VaultItem_object_printable (data : VaultItem) :
  VaultItem_ok data -> printable (VaultItem_object data).
Proof.
  intros (Ht & Hu & Hp & Hl & Hn). unfold VaultItem_object.
  constructor.
  repeat (constructor;
          [split; [apply jsstring_okb_ok; reflexivity
                  | constructor; assumption]|]).
  constructor.
Qed.

(** The serialised record is read back by the plaintext codec. *)
Lemma deserialize_serialize (data : VaultItem) :
  VaultItem_ok data ->
  deserializeRecord (serializeRecord data) = Return (VaultItem_object data).
Proof.
  intro Hok. unfold deserializeRecord, serializeRecord.
  apply parse_decode_encode_stringify. now apply VaultItem_object_printable.
Qed.

Lemma decrypt_encrypted (data : VaultItem) (masterPassword : jsstring)
                        (rng : RandomSource) :
  PlatformLaws P -> VaultItem_ok data ->
  exists blob,
    fst (encryptVaultItem data masterPassword rng) = Return blob /\
    jsstring_ok (encrypted blob) /\ jsstring_ok (salt blob) /\
    jsstring_ok (iv blob) /\
    decryptVaultItem (EncryptedData_object blob) masterPassword =
      Return (VaultItem_object data).
Proof.
  intros L Hok. unfold encryptVaultItem.
  cbn [getRandomValues]. cbv zeta.
  set (salt_bytes := map rng (seq 0 16)).
  set (iv_bytes := map (fun i => rng (16 + i)%nat) (seq 0 12)).
  set (key := deriveKey masterPassword salt_bytes).
  set (ciphertext := AES_GCM_encrypt key iv_bytes _).
  destruct (base64_round_trip ciphertext) as (e & Ee & De).
  destruct (base64_round_trip salt_bytes) as (s & Es & Ds).
  destruct (base64_round_trip iv_bytes) as (i & Ei & Di).
  exists {| encrypted := e; salt := s; iv := i |}.
  cbn [fst]. rewrite Ee, Es, Ei. cbn [bind encrypted salt iv].
  split; [reflexivity|].
  split; [eapply arrayBufferToBase64_ok; eassumption|].
  split; [eapply arrayBufferToBase64_ok; eassumption|].
  split; [eapply arrayBufferToBase64_ok; eassumption|].
  unfold decryptVaultItem, EncryptedData_object. cbn [encrypted salt iv].
  change (Get (JObject ?ms) (str "salt")) with (Return (A := option JSValue) (Some (JString s))).
  change (Get (JObject ?ms) (str "iv")) with (Return (A := option JSValue) (Some (JString i))).
  change (Get (JObject ?ms) (str "encrypted"))
    with (Return (A := option JSValue) (Some (JString e))).
  cbn [bind ToString ToString_value]. rewrite Ds, Di, De. cbn [bind].
  fold key. subst ciphertext. rewrite AES_GCM_decrypt_encrypt.
  now apply deserialize_serialize.
Qed.

(** C1: for every record whose five fields are strings (sequences of 16-bit
    code units: empty, non-ASCII and lone surrogates included), every
    master password and every state of the random source, encryption
    returns a blob, and decrypting that blob under the same password
    returns the object with the same five fields. *)
Theorem decrypt_encrypt_round_trip (L : PlatformLaws P) (data : VaultItem)
                                   (masterPassword : jsstring) (rng : RandomSource) :
  VaultItem_ok data ->
  exists blob,
    fst (encryptVaultItem data masterPassword rng) = Return blob /\
    decryptVaultItem (EncryptedData_object blob) masterPassword =
      Return (VaultItem_object data) /\
    Get (VaultItem_object data) (str "title") = Return (Some (JString (title data))) /\
    Get (VaultItem_object data) (str "username") = Return (Some (JString (username data))) /\
    Get (VaultItem_object data) (str "password") = Return (Some (JString (password data))) /\
    Get (VaultItem_object data) (str "url") = Return (Some (JString (url data))) /\
    Get (VaultItem_object data) (str "notes") = Return (Some (JString (notes data))).
Proof.
  intro Hok.
  destruct (decrypt_encrypted data masterPassword rng L Hok)
    as (blob & Henc & _ & _ & _ & Hdec).
  exists blob. repeat split; assumption || reflexivity.
Qed.

(** ** The vault: export and import *)

Lemma map_all_returns {A : Type} (l : list A) :
  map_all (fun c : completion A => c) (map Return l) = Return l.
Proof.
  induction l as [|a l IH]; [reflexivity|].
  cbn [map map_all bind]. now rewrite IH.
Qed.

Lemma map_all_Forall2 {A B : Type} (f : A -> completion B) (l : list A)
                      (out : list B) :
  map_all f l = Return out <-> Forall2 (fun a b => f a = Return b) l out.
Proof.
  revert out. induction l as [|a l IH]; intro out; cbn [map_all].
  - split.
    + intro E. injection E as <-. constructor.
    + intro H. inversion H. reflexivity.
  - split.
    + destruct (f a) as [b|e] eqn:Ea; cbn [bind]; [|discriminate].
      destruct (map_all f l) as [bs|e] eqn:El; cbn [bind]; [|discriminate].
      intro E. injection E as <-. constructor; [exact Ea | now apply IH].
    + intro H. inversion H as [|? b ? bs Ha Hl]; subst.
      rewrite Ha. cbn [bind]. apply IH in Hl. rewrite Hl. reflexivity.
Qed.

Lemma map_all_throws {A B : Type} (f : A -> completion B) (l : list A)
                     (a : A) (e : exn) :
  In a l -> f a = Throw e -> exists e', map_all f l = Throw e'.
Proof.
  induction l as [|x l IH]; intros Hin Ha; [destruct Hin|].
  cbn [map_all]. destruct Hin as [->|Hin].
  - rewrite Ha. eexists. reflexivity.
  - destruct (f x) as [b|e0]; cbn [bind]; [|eexists; reflexivity].
    destruct (IH Hin Ha) as [e' ->]. eexists. reflexivity.
Qed.

Lemma encrypt_items_spec (L : PlatformLaws P) (items : list VaultItem)
                         (masterPassword : jsstring) (rng : RandomSource) :
  Forall VaultItem_ok items ->
  exists blobs,
    fst (encrypt_items items masterPassword rng) = map Return blobs /\
    Forall2 (fun item blob =>
               (exists rng', fst (encryptVaultItem item masterPassword rng')
                             = Return blob) /\
               jsstring_ok (encrypted blob) /\ jsstring_ok (salt blob) /\
               jsstring_ok (iv blob) /\
               decryptVaultItem (EncryptedData_object blob) masterPassword
               = Return (VaultItem_object item))
            items blobs.
Proof.
  intro Hok. revert rng. induction Hok as [|item items Hitem _ IH]; intro rng.
  - exists []. split; [reflexivity | constructor].
  - cbn [encrypt_items].
    destruct (decrypt_encrypted item masterPassword rng L Hitem)
      as (blob & Henc & He & Hs & Hi & Hdec).
    destruct (encryptVaultItem item masterPassword rng) as [c rng1] eqn:E1.
    cbn [fst] in Henc. subst c.
    destruct (IH rng1) as (blobs & Hblobs & Hall).
    destruct (encrypt_items items masterPassword rng1) as [cs rng2].
    cbn [fst] in Hblobs |- *. subst cs.
    exists (blob :: blobs). split; [reflexivity|].
    constructor; [|exact Hall].
    split; [exists rng; now rewrite E1 | auto].
Qed.

Lemma container_printable (now : jsstring) (blobs : list EncryptedData) :
  jsstring_ok now ->
  Forall (fun blob => jsstring_ok (encrypted blob) /\ jsstring_ok (salt blob) /\
                      jsstring_ok (iv blob)) blobs ->
  printable (container now blobs).
Proof.
  intros Hnow Hblobs. unfold container. constructor.
  constructor; [split; [apply jsstring_okb_ok; reflexivity|]|].
  { constructor. lia. }
  constructor; [split; [apply jsstring_okb_ok; reflexivity | now constructor]|].
  constructor; [split; [apply jsstring_okb_ok; reflexivity|]|constructor].
  constructor. rewrite Forall_map. eapply Forall_impl; [|exact Hblobs].
  cbv beta. intros blob (He & Hs & Hi). unfold EncryptedData_object.
  constructor.
  repeat (constructor;
          [split; [apply jsstring_okb_ok; reflexivity
                  | constructor; assumption]|]).
  constructor.
Qed.

(** The import of a text that parses to the container of [blobs] decrypts
    the blobs in order. *)
Lemma import_container (text masterPassword now : jsstring)
                       (blobs : list EncryptedData) :
  parse text = Return (container now blobs) ->
  importVaultData_try text masterPassword =
  map_all (fun encryptedItem => decryptVaultItem encryptedItem masterPassword)
          (map EncryptedData_object blobs).
Proof.
  intro Hparse. unfold importVaultData_try. rewrite Hparse. reflexivity.
Qed.

(** C10: whatever the body of [importVaultData] throws (a syntax error, a
    type error, the invalid-format error, a failed decryption), the caller
    receives one and the same error. *)
Theorem import_failure_is_generic (exportedData masterPassword : jsstring) :
  (forall e, importVaultData_try exportedData masterPassword = Throw e ->
             importVaultData exportedData masterPassword = Throw import_failed) /\
  (forall e, importVaultData exportedData masterPassword = Throw e ->
             e = import_failed) /\
  (forall items, importVaultData exportedData masterPassword = Return items <->
                 importVaultData_try exportedData masterPassword = Return items).
Proof.
  unfold importVaultData.
  destruct (importVaultData_try exportedData masterPassword) as [items|e0].
  - split; [discriminate|]. split; [discriminate|]. reflexivity.
  - split; [reflexivity|]. split; [now intros e [= <-]|].
    intro items. split; discriminate.
Qed.

(** C5: when the container parses, passes the format check and holds a
    sequence of items, the import returns a sequence only if every item
    decrypts, and then returns the decryption of every item in order; if
    some item fails to decrypt, the import fails with the generic error
    and returns nothing. *)
Theorem import_all_or_nothing (exportedData masterPassword : jsstring)
                              (data : JSValue) (elements : list JSValue) :
  parse exportedData = Return data ->
  ToBoolean (property data (str "version")) = true ->
  property data (str "items") = Some (JArray elements) ->
  (forall out, importVaultData exportedData masterPassword = Return out <->
               Forall2 (fun item record =>
                          decryptVaultItem item masterPassword = Return record)
                       elements out) /\
  (forall item e, In item elements ->
                  decryptVaultItem item masterPassword = Throw e ->
                  importVaultData exportedData masterPassword = Throw import_failed).
Proof.
  intros Hparse Hversion Hitems.
  assert (Htry : importVaultData_try exportedData masterPassword =
                 map_all (fun item => decryptVaultItem item masterPassword) elements).
  { unfold importVaultData_try. rewrite Hparse. cbn [bind].
    destruct data; try discriminate.
    cbn [Get bind]. rewrite Hversion, Hitems. reflexivity. }
  split.
  - intro out. unfold importVaultData. rewrite Htry.
    rewrite <- map_all_Forall2.
    destruct (map_all _ elements); split; intro E; congruence.
  - intros item e Hin Hfail. unfold importVaultData. rewrite Htry.
    destruct (map_all_throws (fun x => decryptVaultItem x masterPassword)
                elements item e Hin Hfail) as [e' ->].
    reflexivity.
Qed.

(** *** The exceptions of a decryption *)

Lemma map_all_exn {A B : Type} (Q : exn -> Prop) (f : A -> completion B)
                  (l : list A) (e : exn) :
  (forall a e', In a l -> f a = Throw e' -> Q e') ->
  map_all f l = Throw e -> Q e.
Proof.
  induction l as [|a l IH]; intros Hf; cbn [map_all]; [discriminate|].
  destruct (f a) as [b|e0] eqn:Ea; cbn [bind].
  - destruct (map_all f l) as [bs|e1] eqn:El; cbn [bind]; [discriminate|].
    intros [= <-]. apply IH; [|reflexivity].
    intros a' e' Hin. apply Hf. now right.
  - intros [= <-]. apply (Hf a); [now left | exact Ea].
Qed.

Lemma ToString_value_exn (v : JSValue) (e : exn) :
  ToString_value v = Throw e -> platform_exn e.
Proof.
  revert e.
  induction v as [| b | m e' | s | l IH | ms IH] using JSValue_nested_ind;
    intro e; cbn [ToString_value]; try discriminate.
  - destruct b; discriminate.
  - destruct (map_all _ l) as [parts|e0] eqn:E; cbn [bind]; [discriminate|].
    intros [= <-]. revert E. apply map_all_exn.
    intros x e' Hin. rewrite Forall_forall in IH. specialize (IH x Hin).
    destruct x; try discriminate; apply IH.
  - destruct (lookup (str "toString") ms); [|discriminate].
    intros [= <-]. exact I.
Qed.

Lemma ToString_exn (v : option JSValue) (e : exn) :
  ToString v = Throw e -> platform_exn e.
Proof.
  destruct v as [v|]; [apply ToString_value_exn | discriminate].
Qed.

Lemma Get_exn (v : JSValue) (key : jsstring) (e : exn) :
  Get v key = Throw e -> platform_exn e.
Proof. destruct v; cbn [Get]; try discriminate. now intros [= <-]. Qed.

Lemma base64ToArrayBuffer_exn (text : jsstring) (e : exn) :
  base64ToArrayBuffer text = Throw e -> platform_exn e.
Proof.
  unfold base64ToArrayBuffer, Base64.atob.
  destruct (_ =? 1); [now intros [= <-]|].
  destruct (Base64.sextets _); cbn [bind]; [discriminate | now intros [= <-]].
Qed.

Lemma parse_exn (text : jsstring) (e : exn) :
  parse text = Throw e -> e = SyntaxError.
Proof.
  unfold parse. destruct (parse_value _ _) as [[v rest]|]; [|now intros [= <-]].
  destruct (skip_whitespace rest); [discriminate | now intros [= <-]].
Qed.

Ltac bind_exn H lemma :=
  match type of H with
  | bind ?c _ = Throw _ =>
      let E := fresh "E" in
      destruct c eqn:E; cbn [bind] in H;
      [| injection H as <-; eapply lemma; exact E]
  end.

Lemma decryptVaultItem_exn (item : JSValue) (masterPassword : jsstring) (e : exn) :
  decryptVaultItem item masterPassword = Throw e -> platform_exn e.
Proof.
  unfold decryptVaultItem. intro H.
  bind_exn H Get_exn. bind_exn H ToString_exn. bind_exn H base64ToArrayBuffer_exn.
  bind_exn H Get_exn. bind_exn H ToString_exn. bind_exn H base64ToArrayBuffer_exn.
  bind_exn H Get_exn. bind_exn H ToString_exn. bind_exn H base64ToArrayBuffer_exn.
  cbv zeta in H. destruct (AES_GCM_decrypt _ _ _).
  - unfold deserializeRecord in H. apply parse_exn in H. now subst.
  - injection H as <-. exact I.
Qed.

(** C4, amended: the format check of the import rejects the container
    exactly when the text parses to a value other than [null] whose
    [version] or [items] is falsy (absent, [null], [false], zero or the
    empty string); when both are truthy the items are decrypted, which
    needs [items] to be an array; the rejection reaches the caller as the
    generic import error. *)
Theorem import_format_check (exportedData masterPassword : jsstring) :
  (importVaultData_try exportedData masterPassword = Throw invalid_format <->
   exists data,
     parse exportedData = Return data /\ data <> JNull /\
     (ToBoolean (property data (str "version")) = false \/
      ToBoolean (property data (str "items")) = false)) /\
  (forall data,
      parse exportedData = Return data ->
      ToBoolean (property data (str "version")) = true ->
      ToBoolean (property data (str "items")) = true ->
      importVaultData_try exportedData masterPassword =
      match property data (str "items") with
      | Some (JArray elements) =>
          map_all (fun item => decryptVaultItem item masterPassword) elements
      | _ => Throw TypeError
      end) /\
  (importVaultData_try exportedData masterPassword = Throw invalid_format ->
   importVaultData exportedData masterPassword = Throw import_failed).
Proof.
  assert (Hbody : forall data,
            parse exportedData = Return data -> data <> JNull ->
            importVaultData_try exportedData masterPassword =
            if negb (ToBoolean (property data (str "version")))
               || negb (ToBoolean (property data (str "items")))
            then Throw invalid_format
            else match property data (str "items") with
                 | Some (JArray elements) =>
                     map_all (fun item => decryptVaultItem item masterPassword)
                             elements
                 | _ => Throw TypeError
                 end).
  { intros data Hparse Hnn. unfold importVaultData_try. rewrite Hparse.
    cbn [bind]. destruct data; try contradiction; reflexivity. }
  split; [split|split].
  - intro H. destruct (parse exportedData) as [data|e] eqn:Hparse.
    + destruct (JSValue_eq_null data) as [->|Hnn].
      * unfold importVaultData_try in H. rewrite Hparse in H. discriminate.
      * exists data. split; [reflexivity|]. split; [exact Hnn|].
        rewrite (Hbody data eq_refl Hnn) in H.
        destruct (ToBoolean (property data (str "version"))); [|now left].
        destruct (ToBoolean (property data (str "items"))); [|now right].
        exfalso. cbn [negb orb] in H.
        destruct (property data (str "items")) as [[| | | | elements |]|];
          try discriminate.
        apply (map_all_exn platform_exn) in H; [exact H|].
        intros item e _. apply decryptVaultItem_exn.
    + unfold importVaultData_try in H. rewrite Hparse in H.
      cbn [bind] in H. apply parse_exn in Hparse. subst e. discriminate.
  - intros (data & Hparse & Hnn & Hfalsy). rewrite (Hbody data Hparse Hnn).
    destruct Hfalsy as [-> | ->]; [reflexivity|].
    now rewrite orb_true_r.
  - intros data Hparse Hv Hi.
    assert (Hnn : data <> JNull) by (intros ->; discriminate).
    rewrite (Hbody data Hparse Hnn), Hv, Hi. reflexivity.
  - intro H. unfold importVaultData. now rewrite H.
Qed.

(** C2, amended: the deserialisation of a record returns a value exactly
    when the decoded bytes are a JSON text (of the grammar of ECMA-404)
    that denotes this value.  So every valid JSON text is returned as
    parsed, whether or not the value has the five fields, and a serialised
    value is returned as it was; bytes that are not a JSON text make it
    fail, and it fails with nothing but a syntax error.  A text denotes at
    most one value. *)
Theorem deserialize_checks_syntax_only (decrypted : list byte) :
  (forall v, deserializeRecord decrypted = Return v <->
             Grammar.json_text (Utf8.decode decrypted) v) /\
  ((forall v, ~ Grammar.json_text (Utf8.decode decrypted) v) ->
   deserializeRecord decrypted = Throw SyntaxError) /\
  (forall e, deserializeRecord decrypted = Throw e -> e = SyntaxError) /\
  (forall v, printable v ->
             deserializeRecord (Utf8.encode (stringify v)) = Return v) /\
  (forall v1 v2, Grammar.json_text (Utf8.decode decrypted) v1 ->
                 Grammar.json_text (Utf8.decode decrypted) v2 -> v1 = v2).
Proof.
  unfold deserializeRecord. split; [|split; [|split; [|split]]].
  - intros v. split; [apply parse_sound | apply parse_complete].
  - intro Hnone. destruct (parse (Utf8.decode decrypted)) as [v|e] eqn:E.
    + exfalso. apply (Hnone v). now apply parse_sound.
    + apply parse_exn in E. now subst.
  - intros e. apply parse_exn.
  - intros v. apply parse_decode_encode_stringify.
  - intros v1 v2. apply json_text_functional.
Qed.

End VaultProperties.

Lemma decrypt_encrypt_round_trip_witness :
  exists blob,
    fst (Vault.encryptVaultItem (P := Vault.model_platform) bank_record
           (str "correct horse battery") counting_source) = Return blob /\
    Vault.decryptVaultItem (P := Vault.model_platform)
      (Vault.EncryptedData_object blob) (str "correct horse battery") =
      Return (Vault.VaultItem_object bank_record).
Proof.
  destruct (decrypt_encrypt_round_trip (P := Vault.model_platform)
              model_platform_laws bank_record
              (str "correct horse battery") counting_source) as (blob & H1 & H2 & _).
  - unfold VaultItem_ok. repeat split; apply jsstring_okb_ok; reflexivity.
  - exists blob. split; assumption.
Defined.

(** A container whose single item does not decrypt under the password. *)
Lemma import_all_or_nothing_witness :
  Vault.importVaultData (P := Vault.model_platform)
    (json_literal
       "{'version':1,'items':[{'encrypted':'AAAA','salt':'AAAA','iv':'AAAA'}]}")
    (str "correct horse battery") = Throw Vault.import_failed.
Proof.
  pose (item := JSON.JObject [(str "encrypted", JSON.JString (str "AAAA"));
                              (str "salt", JSON.JString (str "AAAA"));
                              (str "iv", JSON.JString (str "AAAA"))]).
  refine (proj2 (import_all_or_nothing (P := Vault.model_platform) _ _
                   (JSON.JObject [(str "version", JSON.JNumber 1 0);
                                  (str "items", JSON.JArray [item])])
                   [item] _ _ _) item OperationError _ _);
    vm_compute; first [reflexivity | left; reflexivity].
Defined.

Lemma import_failure_is_generic_witness :
  Vault.importVaultData (P := Vault.model_platform) (str "not json")
    (str "correct horse battery") = Throw Vault.import_failed.
Proof.
  apply (proj1 (import_failure_is_generic (P := Vault.model_platform)
                  (str "not json") (str "correct horse battery")) SyntaxError).
  vm_compute. reflexivity.
Defined.

(** C4, as stated, fails: a container that has both fields, with
    [version] 0, is rejected by the format check. *)
Lemma import_rejects_version_zero :
  let text := json_literal "{'version':0,'items':[]}" in
  JSON.parse text =
    Return (JSON.JObject [(str "version", JSON.JNumber 0 0);
                          (str "items", JSON.JArray [])]) /\
  Vault.importVaultData_try (P := Vault.model_platform) text (str "pw") =
    Throw Vault.invalid_format /\
  Vault.importVaultData (P := Vault.model_platform) text (str "pw") =
    Throw Vault.import_failed.
Proof. vm_compute. repeat split. Qed.

Lemma import_format_check_witness :
  Vault.importVaultData (P := Vault.model_platform)
    (json_literal "{'version':1}") (str "pw") = Throw Vault.import_failed.
Proof.
  apply (proj2 (proj2 (import_format_check (P := Vault.model_platform)
                         (json_literal "{'version':1}") (str "pw")))).
  vm_compute. reflexivity.
Defined.


(** C2, as stated, fails: bytes that hold a JSON text without the five
    fields (an empty object, an object with a title only, a number) are
    deserialised to a value. *)
Lemma deserialize_accepts_missing_fields :
  Vault.deserializeRecord (Utf8.encode (json_literal "{}")) =
    Return (JSON.JObject []) /\
  JSON.property (JSON.JObject []) (str "title") = None /\
  Vault.deserializeRecord (Utf8.encode (json_literal "{'title':'Bank'}")) =
    Return (JSON.JObject [(str "title", JSON.JString (str "Bank"))]) /\
  Vault.deserializeRecord (Utf8.encode (str "42")) = Return (JSON.JNumber 42 0).
Proof. vm_compute. repeat split. Qed.

Lemma deserialize_checks_syntax_only_witness :
  Grammar.json_text (Utf8.decode (Utf8.encode (json_literal "{}")))
                    (JSON.JObject []).
Proof.
  apply (proj1 (proj1 (deserialize_checks_syntax_only (P := Vault.model_platform)
                         (Utf8.encode (json_literal "{}"))) (JSON.JObject []))).
  vm_compute. reflexivity.
Defined.

(** ** Validation of the master password, the sign-up form and the generator *)

Section ValidationProperties.
Import Generator Strength Validation.

Lemma test_lower_spec (password : jsstring) :
  test_lower password = true <-> exists c, In c password /\ 97 <= c <= 122.
Proof.
  unfold test_lower. rewrite existsb_exists. unfold in_range.
  split; intros (c & Hin & Hc); exists c; (split; [exact Hin | lia]).
Qed.

Lemma test_upper_spec (password : jsstring) :
  test_upper password = true <-> exists c, In c password /\ 65 <= c <= 90.
Proof.
  unfold test_upper. rewrite existsb_exists. unfold in_range.
  split; intros (c & Hin & Hc); exists c; (split; [exact Hin | lia]).
Qed.

Lemma test_digit_spec (password : jsstring) :
  test_digit password = true <-> exists c, In c password /\ 48 <= c <= 57.
Proof.
  unfold test_digit. rewrite existsb_exists. unfold in_range.
  split; intros (c & Hin & Hc); exists c; (split; [exact Hin | lia]).
Qed.

Lemma test_other_spec (password : jsstring) :
  test_other password = true <->
  exists c, In c password /\
            ~ 97 <= c <= 122 /\ ~ 65 <= c <= 90 /\ ~ 48 <= c <= 57.
Proof.
  unfold test_other. rewrite existsb_exists. unfold in_range.
  split; intros (c & Hin & Hc); exists c; (split; [exact Hin | lia]).
Qed.

(** The result is valid exactly when the five rules hold. *)
Lemma isValid_rules (password : jsstring) :
  isValid (validatePasswordStrength password) =
  (12 <=? List.length password)%nat && test_lower password
    && test_upper password && test_digit password && test_other password.
Proof.
  unfold validatePasswordStrength.
  destruct (Nat.ltb_spec (List.length password) 12) as [Hlt|Hge];
    destruct (Nat.leb_spec 12 (List.length password)) as [Hle|Hgt]; try lia;
    destruct (test_lower password), (test_upper password),
      (test_digit password), (test_other password); reflexivity.
Qed.

(** X1: [validatePasswordStrength] accepts a password exactly when it has
    at least 12 code units and holds a lower-case letter, an upper-case
    letter, a digit and a code unit that is none of these (a space, a
    symbol, any non-ASCII character); it reports one error for each rule
    that fails, so at most five. *)
Theorem validation_accepts (password : jsstring) :
  (isValid (validatePasswordStrength password) = true <->
   (12 <= List.length password)%nat /\
   (exists c, In c password /\ 97 <= c <= 122) /\
   (exists c, In c password /\ 65 <= c <= 90) /\
   (exists c, In c password /\ 48 <= c <= 57) /\
   (exists c, In c password /\
              ~ 97 <= c <= 122 /\ ~ 65 <= c <= 90 /\ ~ 48 <= c <= 57)) /\
  List.length (errors (validatePasswordStrength password)) =
    ((if (List.length password <? 12)%nat then 1 else 0)
     + (if test_lower password then 0 else 1)
     + (if test_upper password then 0 else 1)
     + (if test_digit password then 0 else 1)
     + (if test_other password then 0 else 1))%nat.
Proof.
  split.
  - rewrite isValid_rules, !andb_true_iff, Nat.leb_le.
    rewrite test_lower_spec, test_upper_spec, test_digit_spec, test_other_spec.
    tauto.
  - unfold validatePasswordStrength.
    destruct (List.length password <? 12)%nat, (test_lower password),
      (test_upper password), (test_digit password), (test_other password);
      reflexivity.
Qed.

(** X2: the sign-up form and the validator agree.  The test of the form,
    [isPasswordStrong], holds exactly when [validatePasswordStrength]
    accepts the password, and [handleSubmit] calls [signup] only with the
    typed e-mail and password, when the confirmation is the same string and
    the validator accepts the password; different passwords are reported
    before a weak one. *)
Theorem signup_requires_valid_password (email password confirmPassword : jsstring) :
  Signup.isPasswordStrong password = isValid (validatePasswordStrength password) /\
  (forall e p,
      Signup.handleSubmit email password confirmPassword = Signup.CallSignup e p <->
      e = email /\ p = password /\ password = confirmPassword /\
      isValid (validatePasswordStrength password) = true) /\
  (password <> confirmPassword ->
   Signup.handleSubmit email password confirmPassword =
   Signup.SetError (str "Passwords do not match")).
Proof.
  assert (Hagree : Signup.isPasswordStrong password =
                   isValid (validatePasswordStrength password)).
  { rewrite isValid_rules. unfold Signup.isPasswordStrong, Signup.values,
      Signup.passwordStrength. cbn [forallb Signup.hasLength Signup.hasLower
      Signup.hasUpper Signup.hasNumber Signup.hasSpecial].
    rewrite andb_true_r, !andb_assoc. reflexivity. }
  split; [exact Hagree|]. unfold Signup.handleSubmit. rewrite Hagree.
  destruct (jsstring_eqb password confirmPassword) eqn:Eeq; cbn [negb].
  - apply jsstring_eqb_eq in Eeq. split.
    + intros e p.
      destruct (isValid (validatePasswordStrength password)); cbn [negb]; split.
      * intro H. injection H as <- <-. repeat split. exact Eeq.
      * intros (-> & -> & _ & _). reflexivity.
      * discriminate.
      * intros (_ & _ & _ & H). discriminate.
    + intro Hne. contradiction.
  - split.
    + intros e p. split; [discriminate|].
      intros (_ & _ & Heq & _). apply jsstring_eqb_eq in Heq. congruence.
    + reflexivity.
Qed.

(** X3: the validator and the estimator use the same four character
    classes: a password is accepted exactly when it has at least 12 code
    units and [calculatePasswordEntropy] gives it the full alphabet of 94,
    and the entropy of an accepted password is then
    [Math.log2(Math.pow(94, length))]. *)
Theorem valid_password_alphabet (Math_pow : float -> float -> float)
                                (Math_log2 : float -> float)
                                (password : jsstring) :
  isValid (validatePasswordStrength password) =
    (12 <=? List.length password)%nat && (charsetSize_of password =? 94) /\
  (isValid (validatePasswordStrength password) = true ->
   calculatePasswordEntropy Math_pow Math_log2 password =
   Math_log2 (Math_pow 94%float (number_of_Z (Z.of_nat (List.length password))))).
Proof.
  assert (H : isValid (validatePasswordStrength password) =
              (12 <=? List.length password)%nat && (charsetSize_of password =? 94)).
  { rewrite isValid_rules, charsetSize_of_classes.
    destruct (12 <=? List.length password)%nat, (test_lower password),
      (test_upper password), (test_digit password), (test_other password);
      reflexivity. }
  split; [exact H|]. rewrite H. intro Hv.
  apply andb_true_iff in Hv as [_ Hs]. apply Z.eqb_eq in Hs.
  unfold calculatePasswordEntropy. rewrite Hs. reflexivity.
Qed.

(** The letters and digits are in the first three classes of the tests. *)
Lemma letters_digits_classes (c : Z) :
  In c lowercase \/ In c uppercase \/ In c numbers ->
  in_range 97 122 c || in_range 65 90 c || in_range 48 57 c = true.
Proof.
  intro H. vm_compute in H.
  repeat match goal with
         | H : _ \/ _ |- _ => destruct H
         | H : False |- _ => contradiction
         | H : _ = c |- _ => subst c; reflexivity
         end.
Qed.

Lemma letters_symbols_not_digits (c : Z) :
  In c lowercase \/ In c uppercase \/ In c symbols ->
  in_range 48 57 c = false.
Proof.
  intro H. vm_compute in H.
  repeat match goal with
         | H : _ \/ _ |- _ => destruct H
         | H : False |- _ => contradiction
         | H : _ = c |- _ => subst c; reflexivity
         end.
Qed.

Lemma existsb_false {A : Type} (f : A -> bool) (l : list A) :
  Forall (fun a => f a = false) l -> existsb f l = false.
Proof.
  induction 1 as [|a l Ha _ IH]; [reflexivity|].
  cbn [existsb]. now rewrite Ha, IH.
Qed.

(** The tests of the estimator never find, in a generated password, a
    class that the policy leaves out. *)
Lemma generated_classes (o : PasswordOptions) (source : nat -> Z)
                        (password : jsstring) :
  generateSecurePassword o source = Return password ->
  (includeNumbers o = false -> test_digit password = false) /\
  (includeSymbols o = false -> test_other password = false).
Proof.
  intro Hret. destruct (generated_in_charset o source password Hret) as (_ & _ & Hall).
  split; intro Hoff.
  - apply existsb_false. eapply Forall_impl; [|exact Hall]. cbv beta.
    intros c Hc. apply charset_of_In in Hc as [Hc _]. rewrite Hoff in Hc.
    apply letters_symbols_not_digits.
    destruct Hc as [H|[H|[[H _]|[_ H]]]]; try discriminate; auto.
  - apply existsb_false. eapply Forall_impl; [|exact Hall]. cbv beta.
    intros c Hc. apply charset_of_In in Hc as [Hc _]. rewrite Hoff in Hc.
    rewrite letters_digits_classes; [reflexivity|].
    destruct Hc as [H|[H|[[_ H]|[H _]]]]; try discriminate; auto.
Qed.

(** X4: a password generated without symbols, without digits, or with
    fewer than 12 characters is never accepted by
    [validatePasswordStrength], whatever the random words: this holds of
    every password that the generator returns. *)
Theorem generated_without_class_is_rejected (o : PasswordOptions)
                                            (source : nat -> Z)
                                            (password : jsstring) :
  generateSecurePassword o source = Return password ->
  includeSymbols o = false \/ includeNumbers o = false \/ (length o < 12)%nat ->
  isValid (validatePasswordStrength password) = false.
Proof.
  intros Hret H. rewrite isValid_rules.
  destruct (generated_classes o source password Hret) as [Hd Hs].
  destruct (generated_in_charset o source password Hret) as (_ & Hlen & _).
  destruct H as [H|[H|H]].
  - rewrite (Hs H). now rewrite andb_false_r.
  - rewrite (Hd H). now rewrite andb_false_r.
  - rewrite Hlen. destruct (Nat.leb_spec 12 (length o)); [lia | reflexivity].
Qed.

(** X5: the estimator never credits a generated password with a class that
    the policy leaves out: the alphabet size of every password that the
    generator returns is at most 52, plus 10 when digits are included,
    plus 32 when symbols are included. *)
Theorem generated_alphabet_bound (o : PasswordOptions) (source : nat -> Z)
                                 (password : jsstring) :
  generateSecurePassword o source = Return password ->
  charsetSize_of password <=
  52 + (if includeNumbers o then 10 else 0) + (if includeSymbols o then 32 else 0).
Proof.
  intro Hret. rewrite charsetSize_of_classes.
  destruct (generated_classes o source password Hret) as [Hd Hs].
  destruct (includeNumbers o), (includeSymbols o);
    rewrite ?Hd, ?Hs by reflexivity;
    destruct (test_lower _), (test_upper _);
    try destruct (test_digit _); try destruct (test_other _); lia.
Qed.

Lemma flat_map_select_zero (charset : jsstring) (c : Z) (rest : jsstring)
                           (rv : list Z) :
  charset = c :: rest -> Forall (fun u => u = 0) rv ->
  flat_map (select charset) rv = repeat c (List.length rv).
Proof.
  intros -> Hrv. induction Hrv as [|u rv -> _ IH]; [reflexivity|].
  cbn [flat_map List.length repeat]. rewrite IH.
  unfold select, js_rem. cbn [List.length].
  destruct (Z.eqb_spec (Z.of_nat (S (List.length rest))) 0) as [E|_]; [lia|].
  rewrite Z.mod_0_l by lia. reflexivity.
Qed.

(** X6: the generator does not make sure that every class it may use
    occurs.  For every policy whose length the random source serves (at
    most 16384) there is a state of the source (all words zero) for which
    the generator returns a run of the letter [a], which
    [validatePasswordStrength] rejects. *)
Theorem generated_may_be_rejected (o : PasswordOptions) :
  Z.of_nat (length o) <= 16384 ->
  exists source,
    generateSecurePassword o source = Return (repeat 97 (length o)) /\
    isValid (validatePasswordStrength (repeat 97 (length o))) = false.
Proof.
  intro Hle. exists (fun _ => 0). split.
  - rewrite generate_returns by exact Hle. f_equal.
    rewrite generate_loop_flat_map. cbn [app].
    assert (Hc : exists rest, charset_of o = 97 :: rest).
    { unfold charset_of.
      destruct (includeNumbers o), (includeSymbols o), (excludeAmbiguous o);
        eexists; vm_compute; reflexivity. }
    destruct Hc as [rest Hc].
    rewrite (flat_map_select_zero _ 97 rest _ Hc).
    + now rewrite length_map, length_seq.
    + apply Forall_forall. intros u Hin.
      apply in_map_iff in Hin as (i & <- & _). reflexivity.
  - rewrite isValid_rules.
    replace (test_upper (repeat 97 (length o))) with false.
    + now rewrite andb_false_r.
    + symmetry. apply existsb_false. apply Forall_forall. intros c Hc.
      apply repeat_spec in Hc. subst c. reflexivity.
Qed.

(** X7: the alphabet size of the estimator is 0 exactly for the empty
    password; for every other password it lies between 10 and 94, because
    each code unit belongs to one of the four classes, a code unit that is
    not an ASCII letter or digit counting as a symbol. *)
Theorem charset_size_bounds (password : jsstring) :
  (charsetSize_of password = 0 <-> password = []) /\
  (password <> [] -> 10 <= charsetSize_of password <= 94) /\
  (forall c, In c password ->
             ~ 97 <= c <= 122 -> ~ 65 <= c <= 90 -> ~ 48 <= c <= 57 ->
             32 <= charsetSize_of password).
Proof.
  assert (Hcover : password <> [] ->
                   test_lower password = true \/ test_upper password = true \/
                   test_digit password = true \/ test_other password = true).
  { destruct password as [|c r]; [congruence|]. intros _.
    unfold test_lower, test_upper, test_digit, test_other. cbn [existsb].
    destruct (in_range 97 122 c); [auto|].
    destruct (in_range 65 90 c); [auto|].
    destruct (in_range 48 57 c); cbn [orb negb]; auto. }
  rewrite charsetSize_of_classes. split; [|split].
  - split.
    + intro H0. destruct password as [|c r]; [reflexivity|]. exfalso.
      destruct Hcover as [H|[H|[H|H]]]; [discriminate|..];
        rewrite H in H0;
        destruct (test_lower _), (test_upper _), (test_digit _), (test_other _);
        lia.
    + intros ->. reflexivity.
  - intro Hne.
    destruct (Hcover Hne) as [H|[H|[H|H]]]; rewrite H;
      destruct (test_lower _), (test_upper _), (test_digit _), (test_other _);
      lia.
  - intros c Hin H1 H2 H3.
    assert (Ho : test_other password = true).
    { apply test_other_spec. exists c. tauto. }
    rewrite Ho.
    destruct (test_lower _), (test_upper _), (test_digit _); lia.
Qed.

End ValidationProperties.

Lemma valid_password_alphabet_witness :
  Strength.calculatePasswordEntropy (fun x y => x) (fun x => x)
    (str "aA1!aA1!aA1!") = 94%float.
Proof.
  apply (proj2 (valid_password_alphabet (fun x y => x) (fun x => x)
                  (str "aA1!aA1!aA1!"))).
  vm_compute. reflexivity.
Defined.

Lemma generated_without_class_is_rejected_witness :
  exists password,
    Generator.generateSecurePassword
      {| Generator.length := 16; Generator.includeNumbers := true;
         Generator.includeSymbols := false;
         Generator.excludeAmbiguous := true |}
      (fun i => Z.of_nat i * 7) = Return password /\
    Validation.isValid (Validation.validatePasswordStrength password) = false.
Proof.
  eexists. split; [vm_compute; reflexivity|].
  eapply (generated_without_class_is_rejected
            {| Generator.length := 16; Generator.includeNumbers := true;
               Generator.includeSymbols := false;
               Generator.excludeAmbiguous := true |}
            (fun i => Z.of_nat i * 7)).
  - vm_compute. reflexivity.
  - left. reflexivity.
Defined.

Lemma generated_alphabet_bound_witness :
  exists password,
    Generator.generateSecurePassword
      {| Generator.length := 16; Generator.includeNumbers := true;
         Generator.includeSymbols := false;
         Generator.excludeAmbiguous := true |}
      (fun i => Z.of_nat i * 7) = Return password /\
    Strength.charsetSize_of password <= 62.
Proof.
  eexists. split; [vm_compute; reflexivity|].
  eapply (generated_alphabet_bound
            {| Generator.length := 16; Generator.includeNumbers := true;
               Generator.includeSymbols := false;
               Generator.excludeAmbiguous := true |}
            (fun i => Z.of_nat i * 7)).
  vm_compute. reflexivity.
Defined.

Lemma generated_may_be_rejected_witness :
  exists source,
    Generator.generateSecurePassword
      {| Generator.length := 16; Generator.includeNumbers := true;
         Generator.includeSymbols := true;
         Generator.excludeAmbiguous := true |} source
    = Return (repeat 97 16) /\
    Validation.isValid (Validation.validatePasswordStrength (repeat 97 16)) = false.
Proof.
  apply (generated_may_be_rejected
           {| Generator.length := 16; Generator.includeNumbers := true;
              Generator.includeSymbols := true;
              Generator.excludeAmbiguous := true |}).
  vm_compute. discriminate.
Defined.

Lemma signup_requires_valid_password_witness :
  Signup.handleSubmit (str "a@b.c") (str "aA1!aA1!aA1!") (str "aA1!aA1!aA1?") =
  Signup.SetError (str "Passwords do not match").
Proof.
  apply (proj2 (proj2 (signup_requires_valid_password
                         (str "a@b.c") (str "aA1!aA1!aA1!") (str "aA1!aA1!aA1?")))).
  intro H. discriminate H.
Defined.

Lemma charset_size_bounds_witness :
  10 <= Strength.charsetSize_of (str "7") <= 94.
Proof.
  apply (proj1 (proj2 (charset_size_bounds (str "7")))).
  discriminate.
Defined.

(** ** The base64 text of a buffer, the authentication hash and the random
    identifiers *)

Section BufferProperties.
Import Vault SecureId.

Lemma encode_bytes_length (bs : list Z) :
  List.length (Base64.encode_bytes bs) = (4 * ((List.length bs + 2) / 3))%nat.
Proof.
  induction bs as [| a | a b | a b c rest IH] using list_ind3;
    try reflexivity.
  cbn [Base64.encode_bytes List.length]. rewrite IH.
  replace (S (S (S (List.length rest))) + 2)%nat
    with (1 * 3 + (List.length rest + 2))%nat by lia.
  rewrite Nat.div_add_l by lia. lia.
Qed.

Lemma bytes_are_bytes (bytes : list byte) : Forall is_byte (map byte_to_Z bytes).
Proof.
  apply Forall_forall. intros c Hin. apply in_map_iff in Hin as (b & <- & _).
  apply byte_to_Z_range.
Qed.

Lemma base64_text_of_buffer (bytes : list byte) :
  exists text,
    arrayBufferToBase64 bytes = Return text /\
    base64ToArrayBuffer text = Return bytes /\
    List.length text = (4 * ((List.length bytes + 2) / 3))%nat /\
    (forall bytes', arrayBufferToBase64 bytes' = Return text -> bytes' = bytes).
Proof.
  exists (Base64.encode_bytes (map byte_to_Z bytes)).
  assert (Hdec : forall bs,
             base64ToArrayBuffer (Base64.encode_bytes (map byte_to_Z bs)) = Return bs).
  { intro bs. unfold base64ToArrayBuffer.
    rewrite atob_encode_bytes by apply bytes_are_bytes.
    cbn [bind]. now rewrite map_byte_of_to_Z. }
  split; [apply arrayBufferToBase64_spec|].
  split; [apply Hdec|].
  split; [now rewrite encode_bytes_length, length_map|].
  intros bytes' E. rewrite arrayBufferToBase64_spec in E.
  assert (E' : Base64.encode_bytes (map byte_to_Z bytes')
               = Base64.encode_bytes (map byte_to_Z bytes)) by congruence.
  pose proof (Hdec bytes') as H1. rewrite E', Hdec in H1. congruence.
Qed.

(** X8: for every buffer (empty, or longer than one chunk of the loop),
    [arrayBufferToBase64] returns a text of [4 * ceil(n / 3)] characters
    that [base64ToArrayBuffer] decodes to the same bytes; so two buffers
    with the same text are equal. *)
Theorem buffer_base64_round_trip (bytes : list byte) :
  exists text,
    arrayBufferToBase64 bytes = Return text /\
    base64ToArrayBuffer text = Return bytes /\
    List.length text = (4 * ((List.length bytes + 2) / 3))%nat /\
    (forall bytes', arrayBufferToBase64 bytes' = Return text -> bytes' = bytes).
Proof. apply base64_text_of_buffer. Qed.

(** X9: [hashPassword] never throws; its text decodes to the digest of the
    UTF-8 bytes of the password, so two passwords have the same text
    exactly when their digests are equal, and a digest of 32 bytes gives a
    text of 44 characters. *)
Theorem hash_is_base64_of_digest (SHA256 : list byte -> list byte)
                                 (password : jsstring) :
  exists text,
    hashPassword SHA256 password = Return text /\
    base64ToArrayBuffer text = Return (SHA256 (Utf8.encode password)) /\
    (forall password',
        hashPassword SHA256 password' = Return text <->
        SHA256 (Utf8.encode password') = SHA256 (Utf8.encode password)) /\
    (List.length (SHA256 (Utf8.encode password)) = 32%nat ->
     List.length text = 44%nat).
Proof.
  destruct (base64_text_of_buffer (SHA256 (Utf8.encode password)))
    as (text & Henc & Hdec & Hlen & Hinj).
  exists text. unfold hashPassword.
  split; [exact Henc|]. split; [exact Hdec|]. split.
  - intro password'. split.
    + intro E. now apply Hinj.
    + intros ->. exact Henc.
  - intro H32. rewrite Hlen, H32. reflexivity.
Qed.

Lemma join_nil (parts : list jsstring) : JSON.join [] parts = List.concat parts.
Proof.
  induction parts as [|p [|q rest] IH]; [reflexivity | |].
  - cbn [JSON.join List.concat]. now rewrite app_nil_r.
  - change (JSON.join [] (p :: q :: rest)) with (p ++ [] ++ JSON.join [] (q :: rest)).
    rewrite IH. reflexivity.
Qed.

(** A byte is written with exactly two digits. *)
Lemma hex_of_byte (b : byte) :
  padStart 2 48 (toString16 (byte_to_Z b)) =
  [JSON.hex_digit (byte_to_Z b / 16); JSON.hex_digit (byte_to_Z b mod 16)].
Proof. destruct b; reflexivity. Qed.

Lemma hex_of_byte_chars (b : byte) :
  forallb (includes hex_chars) (padStart 2 48 (toString16 (byte_to_Z b))) = true.
Proof. destruct b; reflexivity. Qed.

Lemma hex_of_bytes_cons (b : byte) (array : list byte) :
  hex_of_bytes (b :: array) =
  JSON.hex_digit (byte_to_Z b / 16) :: JSON.hex_digit (byte_to_Z b mod 16)
    :: hex_of_bytes array.
Proof.
  unfold hex_of_bytes. rewrite !join_nil. cbn [map List.concat].
  now rewrite hex_of_byte.
Qed.

Lemma hex_digit_injective (v w : Z) :
  0 <= v < 16 -> 0 <= w < 16 -> JSON.hex_digit v = JSON.hex_digit w -> v = w.
Proof.
  unfold JSON.hex_digit. intros Hv Hw.
  destruct (Z.ltb_spec v 10), (Z.ltb_spec w 10); lia.
Qed.

Lemma byte_to_Z_injective (a b : byte) : byte_to_Z a = byte_to_Z b -> a = b.
Proof.
  intro E. rewrite <- (byte_of_to_Z a), <- (byte_of_to_Z b). now rewrite E.
Qed.

Lemma hex_of_bytes_injective (a b : list byte) :
  hex_of_bytes a = hex_of_bytes b -> a = b.
Proof.
  revert b. induction a as [|x a IH]; intros [|y b] E.
  - reflexivity.
  - rewrite hex_of_bytes_cons in E. discriminate E.
  - rewrite hex_of_bytes_cons in E. discriminate E.
  - rewrite !hex_of_bytes_cons in E.
    assert (E1 : JSON.hex_digit (byte_to_Z x / 16) = JSON.hex_digit (byte_to_Z y / 16))
      by congruence.
    assert (E2 : JSON.hex_digit (byte_to_Z x mod 16) = JSON.hex_digit (byte_to_Z y mod 16))
      by congruence.
    assert (E3 : hex_of_bytes a = hex_of_bytes b) by congruence.
    pose proof (byte_to_Z_range x) as Hx. pose proof (byte_to_Z_range y) as Hy.
    apply hex_digit_injective in E1; [|lia|lia].
    apply hex_digit_injective in E2; [|lia|lia].
    f_equal; [apply byte_to_Z_injective; lia | now apply IH].
Qed.

Lemma hex_of_bytes_length (array : list byte) :
  List.length (hex_of_bytes array) = (2 * List.length array)%nat.
Proof.
  induction array as [|b array IH]; [reflexivity|].
  rewrite hex_of_bytes_cons. cbn [List.length]. rewrite IH. lia.
Qed.

Lemma hex_of_bytes_chars (array : list byte) :
  Forall (fun c => In c hex_chars) (hex_of_bytes array).
Proof.
  induction array as [|b array IH]; [constructor|].
  pose proof (hex_of_byte_chars b) as Hb. rewrite hex_of_byte in Hb.
  rewrite hex_of_bytes_cons.
  cbn [forallb] in Hb. apply andb_true_iff in Hb as [H1 Hb].
  apply andb_true_iff in Hb as [H2 _].
  constructor; [now apply includes_In|].
  constructor; [now apply includes_In | exact IH].
Qed.

Lemma generateSecureId_returns (length : nat) (rng : RandomSource) :
  Z.of_nat length <= 65536 ->
  generateSecureId length rng =
  (Return (hex_of_bytes (map rng (seq 0 length))), fun i => rng (length + i)%nat).
Proof.
  intro Hle. unfold generateSecureId, getRandomValues.
  destruct (Z.ltb_spec (2 ^ 53 - 1) (Z.of_nat length)); [lia|].
  destruct (Z.ltb_spec 65536 (Z.of_nat length)); [lia | reflexivity].
Qed.

Lemma generateSecureId_throws (length : nat) (rng : RandomSource) :
  65536 < Z.of_nat length ->
  exists e, generateSecureId length rng = (Throw e, rng).
Proof.
  intro Hgt. unfold generateSecureId.
  destruct (Z.ltb_spec (2 ^ 53 - 1) (Z.of_nat length)); [eexists; reflexivity|].
  destruct (Z.ltb_spec 65536 (Z.of_nat length)); [eexists; reflexivity | lia].
Qed.

Lemma generateSecureId_returned (length : nat) (rng : RandomSource) (id : jsstring) :
  fst (generateSecureId length rng) = Return id ->
  Z.of_nat length <= 65536 /\ id = hex_of_bytes (map rng (seq 0 length)).
Proof.
  intro H. destruct (Z.le_gt_cases (Z.of_nat length) 65536) as [Hle|Hgt].
  - rewrite generateSecureId_returns in H by exact Hle. cbn [fst] in H.
    split; [exact Hle | congruence].
  - destruct (generateSecureId_throws length rng) as [e He]; [lia|].
    rewrite He in H. discriminate H.
Qed.

(** X10: for a length of at most 65536, [generateSecureId] returns an
    identifier of [2 * length] characters, all of them digits or the
    letters a to f, and takes exactly [length] bytes from the random
    source; for a larger length the random source refuses the request:
    the call throws and draws nothing. *)
Theorem secure_id_shape (length : nat) (rng : RandomSource) :
  (Z.of_nat length <= 65536 ->
   exists id,
     fst (generateSecureId length rng) = Return id /\
     List.length id = (2 * length)%nat /\
     Forall (fun c => In c hex_chars) id /\
     (forall i, snd (generateSecureId length rng) i = rng (length + i)%nat)) /\
  (65536 < Z.of_nat length ->
   (exists e, fst (generateSecureId length rng) = Throw e) /\
   snd (generateSecureId length rng) = rng).
Proof.
  split.
  - intro Hle. rewrite generateSecureId_returns by exact Hle. cbn [fst snd].
    eexists. split; [reflexivity|]. split; [|split; [|reflexivity]].
    + now rewrite hex_of_bytes_length, length_map, length_seq.
    + apply hex_of_bytes_chars.
  - intro Hgt. destruct (generateSecureId_throws length rng Hgt) as [e ->].
    cbn [fst snd]. split; [exists e|]; reflexivity.
Qed.

(** X11: two identifiers of the same length that [generateSecureId]
    returns are equal exactly when the bytes drawn for them are equal: the
    hexadecimal text loses nothing. *)
Theorem secure_id_injective (length : nat) (rng1 rng2 : RandomSource)
                            (id1 id2 : jsstring) :
  fst (generateSecureId length rng1) = Return id1 ->
  fst (generateSecureId length rng2) = Return id2 ->
  (id1 = id2 <-> forall i, (i < length)%nat -> rng1 i = rng2 i).
Proof.
  intros H1 H2.
  apply generateSecureId_returned in H1 as [_ ->].
  apply generateSecureId_returned in H2 as [_ ->]. split.
  - intros E i Hi. apply hex_of_bytes_injective in E.
    assert (Hnth : nth_error (map rng1 (seq 0 length)) i
                   = nth_error (map rng2 (seq 0 length)) i) by now rewrite E.
    rewrite !nth_error_map, !nth_error_seq in Hnth.
    destruct (Nat.ltb_spec i length); [|lia].
    cbn [option_map Nat.add] in Hnth. congruence.
  - intro H. f_equal. apply map_ext_in. intros i Hi.
    apply in_seq in Hi. apply H. lia.
Qed.

End BufferProperties.

Lemma secure_id_shape_witness :
  exists id,
    fst (SecureId.generateSecureId_default counting_source) = Return id /\
    List.length id = 32%nat.
Proof.
  destruct (proj1 (secure_id_shape 16 counting_source)) as (id & Hid & Hlen & _).
  - vm_compute. discriminate.
  - exists id. split; [exact Hid | exact Hlen].
Defined.

Lemma secure_id_injective_witness :
  str "00010203" = str "00010203" <->
  (forall i, (i < 4)%nat -> counting_source i = counting_source i).
Proof.
  apply (secure_id_injective 4 counting_source counting_source); reflexivity.
Defined.

Lemma hash_is_base64_of_digest_witness :
  exists text,
    SecureId.hashPassword (fun _ => repeat x00 32) (str "secret") = Return text /\
    List.length text = 44%nat.
Proof.
  destruct (hash_is_base64_of_digest (fun _ => repeat x00 32) (str "secret"))
    as (text & Henc & _ & _ & Hlen).
  exists text. split; [exact Henc|]. apply Hlen. reflexivity.
Defined.

(** ** The vault: what a blob holds, and what a decryption needs *)

Section BlobProperties.
Import JSON Vault.
Context {P : Platform}.

Lemma base64_decode_encode (bytes : list byte) :
  base64ToArrayBuffer (Base64.encode_bytes (map byte_to_Z bytes)) = Return bytes.
Proof.
  unfold base64ToArrayBuffer. rewrite atob_encode_bytes by apply bytes_are_bytes.
  cbn [bind]. now rewrite map_byte_of_to_Z.
Qed.

(** The blob of a record: the base64 texts of the ciphertext, of the first
    16 bytes of the random source and of its next 12 bytes. *)
Lemma encryptVaultItem_spec (data : VaultItem) (masterPassword : jsstring)
                            (rng : RandomSource) :
  encryptVaultItem data masterPassword rng =
  (Return {| encrypted :=
               Base64.encode_bytes
                 (map byte_to_Z
                      (AES_GCM_encrypt (deriveKey masterPassword (drawn rng 0 16))
                                       (drawn rng 16 12) (serializeRecord data)));
             salt := Base64.encode_bytes (map byte_to_Z (drawn rng 0 16));
             iv := Base64.encode_bytes (map byte_to_Z (drawn rng 16 12)) |},
   fun i => rng (16 + (12 + i))%nat).
Proof.
  unfold encryptVaultItem. cbn [getRandomValues]. cbv zeta.
  rewrite !arrayBufferToBase64_spec. reflexivity.
Qed.

(** X12: [encryptVaultItem] never throws, whatever the record.  The salt
    of the blob is the base64 text (24 characters) of the first 16 bytes
    of the random source, the nonce the text (16 characters) of the next
    12 bytes, the key is derived from that salt, and the third field
    decodes to the ciphertext of the serialised record; the call uses
    exactly 28 random bytes. *)
Theorem encrypt_uses_fresh_salt_and_nonce (data : VaultItem)
                                          (masterPassword : jsstring)
                                          (rng : RandomSource) :
  exists blob,
    fst (encryptVaultItem data masterPassword rng) = Return blob /\
    base64ToArrayBuffer (salt blob) = Return (drawn rng 0 16) /\
    base64ToArrayBuffer (iv blob) = Return (drawn rng 16 12) /\
    base64ToArrayBuffer (encrypted blob) =
      Return (AES_GCM_encrypt (deriveKey masterPassword (drawn rng 0 16))
                              (drawn rng 16 12) (serializeRecord data)) /\
    List.length (salt blob) = 24%nat /\ List.length (iv blob) = 16%nat /\
    (forall i, snd (encryptVaultItem data masterPassword rng) i = rng (28 + i)%nat).
Proof.
  rewrite encryptVaultItem_spec. eexists. cbn [fst snd].
  split; [reflexivity|]. cbn [salt iv encrypted].
  rewrite !base64_decode_encode. repeat split.
Qed.

Lemma drawn_shift (rng rng' : RandomSource) (offset start n : nat) :
  (forall i, rng' i = rng (offset + i)%nat) ->
  drawn rng' start n = drawn rng (offset + start) n.
Proof.
  intro H. unfold drawn. apply map_ext. intro i. rewrite H. f_equal. lia.
Qed.

Lemma encrypt_items_draws (items : list VaultItem) (masterPassword : jsstring) :
  forall rng : RandomSource,
  exists blobs,
    fst (encrypt_items items masterPassword rng) = map Return blobs /\
    List.length blobs = List.length items /\
    (forall k blob, nth_error blobs k = Some blob ->
       base64ToArrayBuffer (salt blob) = Return (drawn rng (28 * k) 16) /\
       base64ToArrayBuffer (iv blob) = Return (drawn rng (28 * k + 16) 12)) /\
    (forall i, snd (encrypt_items items masterPassword rng) i
               = rng (28 * List.length items + i)%nat).
Proof.
  induction items as [|item items IH]; intro rng.
  - exists []. cbn [encrypt_items fst snd map List.length].
    split; [reflexivity|]. split; [reflexivity|]. split.
    + intros [|k] blob H; discriminate H.
    + reflexivity.
  - cbn [encrypt_items]. rewrite encryptVaultItem_spec.
    match goal with |- context [Return ?b :: _] => set (blob0 := b) end.
    set (rng1 := fun i => rng (16 + (12 + i))%nat).
    assert (Hrng1 : forall i, rng1 i = rng (28 + i)%nat).
    { intro i. unfold rng1. f_equal. }
    destruct (IH rng1) as (blobs & Hblobs & Hlen & Hnth & Hrest).
    destruct (encrypt_items items masterPassword rng1) as [cs rng2].
    cbn [fst snd] in Hblobs, Hrest |- *. subst cs.
    exists (blob0 :: blobs).
    split; [reflexivity|]. split; [cbn [List.length]; now rewrite Hlen|]. split.
    + intros [|k] blob Hk.
      * cbn [nth_error] in Hk. assert (Hb : blob = blob0) by congruence.
        subst blob. unfold blob0. cbn [salt iv].
        rewrite !base64_decode_encode. split; reflexivity.
      * cbn [nth_error] in Hk. destruct (Hnth k blob Hk) as [Hs Hi].
        rewrite Hs, Hi.
        rewrite (drawn_shift rng rng1 28 _ _ Hrng1).
        rewrite (drawn_shift rng rng1 28 _ _ Hrng1).
        split; do 2 f_equal; lia.
    + intro i. rewrite Hrest, Hrng1. cbn [List.length]. f_equal. lia.
Qed.

(** X13: [exportVaultData] never throws, whatever the records.  The text
    is the indented container of one blob for each record, and the
    [k]-th blob has the salt and the nonce drawn at the positions [28 k]
    and [28 k + 16] of the random source: the records use disjoint parts
    of the source, 28 bytes each. *)
Theorem export_draws_per_record (items : list VaultItem)
                                (masterPassword now : jsstring)
                                (rng : RandomSource) :
  exists blobs,
    fst (exportVaultData items masterPassword now rng) =
      Return (stringify_indented (container now blobs)) /\
    List.length blobs = List.length items /\
    (forall k blob, nth_error blobs k = Some blob ->
       base64ToArrayBuffer (salt blob) = Return (drawn rng (28 * k) 16) /\
       base64ToArrayBuffer (iv blob) = Return (drawn rng (28 * k + 16) 12)) /\
    (forall i, snd (exportVaultData items masterPassword now rng) i
               = rng (28 * List.length items + i)%nat).
Proof.
  destruct (encrypt_items_draws items masterPassword rng)
    as (blobs & Hblobs & Hlen & Hnth & Hrest).
  exists blobs. unfold exportVaultData.
  destruct (encrypt_items items masterPassword rng) as [promises rng'].
  cbn [fst snd] in Hblobs, Hrest |- *. subst promises.
  rewrite map_all_returns. cbn [bind].
  split; [reflexivity|]. split; [exact Hlen|]. split; assumption.
Qed.

Lemma ToString_value_TypeError (v : JSValue) (e : exn) :
  ToString_value v = Throw e -> e = TypeError.
Proof.
  revert e.
  induction v as [| b | m e' | s | l IH | ms IH] using JSValue_nested_ind;
    intro e; cbn [ToString_value]; try discriminate.
  - destruct b; discriminate.
  - destruct (map_all _ l) as [parts|e0] eqn:E; cbn [bind]; [discriminate|].
    intros [= <-]. revert E. apply (map_all_exn (fun e => e = TypeError)).
    intros x e' Hin. rewrite Forall_forall in IH. specialize (IH x Hin).
    destruct x; try discriminate; apply IH.
  - destruct (lookup (str "toString") ms); [|discriminate].
    intros [= <-]. reflexivity.
Qed.

(** Reading a field fails with a [TypeError] (the blob is [null], or the
    field cannot be converted to a string) or with the error of [atob]. *)
Lemma field_bytes_exn (item : JSValue) (key : jsstring) (e : exn) :
  field_bytes item key = Throw e -> e = TypeError \/ e = InvalidCharacterError.
Proof.
  unfold field_bytes. intro H.
  destruct (Get item key) as [field|e0] eqn:EG; cbn [bind] in H.
  2: { injection H as <-. left. destruct item; cbn [Get] in EG; congruence. }
  destruct (ToString field) as [text|e0] eqn:ET; cbn [bind] in H.
  2: { injection H as <-. left. destruct field as [v|]; [|discriminate].
       eapply ToString_value_TypeError. exact ET. }
  right. revert H. unfold base64ToArrayBuffer, Base64.atob.
  destruct (_ =? 1); [now intros [= <-]|].
  destruct (Base64.sextets _); cbn [bind]; [discriminate | now intros [= <-]].
Qed.

(** A field that the blob does not have reads [undefined], which is not
    base64 text. *)
Lemma field_bytes_missing (item : JSValue) (key : jsstring) :
  property item key = None ->
  field_bytes item key =
  Throw (match item with JNull => TypeError | _ => InvalidCharacterError end).
Proof.
  unfold field_bytes. intro H.
  destruct item; cbn [Get bind]; try reflexivity; rewrite H; reflexivity.
Qed.

(** [decryptVaultItem] reads the three fields, then calls the cipher. *)
Lemma decrypt_by_fields (item : JSValue) (masterPassword : jsstring) :
  decryptVaultItem item masterPassword =
  (salt <- field_bytes item (str "salt") ;;
   iv <- field_bytes item (str "iv") ;;
   encrypted <- field_bytes item (str "encrypted") ;;
   match AES_GCM_decrypt (deriveKey masterPassword salt) iv encrypted with
   | None => Throw OperationError
   | Some decrypted => deserializeRecord decrypted
   end).
Proof.
  unfold decryptVaultItem, field_bytes.
  repeat match goal with
         | |- bind (bind ?c _) _ = _ => destruct c; cbn [bind]; [|reflexivity]
         | |- bind ?c _ = bind (bind ?c _) _ => destruct c; cbn [bind]; [|reflexivity]
         | |- bind ?c _ = bind ?c _ => destruct c; cbn [bind]; [|reflexivity]
         end.
  reflexivity.
Qed.

(** X14: a blob that lacks one of the fields [salt], [iv] and
    [encrypted] (a number, a string, an array, [null] or an object without
    the member) is never decrypted: [decryptVaultItem] throws a
    [TypeError] or the [InvalidCharacterError] of [atob] before the key is
    derived, whatever the master password. *)
Theorem decrypt_requires_fields (item : JSValue) (masterPassword : jsstring) :
  property item (str "salt") = None \/ property item (str "iv") = None \/
  property item (str "encrypted") = None ->
  exists e, decryptVaultItem item masterPassword = Throw e /\
            (e = TypeError \/ e = InvalidCharacterError).
Proof.
  intro H. rewrite decrypt_by_fields.
  destruct (field_bytes item (str "salt")) as [salt_bytes|e] eqn:Es; cbn [bind].
  2: { exists e. split; [reflexivity | eapply field_bytes_exn; exact Es]. }
  destruct (field_bytes item (str "iv")) as [iv_bytes|e] eqn:Ei; cbn [bind].
  2: { exists e. split; [reflexivity | eapply field_bytes_exn; exact Ei]. }
  destruct (field_bytes item (str "encrypted")) as [ct|e] eqn:Ee; cbn [bind].
  2: { exists e. split; [reflexivity | eapply field_bytes_exn; exact Ee]. }
  exfalso. destruct H as [H|[H|H]]; apply field_bytes_missing in H; congruence.
Qed.

(** X15: the export of an empty vault is imported under every password:
    with no blob to decrypt, [importVaultData] does not use the master
    password and returns the empty list. *)
Theorem empty_export_imports_under_any_password
          (exportPassword importPassword now : jsstring) (rng : RandomSource) :
  jsstring_ok now ->
  exists text,
    fst (exportVaultData [] exportPassword now rng) = Return text /\
    importVaultData text importPassword = Return [].
Proof.
  intro Hnow. exists (stringify_indented (container now [])).
  split; [reflexivity|].
  assert (Hparse : parse (stringify_indented (container now []))
                   = Return (container now [])).
  { apply parse_stringify. apply container_printable; [exact Hnow | constructor]. }
  unfold importVaultData.
  rewrite (import_container _ _ now [] Hparse). reflexivity.
Qed.

End BlobProperties.

Lemma decrypt_requires_fields_witness :
  exists e,
    Vault.decryptVaultItem (P := Vault.model_platform)
      (JSON.JObject [(str "salt", JSON.JString (str "AAAA"));
                     (str "iv", JSON.JString (str "AAAA"))])
      (str "master") = Throw e /\
    (e = TypeError \/ e = InvalidCharacterError).
Proof.
  apply (decrypt_requires_fields (P := Vault.model_platform)).
  right. right. reflexivity.
Defined.

Lemma empty_export_imports_under_any_password_witness :
  exists text,
    fst (Vault.exportVaultData (P := Vault.model_platform) [] (str "one")
           (str "2025-01-01T00:00:00.000Z") counting_source) = Return text /\
    Vault.importVaultData (P := Vault.model_platform) text (str "two") = Return [].
Proof.
  apply (empty_export_imports_under_any_password (P := Vault.model_platform)).
  apply jsstring_okb_ok. reflexivity.
Defined.

(** ** The session: the token between the client and the guard *)

Section SessionProperties.
Import JSON Session Guard.
Context {P : Platform}.

Lemma jsstring_eqb_refl (s : jsstring) : jsstring_eqb s s = true.
Proof. now apply jsstring_eqb_eq. Qed.

Lemma getItem_removeItem_same (key : jsstring) (storage : Storage) :
  getItem key (removeItem key storage) = None.
Proof.
  induction storage as [|[k v] storage IH]; [reflexivity|].
  unfold removeItem. cbn [filter fst].
  destruct (jsstring_eqb k key) eqn:E; cbn [negb]; [exact IH|].
  cbn [getItem]. rewrite E. exact IH.
Qed.

Lemma getItem_removeItem_other (key other : jsstring) (storage : Storage) :
  jsstring_eqb other key = false ->
  getItem key (removeItem other storage) = getItem key storage.
Proof.
  intro Hne. induction storage as [|[k v] storage IH]; [reflexivity|].
  unfold removeItem. cbn [filter fst].
  destruct (jsstring_eqb k other) eqn:E; cbn [negb getItem].
  - apply jsstring_eqb_eq in E. subst k. rewrite Hne. exact IH.
  - destruct (jsstring_eqb k key); [reflexivity | exact IH].
Qed.

Lemma getItem_setItem_same (key value : jsstring) (storage : Storage) :
  getItem key (setItem key value storage) = Some value.
Proof. unfold setItem. cbn [getItem]. now rewrite jsstring_eqb_refl. Qed.

Lemma getItem_setItem_other (key other value : jsstring) (storage : Storage) :
  jsstring_eqb other key = false ->
  getItem key (setItem other value storage) = getItem key storage.
Proof.
  intro Hne. unfold setItem. cbn [getItem]. rewrite Hne.
  now apply getItem_removeItem_other.
Qed.

Lemma startsWith_app (prefix s : jsstring) : startsWith (prefix ++ s) prefix = true.
Proof.
  induction prefix as [|p prefix IH]; [destruct s; reflexivity|].
  cbn [app startsWith]. now rewrite Z.eqb_refl, IH.
Qed.

Lemma split_cons (separator : Z) (s : jsstring) :
  exists piece pieces, split separator s = piece :: pieces.
Proof.
  induction s as [|c s (piece & pieces & IH)]; cbn [split].
  - eexists _, _. reflexivity.
  - destruct (c =? separator); [eexists _, _; reflexivity|].
    rewrite IH. eexists _, _. reflexivity.
Qed.

Lemma split_plain (separator : Z) (s : jsstring) :
  ~ In separator s -> split separator s = [s].
Proof.
  induction s as [|c s IH]; intro Hs; [reflexivity|].
  cbn [split]. destruct (Z.eqb_spec c separator) as [->|_].
  - exfalso. apply Hs. now left.
  - rewrite IH; [reflexivity|]. intro H. apply Hs. now right.
Qed.

Lemma split_app (separator : Z) (a b : jsstring) :
  ~ In separator a ->
  split separator (a ++ separator :: b) = a :: split separator b.
Proof.
  induction a as [|c a IH]; intro Ha.
  - cbn [app split]. now rewrite Z.eqb_refl.
  - cbn [app split]. destruct (Z.eqb_spec c separator) as [->|_].
    + exfalso. apply Ha. now left.
    + rewrite IH; [reflexivity|]. intro H. apply Ha. now right.
Qed.

Lemma split_pieces (separator : Z) (s : jsstring) :
  Forall (fun piece => ~ In separator piece) (split separator s).
Proof.
  induction s as [|c s IH]; cbn [split].
  - constructor; [intros []|constructor].
  - destruct (Z.eqb_spec c separator) as [->|Hne].
    + constructor; [intros []|exact IH].
    + destruct (split separator s) as [|piece pieces].
      * constructor; [|constructor]. intros [H|[]]. congruence.
      * inversion IH as [|? ? Hp Hps]; subst. constructor; [|exact Hps].
        intros [H|H]; [congruence | contradiction].
Qed.

(** The header [Bearer], any text without a space, a space, the token,
    and then nothing or a space and more text. *)
Lemma bearer_token_accepts (junk token tail : jsstring) :
  ~ In 32 junk -> ~ In 32 token ->
  tail = [] \/ (exists rest, tail = 32 :: rest) ->
  bearer_token (Some (str "Bearer" ++ junk ++ 32 :: token ++ tail)) = Some token.
Proof.
  intros Hj Ht Htail. unfold bearer_token.
  rewrite startsWith_app. rewrite app_assoc. rewrite split_app.
  - cbn [nth_error]. destruct Htail as [->|(rest & ->)].
    + rewrite app_nil_r, split_plain by exact Ht. reflexivity.
    + rewrite split_app by exact Ht. reflexivity.
  - intro H. apply in_app_or in H as [H|H]; [|contradiction].
    vm_compute in H. intuition discriminate.
Qed.

(** X16: the guard checks the scheme of the [Authorization] header by its
    first six characters only.  A header made of [Bearer], any text
    without a space, one space and a token yields that token, and what
    follows a second space is ignored; so [Bearer abc] and [BearerX abc z]
    both yield [abc]. *)
Theorem bearer_scheme_is_a_prefix (junk token tail : jsstring) :
  ~ In 32 junk -> ~ In 32 token ->
  tail = [] \/ (exists rest, tail = 32 :: rest) ->
  bearer_token (Some (str "Bearer" ++ junk ++ 32 :: token ++ tail)) = Some token.
Proof. apply bearer_token_accepts. Qed.

Section GuardProperties.

Variable User : Type.
Variable jwt_verify : jsstring -> JwtPayload + option jsstring.
Variable User_findById : jsstring -> option User + option jsstring.

Lemma verification_failed_status (name : option jsstring) (u : User) :
  verification_failed User name <> Next u /\
  exists message, verification_failed User name = Respond 401 message.
Proof.
  unfold verification_failed. destruct name as [n|].
  - destruct (jsstring_eqb n _); (split; [discriminate | eexists; reflexivity]).
  - split; [discriminate | eexists; reflexivity].
Qed.

(** X17: [protect] calls [next] exactly when the header yields a
    non-empty token that [jwt.verify] accepts and the user of its payload
    exists; the user attached to the request is that user.  In every other
    case it answers with status 401, and the token given to [jwt.verify]
    never holds a space. *)
Theorem protect_admits_only_verified (authorization : option jsstring) :
  (forall u,
      protect User jwt_verify User_findById authorization = Next u <->
      exists token payload,
        bearer_token authorization = Some token /\ token <> [] /\
        jwt_verify token = inl payload /\
        User_findById (userId payload) = inl (Some u)) /\
  (forall status message,
      protect User jwt_verify User_findById authorization = Respond status message ->
      status = 401) /\
  (forall token, bearer_token authorization = Some token -> ~ In 32 token).
Proof.
  split; [|split].
  - intro u. unfold protect.
    destruct (bearer_token authorization) as [[|c token]|] eqn:Et; cbn [truthy negb].
    + split; [discriminate|]. intros (t & p & E & Hne & _). congruence.
    + destruct (jwt_verify (c :: token)) as [payload|name] eqn:Ev.
      * destruct (User_findById (userId payload)) as [[u'|]|name] eqn:Ef.
        -- split.
           ++ intros [= ->]. exists (c :: token), payload.
              repeat split; [discriminate | exact Ev | exact Ef].
           ++ intros (t & p & E & _ & Ev' & Ef'). injection E as <-.
              rewrite Ev in Ev'. injection Ev' as <-. rewrite Ef in Ef'.
              congruence.
        -- split; [discriminate|].
           intros (t & p & E & _ & Ev' & Ef'). injection E as <-.
           rewrite Ev in Ev'. injection Ev' as <-. rewrite Ef in Ef'.
           discriminate.
        -- split.
           ++ intro H. now apply verification_failed_status in H.
           ++ intros (t & p & E & _ & Ev' & Ef'). injection E as <-.
              rewrite Ev in Ev'. injection Ev' as <-. rewrite Ef in Ef'.
              discriminate.
      * split.
        -- intro H. now apply verification_failed_status in H.
        -- intros (t & p & E & _ & Ev' & _). injection E as <-.
           rewrite Ev in Ev'. discriminate.
    + split; [discriminate|]. intros (t & p & E & _). discriminate.
  - intros status message. unfold protect.
    assert (Hf : forall name,
               verification_failed User name = Respond status message ->
               status = 401).
    { intros name H. unfold verification_failed in H.
      destruct name as [n|]; [destruct (jsstring_eqb n _)|]; congruence. }
    destruct (bearer_token authorization) as [[|c token]|]; cbn [truthy negb];
      try congruence.
    destruct (jwt_verify (c :: token)) as [payload|name]; [|apply Hf].
    destruct (User_findById (userId payload)) as [[u'|]|name];
      [discriminate | congruence | apply Hf].
  - intros token. unfold bearer_token.
    destruct authorization as [header|]; [|discriminate].
    destruct (startsWith header (str "Bearer")); [|discriminate].
    intro H. apply nth_error_In in H.
    pose proof (split_pieces 32 header) as Hp. rewrite Forall_forall in Hp.
    now apply Hp.
Qed.


End GuardProperties.

Lemma restore_without_token (storage : Storage) (r : jsstring) :
  getItem (str "token") storage = None ->
  restore (loaded storage r) =
  Return {| localStorage := storage; user := None; token := None;
            masterPassword := None; isLoading := false; route := r |}.
Proof. intro H. unfold restore, loaded. cbn [localStorage]. now rewrite H. Qed.

(** X19: after [logout], and after a response with status 401, the
    storage holds no token: the interceptor leaves the next request
    without the header, and a reload of the page restores neither the
    token nor the user. *)
Theorem logout_clears_the_session (c : Client) (Authorization : option jsstring)
                                  (r : jsstring) :
  let cleared :=
    [localStorage (logout c);
     localStorage (response_error_interceptor true (Some 401) c)] in
  Forall (fun storage =>
            request_interceptor true storage Authorization = Authorization /\
            restore (loaded storage r) =
            Return {| localStorage := storage; user := None; token := None;
                      masterPassword := None; isLoading := false; route := r |})
         cleared /\
  masterPassword (logout c) = None.
Proof.
  cbv zeta. cbn [logout response_error_interceptor localStorage masterPassword].
  assert (Hget : getItem (str "token")
                   (removeItem (str "user")
                      (removeItem (str "token") (localStorage c))) = None).
  { rewrite getItem_removeItem_other by reflexivity.
    apply getItem_removeItem_same. }
  split; [|reflexivity].
  repeat constructor.
  - unfold request_interceptor. now rewrite Hget.
  - now apply restore_without_token.
  - unfold request_interceptor. now rewrite Hget.
  - now apply restore_without_token.
Qed.

Lemma stringify_truthy (v : JSValue) :
  printable v -> truthy (Some (stringify v)) = true.
Proof.
  intro Hp. destruct (serialize_starts_value [] [] v Hp) as (ch & r & E & _).
  unfold stringify. rewrite E. reflexivity.
Qed.

Lemma restore_stored (storage : Storage) (token : jsstring) (user : JSValue)
                     (r : jsstring) :
  token <> [] -> printable user ->
  restore (loaded (setItem (str "user") (stringify user)
                     (setItem (str "token") token storage)) r) =
  Return {| localStorage := setItem (str "user") (stringify user)
                              (setItem (str "token") token storage);
            user := Some user; token := Some token; masterPassword := None;
            isLoading := false; route := r |}.
Proof.
  intros Hne Hp. unfold restore, loaded. cbn [localStorage masterPassword route].
  rewrite getItem_setItem_other by reflexivity.
  rewrite !getItem_setItem_same.
  rewrite (stringify_truthy user Hp).
  destruct token as [|t token]; [congruence|]. cbn [truthy andb].
  rewrite (proj1 (parse_stringify user Hp)). reflexivity.
Qed.

(** X20: a reload of the page after a login or a sign-up restores the
    token and the user from the storage (the user is read back from its
    JSON text as the same value), but not the master password, which is
    kept in memory only. *)
Theorem reload_restores_token_not_master_password
          (token : jsstring) (user : JSValue) (password : jsstring)
          (c c' : Client) (r : jsstring) :
  login (inl (token, user)) password c = Return c' \/
  signup (inl (token, user)) password c = Return c' ->
  token <> [] -> printable user ->
  masterPassword c' = Some password /\
  restore (loaded (localStorage c') r) =
  Return {| localStorage := localStorage c'; user := Some user;
            token := Some token; masterPassword := None;
            isLoading := false; route := r |}.
Proof.
  intros H Hne Hp.
  assert (E : c' = {| localStorage := setItem (str "user") (stringify user)
                        (setItem (str "token") token (localStorage c));
                      user := Some user; token := Some token;
                      masterPassword := Some password; isLoading := isLoading c;
                      route := str "/vault" |}).
  { destruct H as [H|H]; cbn [login signup] in H; congruence. }
  subst c'. cbn [masterPassword localStorage]. split; [reflexivity|].
  now apply restore_stored.
Qed.

End SessionProperties.

Lemma bearer_scheme_is_a_prefix_witness :
  Guard.bearer_token (Some (str "BearerX abc z")) = Some (str "abc").
Proof.
  apply (bearer_scheme_is_a_prefix (str "X") (str "abc") (str " z")).
  - vm_compute. intuition discriminate.
  - vm_compute. intuition discriminate.
  - right. exists (str "z"). reflexivity.
Defined.


Lemma reload_restores_token_not_master_password_witness :
  Session.restore
    (Session.loaded
       [(str "user", json_literal "{'id':'7'}"); (str "token", str "abc.def.ghi")]
       (str "/vault")) =
  Return {| Session.localStorage :=
              [(str "user", json_literal "{'id':'7'}");
               (str "token", str "abc.def.ghi")];
            Session.user := Some (JSON.JObject [(str "id", JSON.JString (str "7"))]);
            Session.token := Some (str "abc.def.ghi");
            Session.masterPassword := None;
            Session.isLoading := false; Session.route := str "/vault" |}.
Proof.
  apply (proj2
    (reload_restores_token_not_master_password (P := Vault.model_platform)
       (str "abc.def.ghi") (JSON.JObject [(str "id", JSON.JString (str "7"))])
       (str "master") (Session.loaded [] (str "/login")) _ (str "/vault")
       (or_introl eq_refl) ltac:(discriminate)
       ltac:(constructor; constructor;
             [split; [apply jsstring_okb_ok; reflexivity
                     | constructor; apply jsstring_okb_ok; reflexivity]
             | constructor]))).
Defined.

(** ** The vault page and the handlers of the server *)

Section PageProperties.
Import JSON Vault VaultPage.
Context {P : Platform}.

Lemma not_null_app {A : Type} (l1 l2 : list (option A)) :
  not_null (l1 ++ l2) = not_null l1 ++ not_null l2.
Proof.
  induction l1 as [|[a|] l1 IH]; cbn [app not_null]; [reflexivity | | exact IH].
  now rewrite IH.
Qed.

Lemma not_null_length {A : Type} (l : list (option A)) :
  (List.length (not_null l) <= List.length l)%nat.
Proof.
  induction l as [|[a|] l IH]; cbn [not_null List.length]; lia.
Qed.

(** X21: the page shows what it can decrypt.  An item whose decryption
    throws is left out and the other items are shown in their order, as if
    the failed item were not in the answer of the server; the list is never
    longer than the answer.  (The import, in contrast, fails as a whole.) *)
Theorem fetch_skips_failed_items (before after : list StoredItem)
                                 (failed : StoredItem)
                                 (masterPassword : option jsstring)
                                 (state : PageState) (e : exn) :
  decryptVaultItem (encryptedData failed) (string_argument masterPassword)
    = Throw e ->
  vaultItems (fetchVaultItems (Return (before ++ failed :: after))
                              masterPassword state) =
  vaultItems (fetchVaultItems (Return before) masterPassword state) ++
  vaultItems (fetchVaultItems (Return after) masterPassword state) /\
  vaultItems (fetchVaultItems (Return (before ++ failed :: after))
                              masterPassword state) =
  vaultItems (fetchVaultItems (Return (before ++ after)) masterPassword state) /\
  (List.length (vaultItems (fetchVaultItems (Return (before ++ failed :: after))
                                            masterPassword state))
   < List.length (before ++ failed :: after))%nat.
Proof.
  intro Hfail. cbn [fetchVaultItems vaultItems].
  assert (Hd : decrypt_stored masterPassword failed = None).
  { unfold decrypt_stored. now rewrite Hfail. }
  rewrite !map_app, !not_null_app. cbn [map not_null]. rewrite Hd.
  split; [reflexivity|]. split; [reflexivity|].
  rewrite !length_app. cbn [List.length].
  pose proof (not_null_length (map (decrypt_stored masterPassword) before)) as H1.
  pose proof (not_null_length (map (decrypt_stored masterPassword) after)) as H2.
  rewrite !length_map in H1, H2. lia.
Qed.

Lemma handleAddItem_body (data : VaultItem) (masterPassword : option jsstring)
                         (rng : RandomSource) (stored : JSValue) :
  fst (handleAddItem data masterPassword rng)
    = Return (JObject [(str "encryptedData", stored)]) ->
  exists blob,
    fst (encryptVaultItem data (string_argument masterPassword) rng) = Return blob /\
    stored = EncryptedData_object blob.
Proof.
  unfold handleAddItem.
  destruct (encryptVaultItem data (string_argument masterPassword) rng)
    as [[blob|e] rng']; cbn [fst bind]; [|discriminate].
  intro H. exists blob. split; [reflexivity|]. congruence.
Qed.

Lemma decrypt_of_encrypt (L : PlatformLaws P) (data : VaultItem)
                         (masterPassword : jsstring) (rng : RandomSource)
                         (blob : EncryptedData) :
  VaultItem_ok data ->
  fst (encryptVaultItem data masterPassword rng) = Return blob ->
  decryptVaultItem (EncryptedData_object blob) masterPassword
    = Return (VaultItem_object data).
Proof.
  intros Hok Henc.
  destruct (decrypt_encrypted data masterPassword rng L Hok)
    as (blob' & Henc' & _ & _ & _ & Hdec).
  rewrite Henc in Henc'. congruence.
Qed.

(** X22: the records saved from the page are the records shown by the page.
    When every item of the answer holds a blob written by [handleAddItem]
    under the master password in memory, [fetchVaultItems] shows all of
    them in order, each with its five fields and with the identifier of the
    server as [id]. *)
Theorem saved_items_are_shown (L : PlatformLaws P) (items : list StoredItem)
                              (records : list (jsstring * VaultItem))
                              (masterPassword : option jsstring)
                              (state : PageState) :
  Forall2 (fun stored record =>
             _id stored = fst record /\ VaultItem_ok (snd record) /\
             exists rng,
               fst (handleAddItem (snd record) masterPassword rng)
               = Return (JObject [(str "encryptedData", encryptedData stored)]))
          items records ->
  vaultItems (fetchVaultItems (Return items) masterPassword state) =
    map (fun record => with_id (VaultItem_object (snd record)) (fst record))
        records /\
  Forall (fun record =>
            let shown := with_id (VaultItem_object (snd record)) (fst record) in
            property shown (str "id") = Some (JString (fst record)) /\
            property shown (str "title") = Some (JString (title (snd record))) /\
            property shown (str "username") = Some (JString (username (snd record))) /\
            property shown (str "password") = Some (JString (password (snd record))) /\
            property shown (str "url") = Some (JString (url (snd record))) /\
            property shown (str "notes") = Some (JString (notes (snd record))))
         records.
Proof.
  intro H. split.
  - cbn [fetchVaultItems vaultItems].
    induction H as [|stored record items records (Hid & Hok & rng & Hadd) _ IH];
      [reflexivity|].
    cbn [map not_null]. unfold decrypt_stored at 1.
    destruct (handleAddItem_body _ _ _ _ Hadd) as (blob & Henc & Hblob).
    rewrite Hblob, (decrypt_of_encrypt L _ _ _ _ Hok Henc), Hid, IH.
    reflexivity.
  - apply Forall_forall. intros record _. cbv zeta.
    repeat split.
Qed.

(** X23: with no master password in memory (after a reload of the page the
    provider holds [null]), [handleAddItem] still encrypts and sends the
    record: the key is derived from the four characters of the string
    [null], so the blob is decrypted by everyone who uses [null] as the
    password. *)
Theorem missing_master_password_is_the_string_null
          (L : PlatformLaws P) (data : VaultItem) (rng : RandomSource) :
  VaultItem_ok data ->
  handleAddItem data None rng = handleAddItem data (Some (str "null")) rng /\
  exists blob,
    fst (handleAddItem data None rng) =
      Return (JObject [(str "encryptedData", EncryptedData_object blob)]) /\
    decryptVaultItem (EncryptedData_object blob) (str "null") =
      Return (VaultItem_object data).
Proof.
  intro Hok. split; [reflexivity|].
  destruct (decrypt_encrypted data (str "null") rng L Hok)
    as (blob & Henc & _ & _ & _ & Hdec).
  exists blob. split; [|exact Hdec].
  unfold handleAddItem. cbn [string_argument].
  destruct (encryptVaultItem data (str "null") rng) as [c rng'].
  cbn [fst] in Henc |- *. now rewrite Henc.
Qed.

Lemma drawn_length (rng : RandomSource) (start n : nat) :
  List.length (drawn rng start n) = n.
Proof. unfold drawn. now rewrite length_map, length_seq. Qed.

Lemma ToBoolean_base64 (bytes : list byte) :
  bytes <> [] ->
  ToBoolean (Some (JString (Base64.encode_bytes (map byte_to_Z bytes)))) = true.
Proof.
  intro Hne. destruct bytes as [|a [|b [|c rest]]]; [congruence|reflexivity..].
Qed.

Section ControllerProperties.
Import Controller.

Variable Document : Type.
Variable VaultItem_create : option jsstring -> JSValue -> completion Document.
Variable VaultItem_findOneAndUpdate :
  jsstring -> option jsstring -> JSValue -> completion (option Document).

(** X24: the server accepts what the client sends.  When the cipher returns
    a ciphertext that is not empty, the body that [handleAddItem] sends
    passes the validation of [createVaultItem] and of [updateVaultItem]:
    the store is called with the blob, and the answer is decided by the
    store alone (never the status 400 of the validation). *)
Theorem client_blob_passes_validation
          (data : VaultItem) (masterPassword : option jsstring)
          (rng : RandomSource) (userId : option jsstring) (id : jsstring) :
  AES_GCM_encrypt (deriveKey (string_argument masterPassword) (drawn rng 0 16))
                  (drawn rng 16 12) (serializeRecord data) <> [] ->
  exists blob body,
    fst (encryptVaultItem data (string_argument masterPassword) rng) = Return blob /\
    body = JObject [(str "encryptedData", EncryptedData_object blob)] /\
    fst (handleAddItem data masterPassword rng) = Return body /\
    createVaultItem Document VaultItem_create body userId =
      match VaultItem_create userId (EncryptedData_object blob) with
      | Return vaultItem =>
          Respond 201 (str "Vault item created successfully") (Some vaultItem)
      | Throw error => Next error
      end /\
    updateVaultItem Document VaultItem_findOneAndUpdate id body userId =
      match VaultItem_findOneAndUpdate id userId (EncryptedData_object blob) with
      | Return (Some vaultItem) =>
          Respond 200 (str "Vault item updated successfully") (Some vaultItem)
      | Return None => Respond 404 (str "Vault item not found") None
      | Throw error => Next error
      end.
Proof.
  intro Hct. unfold handleAddItem. rewrite encryptVaultItem_spec.
  eexists _, _. cbn [fst bind].
  split; [reflexivity|]. split; [reflexivity|]. split; [reflexivity|].
  unfold createVaultItem, updateVaultItem.
  change (Get (JObject [(str "encryptedData", ?v)]) (str "encryptedData"))
    with (Return (A := option JSValue) (Some v)).
  cbv beta iota.
  change (member (Some (EncryptedData_object ?b)) (str "encrypted"))
    with (Some (JString (encrypted b))).
  change (member (Some (EncryptedData_object ?b)) (str "salt"))
    with (Some (JString (salt b))).
  change (member (Some (EncryptedData_object ?b)) (str "iv"))
    with (Some (JString (iv b))).
  cbn [encrypted salt iv].
  rewrite (ToBoolean_base64 _ Hct).
  rewrite !ToBoolean_base64.
  - split; reflexivity.
  - intro H. apply (f_equal (@List.length byte)) in H.
    rewrite drawn_length in H. discriminate H.
  - intro H. apply (f_equal (@List.length byte)) in H.
    rewrite drawn_length in H. discriminate H.
Qed.

(** The store is reached only through the validation.  A body whose
    [encryptedData] is absent or falsy, or lacks a non-empty [encrypted],
    [salt] or [iv], is answered with status 400 by [createVaultItem] and by
    [updateVaultItem], whatever the store would do. *)
Lemma incomplete_blob_is_rejected (body : JSValue) (userId : option jsstring)
                                    (id : jsstring) :
  body <> JNull ->
  ToBoolean (property body (str "encryptedData")) = false \/
  ToBoolean (member (property body (str "encryptedData")) (str "encrypted")) = false \/
  ToBoolean (member (property body (str "encryptedData")) (str "salt")) = false \/
  ToBoolean (member (property body (str "encryptedData")) (str "iv")) = false ->
  createVaultItem Document VaultItem_create body userId =
    Respond 400 (str "Invalid encrypted data format") None /\
  updateVaultItem Document VaultItem_findOneAndUpdate id body userId =
    Respond 400 (str "Invalid encrypted data format") None.
Proof.
  intros Hnull H. unfold createVaultItem, updateVaultItem.
  assert (HG : Get body (str "encryptedData")
               = Return (property body (str "encryptedData"))).
  { destruct body; (reflexivity || congruence). }
  rewrite HG.
  destruct H as [H|[H|[H|H]]]; rewrite H; cbn [negb orb];
    rewrite ?orb_true_r; split; reflexivity.
Qed.

End ControllerProperties.

End PageProperties.

Lemma fetch_skips_failed_items_witness :
  VaultPage.vaultItems
    (VaultPage.fetchVaultItems (P := Vault.model_platform)
       (Return ([] ++ {| VaultPage._id := str "1";
                         VaultPage.encryptedData := JSON.JNumber 7 0 |} :: []))
       (Some (str "master"))
       {| VaultPage.vaultItems := []; VaultPage.isLoading := true |}) = [].
Proof.
  apply (proj1 (fetch_skips_failed_items (P := Vault.model_platform) [] []
                  {| VaultPage._id := str "1";
                     VaultPage.encryptedData := JSON.JNumber 7 0 |}
                  (Some (str "master"))
                  {| VaultPage.vaultItems := []; VaultPage.isLoading := true |}
                  InvalidCharacterError eq_refl)).
Defined.

Lemma saved_items_are_shown_witness :
  exists blob,
    fst (Vault.encryptVaultItem (P := Vault.model_platform) bank_record
           (str "master") counting_source) = Return blob /\
    VaultPage.vaultItems
      (VaultPage.fetchVaultItems (P := Vault.model_platform)
         (Return [{| VaultPage._id := str "1";
                     VaultPage.encryptedData := Vault.EncryptedData_object blob |}])
         (Some (str "master"))
         {| VaultPage.vaultItems := []; VaultPage.isLoading := true |}) =
    [VaultPage.with_id (Vault.VaultItem_object bank_record) (str "1")].
Proof.
  eexists. split; [vm_compute; reflexivity|].
  refine (proj1 (saved_items_are_shown (P := Vault.model_platform)
                   model_platform_laws _ [(str "1", bank_record)]
                   (Some (str "master")) _ _)).
  constructor; [|constructor].
  split; [reflexivity|].
  split; [unfold VaultItem_ok; repeat split; apply jsstring_okb_ok; reflexivity|].
  exists counting_source. vm_compute. reflexivity.
Defined.

Lemma missing_master_password_is_the_string_null_witness :
  exists blob,
    fst (VaultPage.handleAddItem (P := Vault.model_platform) bank_record None
           counting_source) =
      Return (JSON.JObject [(str "encryptedData", Vault.EncryptedData_object blob)]) /\
    Vault.decryptVaultItem (P := Vault.model_platform)
      (Vault.EncryptedData_object blob) (str "null") =
      Return (Vault.VaultItem_object bank_record).
Proof.
  apply (proj2 (missing_master_password_is_the_string_null
                  (P := Vault.model_platform) model_platform_laws bank_record
                  counting_source
                  ltac:(unfold VaultItem_ok; repeat split;
                        apply jsstring_okb_ok; reflexivity))).
Defined.

Lemma client_blob_passes_validation_witness :
  exists blob,
    fst (Vault.encryptVaultItem (P := Vault.model_platform) bank_record
           (str "master") counting_source) = Return blob /\
    Controller.createVaultItem unit (fun _ _ => Return tt)
      (JSON.JObject [(str "encryptedData", Vault.EncryptedData_object blob)])
      (Some (str "u1")) =
    Controller.Respond 201 (str "Vault item created successfully") (Some tt).
Proof.
  destruct (client_blob_passes_validation (P := Vault.model_platform)
              unit (fun _ _ => Return tt) (fun _ _ _ => Return None)
              bank_record (Some (str "master")) counting_source
              (Some (str "u1")) (str "i1"))
    as (blob & body & Henc & Hbody & _ & Hcreate & _).
  - vm_compute. discriminate.
  - exists blob. split; [exact Henc|]. rewrite <- Hbody. exact Hcreate.
Defined.

Lemma incomplete_blob_is_rejected_witness :
  Controller.createVaultItem unit (fun _ _ => Return tt)
    (JSON.JObject [(str "encryptedData",
                    JSON.JObject [(str "encrypted", JSON.JString (str "AAAA"));
                                  (str "salt", JSON.JString []);
                                  (str "iv", JSON.JString (str "AAAA"))])])
    None =
  Controller.Respond 400 (str "Invalid encrypted data format") None.
Proof.
  refine (proj1 (incomplete_blob_is_rejected unit (fun _ _ => Return tt)
                   (fun _ _ _ => Return None) _ None (str "i1") _ _)).
  - discriminate.
  - right. right. left. reflexivity.
Defined.

(** ** The strength tiers follow the order of the numbers *)

Section TierOrder.
Import Strength.

Lemma SFcompare_trans (a b c : spec_float) :
  SFleb a b = true -> SFltb b c = true -> SFltb a c = true.
Proof.
  unfold SFleb, SFltb.
  destruct a as [sa|sa| |sa ma ea], b as [sb|sb| |sb mb eb],
    c as [sc|sc| |sc mc ec]; cbn [SFcompare];
    try discriminate; try reflexivity;
    repeat match goal with s : bool |- _ => destruct s end;
    try discriminate; try reflexivity;
    change (PosDef.Pos.compare_cont Eq) with Pos.compare;
    repeat match goal with
           | |- context [(?x ?= ?y)%Z] => destruct (Z.compare_spec x y)
           end;
    try discriminate; try reflexivity; try lia;
    repeat match goal with
           | |- context [(?x ?= ?y)%positive] => destruct (Pos.compare_spec x y)
           end;
    cbn [CompOpp]; try discriminate; try reflexivity; try lia.
Qed.

Lemma ltb_leb_trans (x y c : float) :
  (x <=? y)%float = true -> (y <? c)%float = true -> (x <? c)%float = true.
Proof. rewrite FloatAxioms.leb_spec, !FloatAxioms.ltb_spec. apply SFcompare_trans. Qed.

(** X25: the tier never decreases when the number of years grows: if
    [x <= y] as doubles then the tier of [x] is at most the tier of [y],
    so a password that takes longer to crack is never rated weaker. *)
Theorem tier_is_monotone (Math_round : float -> float) (x y : float) :
  (x <=? y)%float = true ->
  tier_rank (tier_of Math_round x) <= tier_rank (tier_of Math_round y).
Proof.
  intro Hxy. unfold tier_of, classify.
  pose proof (ltb_leb_trans x y 0.001 Hxy) as H1.
  pose proof (ltb_leb_trans x y 1 Hxy) as H2.
  pose proof (ltb_leb_trans x y 1000 Hxy) as H3.
  pose proof (ltb_leb_trans x y 1000000 Hxy) as H4.
  destruct (y <? 0.001)%float; [rewrite (H1 eq_refl); cbn; lia|].
  destruct (y <? 1)%float.
  { rewrite (H2 eq_refl). destruct (x <? 0.001)%float; cbn; lia. }
  destruct (y <? 1000)%float.
  { rewrite (H3 eq_refl).
    destruct (x <? 0.001)%float, (x <? 1)%float; cbn; lia. }
  destruct (y <? 1000000)%float.
  { rewrite (H4 eq_refl).
    destruct (x <? 0.001)%float, (x <? 1)%float, (x <? 1000)%float; cbn; lia. }
  destruct (x <? 0.001)%float, (x <? 1)%float, (x <? 1000)%float,
    (x <? 1000000)%float; cbn; lia.
Qed.

End TierOrder.

Lemma tier_is_monotone_witness :
  tier_rank (Strength.tier_of (fun x => x) 0.5) <=
  tier_rank (Strength.tier_of (fun x => x) 2000).
Proof.
  apply (tier_is_monotone (fun x => x) 0.5 2000).
  reflexivity.
Defined.

(** ** The link of a record *)

(** X26: the link drawn for a record always starts with [http]: a [url]
    that starts otherwise (no scheme, or a scheme such as [javascript:]) is
    written after [https://], and only an empty [url] has no link. *)
Theorem link_is_http (url : jsstring) :
  (ItemCard.link_href url = None <-> url = []) /\
  (forall href, ItemCard.link_href url = Some href ->
     Guard.startsWith href (str "http") = true /\
     (href = url \/ href = str "https://" ++ url)).
Proof.
  unfold ItemCard.link_href. split.
  - destruct url; split; (reflexivity || discriminate).
  - intros href. destruct url as [|c url]; [discriminate|].
    destruct (Guard.startsWith (c :: url) (str "http")) eqn:E;
      intro H; injection H as <-.
    + split; [exact E | now left].
    + split; [reflexivity | now right].
Qed.

(** ** The vault: another password *)

Section OtherPassword.
Import JSON Vault.
Context {P : Platform}.

Lemma field_bytes_blob (blob : EncryptedData) :
  field_bytes (EncryptedData_object blob) (str "salt")
    = base64ToArrayBuffer (salt blob) /\
  field_bytes (EncryptedData_object blob) (str "iv")
    = base64ToArrayBuffer (iv blob) /\
  field_bytes (EncryptedData_object blob) (str "encrypted")
    = base64ToArrayBuffer (encrypted blob).
Proof. repeat split. Qed.

Lemma encrypt_items_blobs (items : list VaultItem) (masterPassword : jsstring) :
  forall rng : RandomSource,
  exists blobs,
    fst (encrypt_items items masterPassword rng) = map Return blobs /\
    Forall (fun blob => jsstring_ok (encrypted blob) /\ jsstring_ok (salt blob) /\
                        jsstring_ok (iv blob)) blobs /\
    (forall k item, nth_error items k = Some item ->
       exists blob,
         nth_error blobs k = Some blob /\
         base64ToArrayBuffer (salt blob) = Return (drawn rng (28 * k) 16) /\
         base64ToArrayBuffer (iv blob) = Return (drawn rng (28 * k + 16) 12) /\
         base64ToArrayBuffer (encrypted blob) =
           Return (AES_GCM_encrypt
                     (deriveKey masterPassword (drawn rng (28 * k) 16))
                     (drawn rng (28 * k + 16) 12) (serializeRecord item))).
Proof.
  induction items as [|item items IH]; intro rng.
  - exists []. split; [reflexivity|]. split; [constructor|].
    intros [|k] it H; discriminate H.
  - cbn [encrypt_items]. rewrite encryptVaultItem_spec.
    match goal with |- context [Return ?b :: _] => set (blob0 := b) end.
    set (rng1 := fun i => rng (16 + (12 + i))%nat).
    assert (Hrng1 : forall i, rng1 i = rng (28 + i)%nat).
    { intro i. unfold rng1. f_equal. }
    destruct (IH rng1) as (blobs & Hblobs & Hok & Hnth).
    destruct (encrypt_items items masterPassword rng1) as [cs rng2].
    cbn [fst] in Hblobs |- *. subst cs.
    exists (blob0 :: blobs).
    split; [reflexivity|]. split.
    + constructor; [|exact Hok]. unfold blob0. cbn [encrypted salt iv].
      repeat split; apply encode_bytes_ok, bytes_are_bytes.
    + intros [|k] it Hk.
      * cbn [nth_error] in Hk. assert (Hit : it = item) by congruence. subst it.
        exists blob0. split; [reflexivity|]. unfold blob0. cbn [encrypted salt iv].
        rewrite !base64_decode_encode. repeat split.
      * cbn [nth_error] in Hk.
        destruct (Hnth k it Hk) as (blob & Hb & Hs & Hi & He).
        exists blob. split; [exact Hb|].
        rewrite Hs, Hi, He.
        rewrite !(drawn_shift rng rng1 28 _ _ Hrng1).
        replace (28 + 28 * k)%nat with (28 * S k)%nat by lia.
        replace (28 + (28 * k + 16))%nat with (28 * S k + 16)%nat by lia.
        repeat split.
Qed.

(** X27: an export is not imported under a password whose key the cipher
    rejects.  When, for one record of the vault, the ciphertext written
    under the export password is refused under the key derived from the
    import password and the salt of that record, [importVaultData] on the
    exported text fails with the generic import error: no record is
    returned, whatever the other records. *)
Theorem import_under_rejected_password_fails
          (items : list VaultItem) (exportPassword importPassword now : jsstring)
          (rng : RandomSource) (k : nat) (item : VaultItem) :
  jsstring_ok now -> nth_error items k = Some item ->
  AES_GCM_decrypt
    (deriveKey importPassword (drawn rng (28 * k) 16)) (drawn rng (28 * k + 16) 12)
    (AES_GCM_encrypt (deriveKey exportPassword (drawn rng (28 * k) 16))
                     (drawn rng (28 * k + 16) 12) (serializeRecord item)) = None ->
  exists text,
    fst (exportVaultData items exportPassword now rng) = Return text /\
    importVaultData text importPassword = Throw import_failed.
Proof.
  intros Hnow Hitem Hreject.
  destruct (encrypt_items_blobs items exportPassword rng) as (blobs & Hblobs & Hok & Hnth).
  exists (stringify_indented (container now blobs)). split.
  - unfold exportVaultData.
    destruct (encrypt_items items exportPassword rng) as [promises rng'].
    cbn [fst] in Hblobs |- *. subst promises.
    now rewrite map_all_returns.
  - assert (Hparse : parse (stringify_indented (container now blobs))
                     = Return (container now blobs)).
    { apply parse_stringify. now apply container_printable. }
    unfold importVaultData. rewrite (import_container _ _ now blobs Hparse).
    destruct (Hnth k item Hitem) as (blob & Hb & Hs & Hi & He).
    assert (Hthrow : decryptVaultItem (EncryptedData_object blob) importPassword
                     = Throw OperationError).
    { rewrite decrypt_by_fields.
      destruct (field_bytes_blob blob) as (-> & -> & ->).
      rewrite Hs, Hi, He. cbn [bind]. now rewrite Hreject. }
    destruct (map_all_throws
                (fun encryptedItem => decryptVaultItem encryptedItem importPassword)
                (map EncryptedData_object blobs) (EncryptedData_object blob)
                OperationError) as [e' ->].
    + apply in_map. eapply nth_error_In. exact Hb.
    + exact Hthrow.
    + reflexivity.
Qed.

Lemma flat_map_map {A B C : Type} (f : B -> list C) (g : A -> B) (l : list A) :
  flat_map (fun a => f (g a)) l = flat_map f (map g l).
Proof.
  induction l as [|a l IH]; [reflexivity|]. cbn [flat_map map]. now rewrite IH.
Qed.

(** X28: the key depends on the master password through its UTF-8 bytes
    only.  Two well-formed passwords (no lone surrogate) with the same
    bytes are the same string, so distinct well-formed passwords give
    distinct key material; but two passwords whose code points are equal
    once every lone surrogate is replaced by U+FFFD get the same key from
    [deriveKey], so that one decrypts what the other encrypted. *)
Theorem key_depends_on_utf8_bytes (salt_bytes : list byte) :
  (forall p1 p2, well_formed p1 -> well_formed p2 ->
                 Utf8.encode p1 = Utf8.encode p2 -> p1 = p2) /\
  (forall p1 p2,
      map Utf8.to_scalar_value (Utf8.StringToCodePoints p1) =
      map Utf8.to_scalar_value (Utf8.StringToCodePoints p2) ->
      deriveKey p1 salt_bytes = deriveKey p2 salt_bytes) /\
  (forall c, Utf8.is_surrogate c = true ->
             deriveKey [c] salt_bytes = deriveKey [0xFFFD] salt_bytes).
Proof.
  assert (H2 : forall p1 p2,
             map Utf8.to_scalar_value (Utf8.StringToCodePoints p1) =
             map Utf8.to_scalar_value (Utf8.StringToCodePoints p2) ->
             deriveKey p1 salt_bytes = deriveKey p2 salt_bytes).
  { intros p1 p2 H. unfold deriveKey, Utf8.encode.
    rewrite !(flat_map_map Utf8.utf8_encode_code_point Utf8.to_scalar_value).
    now rewrite H. }
  split; [|split; [exact H2|]].
  - intros p1 p2 (cps1 & H1 & ->) (cps2 & Hc2 & ->) E.
    rewrite !encode_CodePointsToString in E by assumption.
    apply (f_equal (fun bs => Utf8.utf8_decode Utf8.decoder_start (bs ++ []))) in E.
    cbv beta in E. rewrite !utf8_decode_code_points in E by assumption.
    cbn [Utf8.utf8_decode] in E. change (Utf8.bytes_needed Utf8.decoder_start =? 0)
      with true in E. cbv iota in E. rewrite !app_nil_r in E. now subst.
  - intros c Hc. apply H2.
    assert (E : Utf8.StringToCodePoints [c] = [c]).
    { cbn [Utf8.StringToCodePoints]. now destruct (Utf8.is_high_surrogate c). }
    rewrite E. cbn [map]. unfold Utf8.to_scalar_value at 1. rewrite Hc.
    reflexivity.
Qed.

End OtherPassword.

Lemma import_under_rejected_password_fails_witness :
  exists text,
    fst (Vault.exportVaultData (P := Vault.model_platform) [bank_record]
           (str "one") (str "2026-01-01T00:00:00.000Z") counting_source)
      = Return text /\
    Vault.importVaultData (P := Vault.model_platform) text (str "two")
      = Throw Vault.import_failed.
Proof.
  apply (import_under_rejected_password_fails (P := Vault.model_platform)
           [bank_record] (str "one") (str "two") (str "2026-01-01T00:00:00.000Z")
           counting_source 0 bank_record).
  - apply jsstring_okb_ok. reflexivity.
  - reflexivity.
  - vm_compute. reflexivity.
Defined.

(** ** The vault: export and import, record by record *)

Section ExportRoundTrip.
Import JSON Vault.
Context {P : Platform}.

Lemma drawn_ext (rng rng' : RandomSource) (start n : nat) :
  (forall i, rng i = rng' i) -> drawn rng start n = drawn rng' start n.
Proof. intro H. unfold drawn. apply map_ext. intro i. apply H. Qed.

(** A call of [encryptVaultItem] depends on the bytes of the source only. *)
Lemma encryptVaultItem_ext (data : VaultItem) (masterPassword : jsstring)
                           (rng rng' : RandomSource) :
  (forall i, rng i = rng' i) ->
  fst (encryptVaultItem data masterPassword rng)
  = fst (encryptVaultItem data masterPassword rng').
Proof.
  intro H. rewrite !encryptVaultItem_spec. cbn [fst].
  now rewrite (drawn_ext rng rng' 0 16 H), (drawn_ext rng rng' 16 12 H).
Qed.

Lemma map_Return_injective {A : Type} (l1 l2 : list A) :
  map (@Return A) l1 = map (@Return A) l2 -> l1 = l2.
Proof.
  revert l2. induction l1 as [|a l1 IH]; intros [|b l2] E;
    try reflexivity; try discriminate.
  cbn [map] in E. f_equal; [congruence | apply IH; congruence].
Qed.

(** The [k]-th call of [encryptVaultItem] made by the export starts from
    the random source advanced by [28 k] bytes. *)
Lemma encrypt_items_nth (items : list VaultItem) (masterPassword : jsstring) :
  forall rng : RandomSource,
  exists blobs,
    fst (encrypt_items items masterPassword rng) = map Return blobs /\
    List.length blobs = List.length items /\
    (forall k item, nth_error items k = Some item ->
       exists blob,
         nth_error blobs k = Some blob /\
         fst (encryptVaultItem item masterPassword (fun i => rng (28 * k + i)%nat))
         = Return blob) /\
    (forall i, snd (encrypt_items items masterPassword rng) i
               = rng (28 * List.length items + i)%nat).
Proof.
  induction items as [|item items IH]; intro rng.
  - exists []. split; [reflexivity|]. split; [reflexivity|]. split.
    + intros [|k] it H; discriminate H.
    + reflexivity.
  - cbn [encrypt_items].
    destruct (encryptVaultItem item masterPassword rng) as [c rng1] eqn:E1.
    assert (Hc : exists blob0, c = Return blob0).
    { pose proof (f_equal fst E1) as Ec. rewrite encryptVaultItem_spec in Ec.
      cbn [fst] in Ec. eexists. symmetry. exact Ec. }
    destruct Hc as [blob0 ->].
    assert (Hrng1 : forall i, rng1 i = rng (28 + i)%nat).
    { intro i. pose proof (f_equal snd E1) as Er.
      rewrite encryptVaultItem_spec in Er. cbn [snd] in Er.
      rewrite <- Er. reflexivity. }
    destruct (IH rng1) as (blobs & Hblobs & Hlen & Hnth & Hrest).
    destruct (encrypt_items items masterPassword rng1) as [cs rng2].
    cbn [fst snd] in Hblobs, Hrest |- *. subst cs.
    exists (blob0 :: blobs).
    split; [reflexivity|]. split; [cbn [List.length]; now rewrite Hlen|]. split.
    + intros [|k] it Hk.
      * cbn [nth_error] in Hk. assert (Hit : it = item) by congruence. subst it.
        exists blob0. split; [reflexivity|].
        rewrite (encryptVaultItem_ext item masterPassword _ rng).
        -- now rewrite E1.
        -- intro i. reflexivity.
      * cbn [nth_error] in Hk. destruct (Hnth k it Hk) as (blob & Hb & He).
        exists blob. split; [exact Hb|]. rewrite <- He.
        apply encryptVaultItem_ext. intro i. rewrite Hrng1. f_equal. lia.
    + intro i. rewrite Hrest, Hrng1. cbn [List.length]. f_equal. lia.
Qed.

(** C6: exporting a sequence of records never fails and encrypts each of
    them on its own: the [k]-th blob is the result of [encryptVaultItem]
    on the [k]-th record from the random source advanced by [28 k] bytes,
    so it has its own salt and nonce, drawn at the positions [28 k] and
    [28 k + 16], and the export uses [28] bytes for each record.  The
    blobs are wrapped in a container with [version] 1 and the timestamp,
    and importing the exported text under the same password returns the
    records in their order. *)
Theorem import_export_round_trip (L : PlatformLaws P) (items : list VaultItem)
                                 (masterPassword now : jsstring)
                                 (rng : RandomSource) :
  Forall VaultItem_ok items -> jsstring_ok now ->
  exists text blobs,
    fst (exportVaultData items masterPassword now rng) = Return text /\
    List.length blobs = List.length items /\
    (forall k item, nth_error items k = Some item ->
       exists blob,
         nth_error blobs k = Some blob /\
         fst (encryptVaultItem item masterPassword (fun i => rng (28 * k + i)%nat))
           = Return blob /\
         base64ToArrayBuffer (salt blob) = Return (drawn rng (28 * k) 16) /\
         base64ToArrayBuffer (iv blob) = Return (drawn rng (28 * k + 16) 12) /\
         decryptVaultItem (EncryptedData_object blob) masterPassword
           = Return (VaultItem_object item)) /\
    (forall i, snd (exportVaultData items masterPassword now rng) i
               = rng (28 * List.length items + i)%nat) /\
    parse text =
      Return (JObject [(str "version", JNumber 1 0);
                       (str "timestamp", JString now);
                       (str "items", JArray (map EncryptedData_object blobs))]) /\
    importVaultData text masterPassword = Return (map VaultItem_object items).
Proof.
  intros Hitems Hnow.
  destruct (encrypt_items_spec L items masterPassword rng Hitems)
    as (blobs & Henc & Hall).
  destruct (encrypt_items_nth items masterPassword rng)
    as (blobs' & Henc' & Hlen & Hnth & Hrest).
  assert (Eb : blobs' = blobs).
  { apply map_Return_injective. congruence. }
  subst blobs'.
  exists (stringify_indented (container now blobs)), blobs.
  assert (Hprint : printable (container now blobs)).
  { apply container_printable; [exact Hnow|].
    clear Henc Henc' Hlen Hnth Hrest.
    induction Hall as [|item blob items' blobs' H _ IH];
      constructor; [tauto | apply IH].
    now inversion Hitems. }
  assert (Hparse : parse (stringify_indented (container now blobs))
                   = Return (container now blobs))
    by apply parse_stringify, Hprint.
  assert (Hexport : exportVaultData items masterPassword now rng
                    = (Return (stringify_indented (container now blobs)),
                       snd (encrypt_items items masterPassword rng))).
  { unfold exportVaultData.
    destruct (encrypt_items items masterPassword rng) as [promises rng'].
    cbn [fst snd] in Henc |- *. subst promises.
    rewrite map_all_returns. reflexivity. }
  rewrite Hexport. cbn [fst snd].
  split; [reflexivity|]. split; [exact Hlen|].
  split; [|split; [exact Hrest|split; [exact Hparse|]]].
  - intros k item Hk. destruct (Hnth k item Hk) as (blob & Hb & He).
    exists blob. split; [exact Hb|]. split; [exact He|].
    assert (Hok : VaultItem_ok item).
    { rewrite Forall_forall in Hitems. apply Hitems.
      eapply nth_error_In. exact Hk. }
    pose proof (decrypt_of_encrypt L item masterPassword _ blob Hok He) as Hdec.
    rewrite encryptVaultItem_spec in He. cbn [fst] in He.
    assert (Eblob := He).
    apply (f_equal (fun c => match c with Return b => b | Throw _ => blob end))
      in Eblob.
    cbv beta iota in Eblob.
    split; [rewrite <- Eblob | split; [rewrite <- Eblob | exact Hdec]];
      cbn [salt iv]; rewrite base64_decode_encode.
    + rewrite (drawn_shift rng (fun i => rng (28 * k + i)%nat) (28 * k) 0 16)
        by reflexivity.
      now rewrite Nat.add_0_r.
    + now rewrite (drawn_shift rng (fun i => rng (28 * k + i)%nat) (28 * k) 16 12)
        by reflexivity.
  - unfold importVaultData.
    rewrite (import_container _ _ now blobs Hparse).
    replace (map_all _ _) with (Return (A := list JSValue) (map VaultItem_object items));
      [reflexivity|].
    symmetry. apply map_all_Forall2.
    clear Henc Henc' Hlen Hnth Hrest Hprint Hparse Hexport Hitems.
    induction Hall as [|item blob items' blobs' H _ IH]; cbn [map];
      constructor; [tauto | exact IH].
Qed.

End ExportRoundTrip.

Lemma import_export_round_trip_witness :
  exists text,
    fst (Vault.exportVaultData (P := Vault.model_platform) [bank_record]
           (str "correct horse battery") (str "2026-01-01T00:00:00.000Z")
           counting_source) = Return text /\
    Vault.importVaultData (P := Vault.model_platform) text
      (str "correct horse battery") =
      Return [Vault.VaultItem_object bank_record].
Proof.
  destruct (import_export_round_trip (P := Vault.model_platform)
              model_platform_laws [bank_record] (str "correct horse battery")
              (str "2026-01-01T00:00:00.000Z") counting_source)
    as (text & blobs & H1 & _ & _ & _ & _ & H4).
  - constructor; [|constructor].
    unfold VaultItem_ok. repeat split; apply jsstring_okb_ok; reflexivity.
  - apply jsstring_okb_ok. reflexivity.
  - exists text. split; assumption.
Defined.
